(** * Sanjou: offline-first synchronisation machinery

    A shallow embedding of the replicated document operations
    ([src/sync/yjsProvider.ts], [src/hooks/useBlocks.ts]), the completion
    relay ([src/sync/completionSync.ts]), the external task importer
    ([src/hooks/useSubeteTasks.ts]) and the remote reconciler
    ([src/sync/firebaseSync.ts]), with the properties the specification
    states about them.

    Conventions.  JavaScript numbers that hold counts and millisecond
    timestamps are integers ([Z], or [nat] for counters that start at 0 and
    only grow); the retry delay, a power of two capped and then increased
    by a random draw, is a rational ([Q]); the value and the time of an
    imported task, which the priority sort divides and subtracts, are
    binary64 floating-point numbers ([float]) with the rounding, the
    infinities and the [NaN] of IEEE 754.  A string that is only stored
    and compared is a [string]; the text of task notes, whose characters
    [trim] inspects, is the list of its UTF-16 code units.  An optional
    property ([x?: T]) is an [option]; a [Partial<T>] is a record of
    options, [Some v] meaning "the key is present".  Module-level [let]
    variables become fields of an explicit state record; calls into the
    platform (file system, timers, clock, random source, Firestore) take
    their outcome as an explicit argument. *)

From Stdlib Require Import ZArith QArith Qminmax Lia Lqa Ascii String Floats.
From Stdlib.Strings Require Import Byte.
From stdpp Require Import base option list gmap strings sorting.

Set Default Proof Using "Type".

(* ===================================================================== *)
(** * Domain entities ([src/models]) *)
(* ===================================================================== *)

Module Models.

(** The five checklist flags.  The interface declares them [boolean]; at
    run time [completeBlock] can build a meta object in which four of them
    are [undefined] (see [UseBlocks.completeBlock]), hence [option]. *)
Record BlockMeta := mkBlockMeta {
  finishLinePictured : option bool;
  notInterrupted : option bool;
  committedToFocus : option bool;
  phoneSeparate : option bool;
  celebrated : option bool
}.

Record Block := mkBlock {
  b_id : string;
  b_date : string;
  b_startedAt : Z;
  b_completedAt : option Z;
  b_taskId : option string;
  b_meta : BlockMeta;
  b_isValid : bool;
  b_notes : option string
}.

Record Subtask := mkSubtask {
  st_id : string;
  st_title : string;
  st_completed : bool
}.

Record Task := mkTask {
  t_id : string;
  t_title : string;
  t_subtasks : list Subtask;
  t_completed : bool;
  t_createdAt : Z;
  t_modifiedAt : Z;
  t_blocksSpent : Z;
  t_notes : option string
}.

Record RightNowItem := mkRightNowItem {
  rni_id : string;
  rni_text : string;
  rni_completed : bool
}.

Record RightNowList := mkRightNowList {
  rnl_id : string;
  rnl_blockId : option string;
  rnl_items : list RightNowItem;
  rnl_createdAt : Z
}.

Record Break := mkBreak {
  br_id : string;
  br_startedAt : Z;
  br_endedAt : option Z;
  br_duration : Z;
  br_notes : option string
}.

Inductive SyncState := synced | syncing | offline | error.

(** [Partial<Block>]: [Some v] when the key is present in the object. *)
Record PartialBlock := mkPartialBlock {
  pb_id : option string;
  pb_date : option string;
  pb_startedAt : option Z;
  pb_completedAt : option (option Z);
  pb_taskId : option (option string);
  pb_meta : option BlockMeta;
  pb_isValid : option bool;
  pb_notes : option (option string)
}.

(** [Partial<Break>]. *)
Record PartialBreak := mkPartialBreak {
  pbr_id : option string;
  pbr_startedAt : option Z;
  pbr_endedAt : option (option Z);
  pbr_duration : option Z;
  pbr_notes : option (option string)
}.

(** [Partial<Task>]. *)
Record PartialTask := mkPartialTask {
  pt_id : option string;
  pt_title : option string;
  pt_subtasks : option (list Subtask);
  pt_completed : option bool;
  pt_createdAt : option Z;
  pt_modifiedAt : option Z;
  pt_blocksSpent : option Z;
  pt_notes : option (option string)
}.

(** The empty object literal [{}] at each partial type. *)
Definition noBlockUpdates : PartialBlock :=
  mkPartialBlock None None None None None None None None.
Definition noBreakUpdates : PartialBreak :=
  mkPartialBreak None None None None None.
Definition noTaskUpdates : PartialTask :=
  mkPartialTask None None None None None None None None.

(** [createEmptyMeta()]. *)
Definition createEmptyMeta : BlockMeta :=
  mkBlockMeta (Some false) (Some false) (Some false) (Some false) (Some false).

(** One property of an object spread [{...base, ...updates}]: the later
    object wins when it has the key. *)
Definition spreadField {A} (base : A) (upd : option A) : A :=
  match upd with Some v => v | None => base end.

(** [{ ...block, ...updates }] *)
Definition spreadBlock (b : Block) (u : PartialBlock) : Block :=
  {| b_id := spreadField (b_id b) (pb_id u);
     b_date := spreadField (b_date b) (pb_date u);
     b_startedAt := spreadField (b_startedAt b) (pb_startedAt u);
     b_completedAt := spreadField (b_completedAt b) (pb_completedAt u);
     b_taskId := spreadField (b_taskId b) (pb_taskId u);
     b_meta := spreadField (b_meta b) (pb_meta u);
     b_isValid := spreadField (b_isValid b) (pb_isValid u);
     b_notes := spreadField (b_notes b) (pb_notes u) |}.

(** [{ ...break, ...updates }] *)
Definition spreadBreak (b : Break) (u : PartialBreak) : Break :=
  {| br_id := spreadField (br_id b) (pbr_id u);
     br_startedAt := spreadField (br_startedAt b) (pbr_startedAt u);
     br_endedAt := spreadField (br_endedAt b) (pbr_endedAt u);
     br_duration := spreadField (br_duration b) (pbr_duration u);
     br_notes := spreadField (br_notes b) (pbr_notes u) |}.

(** [{ ...task, ...updates }] *)
Definition spreadTask (t : Task) (u : PartialTask) : Task :=
  {| t_id := spreadField (t_id t) (pt_id u);
     t_title := spreadField (t_title t) (pt_title u);
     t_subtasks := spreadField (t_subtasks t) (pt_subtasks u);
     t_completed := spreadField (t_completed t) (pt_completed u);
     t_createdAt := spreadField (t_createdAt t) (pt_createdAt u);
     t_modifiedAt := spreadField (t_modifiedAt t) (pt_modifiedAt u);
     t_blocksSpent := spreadField (t_blocksSpent t) (pt_blocksSpent u);
     t_notes := spreadField (t_notes t) (pt_notes u) |}.

End Models.

(* ===================================================================== *)
(** * The shared document ([src/sync/yjsProvider.ts]) *)
(* ===================================================================== *)

Module YjsProvider.
Import Models.

(** ** The part of Yjs the provider relies on *)

(** One primitive change inside a transaction, by shared-type name. *)
Inductive YOp :=
| ArrayDelete (arr : string) (index len : nat)
| ArrayInsert (arr : string) (index count : nat)
| MapSet (map key : string)
| MapDelete (map key : string).

(** A string value whose characters the code inspects, as JavaScript
    holds it: the sequence of its UTF-16 code units. *)
Definition JsString : Type := list N.

(** The module-level document [ydoc] with its five shared types.
    [transactions] is the history of committed transactions, oldest first;
    every committed transaction is what observers and the ['update']
    listeners are notified of, once. *)
Record Doc := mkDoc {
  blocksArray : list Block;
  tasksMap : gmap string Task;
  rightNowListsMap : gmap string RightNowList;
  breaksArray : list Break;
  taskNotesMap : gmap string JsString;
  transactions : list (list YOp)
}.

Definition emptyDoc : Doc := mkDoc [] ∅ ∅ [] ∅ [].

(** [Y.Array.prototype.delete(index, length)]: removes [length] elements
    from [index]; Yjs throws when the range leaves the array. *)
Definition yarray_delete {A} (index len : nat) (l : list A) : option (list A) :=
  if decide (index + len ≤ length l)
  then Some (take index l ++ drop (index + len) l)
  else None.

(** [Y.Array.prototype.insert(index, content)]: Yjs throws when [index]
    is beyond the end. *)
Definition yarray_insert {A} (index : nat) (content : list A) (l : list A)
  : option (list A) :=
  if decide (index ≤ length l)
  then Some (take index l ++ content ++ drop index l)
  else None.

(** [Array.prototype.findIndex]; [None] is the [-1] result. *)
Fixpoint findIndex {A} (p : A → bool) (l : list A) : option nat :=
  match l with
  | [] => None
  | x :: l' => if p x then Some 0 else S <$> findIndex p l'
  end.

(** [Array.prototype.find]; [None] is [undefined]. *)
Fixpoint find {A} (p : A → bool) (l : list A) : option A :=
  match l with
  | [] => None
  | x :: l' => if p x then Some x else find p l'
  end.

(** ** Block operations *)

(** [addBlock]: [blocksArray.push([block])], a transaction of its own. *)
Definition addBlock (block : Block) (d : Doc) : Doc :=
  mkDoc (blocksArray d ++ [block]) (tasksMap d) (rightNowListsMap d)
        (breaksArray d) (taskNotesMap d)
        (transactions d ++ [[ArrayInsert "blocks" (length (blocksArray d)) 1]]).

(** [updateBlock(id, updates)].  [None] stands for an exception thrown by
    Yjs inside the transaction. *)
Definition updateBlock (id : string) (updates : PartialBlock) (d : Doc)
  : option Doc :=
  let blocks := blocksArray d in
  match findIndex (λ b, String.eqb (b_id b) id) blocks with
  | Some index =>
      match blocks !! index with
      | Some old =>
          let updated := spreadBlock old updates in
          arr1 ← yarray_delete index 1 blocks;
          arr2 ← yarray_insert index [updated] arr1;
          Some (mkDoc arr2 (tasksMap d) (rightNowListsMap d)
                      (breaksArray d) (taskNotesMap d)
                      (transactions d ++
                         [[ArrayDelete "blocks" index 1;
                           ArrayInsert "blocks" index 1]]))
      | None => None
      end
  | None => Some d
  end.

(** ** Task operations *)

(** [addTask]: [tasksMap.set(task.id, task)]. *)
Definition addTask (task : Task) (d : Doc) : Doc :=
  mkDoc (blocksArray d) (<[t_id task := task]> (tasksMap d))
        (rightNowListsMap d) (breaksArray d) (taskNotesMap d)
        (transactions d ++ [[MapSet "tasks" (t_id task)]]).

(** [updateTask(id, updates)]; [now] is [Date.now()]. *)
Definition updateTask (now : Z) (id : string) (updates : PartialTask) (d : Doc)
  : Doc :=
  match tasksMap d !! id with
  | Some task =>
      let merged := spreadTask task updates in
      let stamped :=
        mkTask (t_id merged) (t_title merged) (t_subtasks merged)
               (t_completed merged) (t_createdAt merged) now
               (t_blocksSpent merged) (t_notes merged) in
      mkDoc (blocksArray d) (<[id := stamped]> (tasksMap d))
            (rightNowListsMap d) (breaksArray d) (taskNotesMap d)
            (transactions d ++ [[MapSet "tasks" id]])
  | None => d
  end.

(** ** Break operations *)

(** [addBreak]: [breaksArray.push([breakItem])]. *)
Definition addBreak (breakItem : Break) (d : Doc) : Doc :=
  mkDoc (blocksArray d) (tasksMap d) (rightNowListsMap d)
        (breaksArray d ++ [breakItem]) (taskNotesMap d)
        (transactions d ++ [[ArrayInsert "breaks" (length (breaksArray d)) 1]]).

(** [updateBreak(id, updates)]. *)
Definition updateBreak (id : string) (updates : PartialBreak) (d : Doc)
  : option Doc :=
  let breaks := breaksArray d in
  match findIndex (λ b, String.eqb (br_id b) id) breaks with
  | Some index =>
      match breaks !! index with
      | Some old =>
          let updated := spreadBreak old updates in
          arr1 ← yarray_delete index 1 breaks;
          arr2 ← yarray_insert index [updated] arr1;
          Some (mkDoc (blocksArray d) (tasksMap d) (rightNowListsMap d)
                      arr2 (taskNotesMap d)
                      (transactions d ++
                         [[ArrayDelete "breaks" index 1;
                           ArrayInsert "breaks" index 1]]))
      | None => None
      end
  | None => Some d
  end.

(** ** Queries on blocks *)

(** Truthiness of an optional number such as [b.completedAt]: [undefined]
    and [0] are falsy. *)
Definition truthyNumber (n : option Z) : bool :=
  match n with
  | Some z => negb (z =? 0)%Z
  | None => false
  end.

(** [getBlocksForDate(date)]. *)
Definition getBlocksForDate (date : string) (d : Doc) : list Block :=
  List.filter (λ b, String.eqb (b_date b) date) (blocksArray d).

(** [getTodayBlocks()]; [today] is
    [new Date().toISOString().split('T')[0]]. *)
Definition getTodayBlocks (today : string) (d : Doc) : list Block :=
  getBlocksForDate today d.

(** [getValidBlockCount(date)]. *)
Definition getValidBlockCount (date : string) (d : Doc) : nat :=
  length (List.filter (λ b, b_isValid b && truthyNumber (b_completedAt b))
                      (getBlocksForDate date d)).

(** ** Deleting a task *)

(** [deleteTask(id)]: [tasksMap.delete(id)].  Deleting a key the map does
    not hold changes nothing and notifies nobody. *)
Definition deleteTask (id : string) (d : Doc) : Doc :=
  match tasksMap d !! id with
  | Some _ =>
      mkDoc (blocksArray d) (delete id (tasksMap d))
            (rightNowListsMap d) (breaksArray d) (taskNotesMap d)
            (transactions d ++ [[MapDelete "tasks" id]])
  | None => d
  end.

(** ** Task notes, keyed by task content *)

(** The code units [String.prototype.trim] removes: the WhiteSpace and
    LineTerminator productions of ECMAScript.  These are TAB, LF, VT, FF,
    CR (U+0009 to U+000D), the byte order mark U+FEFF, the line and
    paragraph separators U+2028 and U+2029, and the code points of the
    Unicode category Space_Separator: U+0020, U+00A0, U+1680, U+2000 to
    U+200A, U+202F, U+205F and U+3000.  All of them lie in the basic
    plane, so that the test is one on code units. *)
Definition isWhitespace (c : N) : bool :=
  ((0x9 <=? c) && (c <=? 0xD) || (c =? 0x20) || (c =? 0xA0) || (c =? 0x1680) ||
   (0x2000 <=? c) && (c <=? 0x200A) || (c =? 0x2028) || (c =? 0x2029) ||
   (c =? 0x202F) || (c =? 0x205F) || (c =? 0x3000) || (c =? 0xFEFF))%N.

(** Falsiness of a string: it is empty. *)
Definition isEmpty (s : JsString) : bool :=
  match s with
  | [] => true
  | _ :: _ => false
  end.

(** [String.prototype.trimStart]. *)
Fixpoint trimStart (s : JsString) : JsString :=
  match s with
  | [] => []
  | c :: rest => if isWhitespace c then trimStart rest else s
  end.

(** [String.prototype.trimEnd]. *)
Fixpoint trimEnd (s : JsString) : JsString :=
  match s with
  | [] => []
  | c :: rest =>
      let r := trimEnd rest in
      if isWhitespace c && isEmpty r then [] else c :: r
  end.

(** [String.prototype.trim]. *)
Definition trim (s : JsString) : JsString := trimEnd (trimStart s).

(** [getTaskNotes(taskContent)]. *)
Definition getTaskNotes (taskContent : string) (d : Doc) : option JsString :=
  taskNotesMap d !! taskContent.

(** [setTaskNotes(taskContent, notes)]. *)
Definition setTaskNotes (taskContent : string) (notes : JsString) (d : Doc)
  : Doc :=
  if negb (isEmpty (trim notes)) then
    mkDoc (blocksArray d) (tasksMap d) (rightNowListsMap d) (breaksArray d)
          (<[taskContent := notes]> (taskNotesMap d))
          (transactions d ++ [[MapSet "taskNotes" taskContent]])
  else
    match taskNotesMap d !! taskContent with
    | Some _ =>
        mkDoc (blocksArray d) (tasksMap d) (rightNowListsMap d) (breaksArray d)
              (delete taskContent (taskNotesMap d))
              (transactions d ++ [[MapDelete "taskNotes" taskContent]])
    | None => d
    end.

End YjsProvider.

(* ===================================================================== *)
(** * The blocks hook ([src/hooks/useBlocks.ts]) *)
(* ===================================================================== *)

Module UseBlocks.
Import Models YjsProvider.

(** The meta object [{ ...blocks.find(b => b.id === id)?.meta, celebrated }]:
    spreading [undefined] contributes no key, so when the hook's state has
    no such block only [celebrated] is defined. *)
Definition completedMeta (found : option Block) (celebrated_ : bool) : BlockMeta :=
  match found with
  | Some b =>
      mkBlockMeta (finishLinePictured (b_meta b)) (notInterrupted (b_meta b))
                  (committedToFocus (b_meta b)) (phoneSeparate (b_meta b))
                  (Some celebrated_)
  | None => mkBlockMeta None None None None (Some celebrated_)
  end.

(** [completeBlock(id, celebrated = false)].  [blocks] is the React state
    the callback closed over (the last array the subscription delivered),
    [now] is [Date.now()]. *)
Definition completeBlock (blocks : list Block) (now : Z)
    (id : string) (celebrated_ : bool) (d : Doc) : option Doc :=
  updateBlock id
    (mkPartialBlock None None None (Some (Some now)) None
       (Some (completedMeta (find (λ b, String.eqb (b_id b) id) blocks) celebrated_))
       None None)
    d.

(** [invalidateBlock(id)]. *)
Definition invalidateBlock (id : string) (d : Doc) : option Doc :=
  updateBlock id
    (mkPartialBlock None None None None None None (Some false) None) d.

(** [updateBlockNotes(id, notes)]. *)
Definition updateBlockNotes (id notes : string) (d : Doc) : option Doc :=
  updateBlock id
    (mkPartialBlock None None None None None None None (Some (Some notes))) d.

(** [createBlock(taskId?, meta?)]: the block built and the document after
    [addBlock].  [newId] is [generateId()], [today] is [getToday()], [now]
    is [Date.now()]. *)
Definition createBlock (newId today : string) (now : Z)
    (taskId : option string) (meta : option BlockMeta) (d : Doc) : Block * Doc :=
  let block :=
    mkBlock newId today now None taskId (default createEmptyMeta meta) true None in
  (block, addBlock block d).

(** The hook's [todayValidCount], over the hook's state [blocks]. *)
Definition todayValidCount (today : string) (blocks : list Block) : nat :=
  length (List.filter (λ b, b_isValid b && truthyNumber (b_completedAt b))
            (List.filter (λ b, String.eqb (b_date b) today) blocks)).

(** What a component can ask the hook to do. *)
Inductive BlockAction :=
| CreateBlock (newId today : string) (now : Z)
              (taskId : option string) (meta : option BlockMeta)
| CompleteBlock (hookBlocks : list Block) (now : Z) (id : string)
                (celebrated_ : bool)
| InvalidateBlock (id : string)
| UpdateBlockNotes (id notes : string).

Definition applyBlockAction (a : BlockAction) (d : Doc) : option Doc :=
  match a with
  | CreateBlock newId today now taskId meta =>
      Some (createBlock newId today now taskId meta d).2
  | CompleteBlock hookBlocks now id celebrated_ =>
      completeBlock hookBlocks now id celebrated_ d
  | InvalidateBlock id => invalidateBlock id d
  | UpdateBlockNotes id notes => updateBlockNotes id notes d
  end.

(** A sequence of hook calls, stopping at the first exception. *)
Fixpoint applyBlockActions (actions : list BlockAction) (d : Doc) : option Doc :=
  match actions with
  | [] => Some d
  | a :: rest => applyBlockAction a d ≫= applyBlockActions rest
  end.

(** Position [i] of the sequence holds an invalidated block of id [bid]. *)
Definition invalidAt (i : nat) (bid : string) (d : Doc) : Prop :=
  ∃ b, blocksArray d !! i = Some b ∧ b_isValid b = false ∧ b_id b = bid.

(** Whether a block counts towards [getValidBlockCount]. *)
Definition countsAsValid (b : Block) : bool :=
  b_isValid b && truthyNumber (b_completedAt b).

End UseBlocks.

(* ===================================================================== *)
(** * The tasks hook ([src/hooks/useTasks.ts]) *)
(* ===================================================================== *)

Module UseTasks.
Import Models YjsProvider.

(** [Partial<Subtask>]. *)
Record PartialSubtask := mkPartialSubtask {
  pst_id : option string;
  pst_title : option string;
  pst_completed : option bool
}.

(** [{ ...st, ...updates }] *)
Definition spreadSubtask (st : Subtask) (u : PartialSubtask) : Subtask :=
  {| st_id := spreadField (st_id st) (pst_id u);
     st_title := spreadField (st_title st) (pst_title u);
     st_completed := spreadField (st_completed st) (pst_completed u) |}.

(** [createTask(title)]; [newId] is [generateId()], [now1] and [now2] the
    two readings of [Date.now()]. *)
Definition createTask (newId : string) (now1 now2 : Z) (title : string)
    (d : Doc) : Task * Doc :=
  let task := mkTask newId title [] false now1 now2 0 None in
  (task, addTask task d).

(** [updateTaskTitle(id, title)]. *)
Definition updateTaskTitle (now : Z) (id title : string) (d : Doc) : Doc :=
  updateTask now id
    (mkPartialTask None (Some title) None None None None None None) d.

(** [updateTaskNotes(id, notes)]. *)
Definition updateTaskNotes (now : Z) (id notes : string) (d : Doc) : Doc :=
  updateTask now id
    (mkPartialTask None None None None None None None (Some (Some notes))) d.

(** [completeTask(id)]. *)
Definition completeTask (now : Z) (id : string) (d : Doc) : Doc :=
  updateTask now id
    (mkPartialTask None None None (Some true) None None None None) d.

(** [uncompleteTask(id)]. *)
Definition uncompleteTask (now : Z) (id : string) (d : Doc) : Doc :=
  updateTask now id
    (mkPartialTask None None None (Some false) None None None None) d.

(** [removeTask(id)]. *)
Definition removeTask (id : string) (d : Doc) : Doc := deleteTask id d.

(** The update object [{ subtasks }]. *)
Definition subtasksUpdate (subtasks : list Subtask) : PartialTask :=
  mkPartialTask None None (Some subtasks) None None None None None.

(** [addSubtask(taskId, title)]; [newId] is [generateId()]. *)
Definition addSubtask (newId : string) (now : Z) (taskId title : string)
    (d : Doc) : Doc :=
  match tasksMap d !! taskId with
  | Some task =>
      let subtask := mkSubtask newId title false in
      updateTask now taskId (subtasksUpdate (t_subtasks task ++ [subtask])) d
  | None => d
  end.

(** [updateSubtask(taskId, subtaskId, updates)]. *)
Definition updateSubtask (now : Z) (taskId subtaskId : string)
    (updates : PartialSubtask) (d : Doc) : Doc :=
  match tasksMap d !! taskId with
  | Some task =>
      updateTask now taskId
        (subtasksUpdate
           ((λ st, if String.eqb (st_id st) subtaskId
                   then spreadSubtask st updates else st) <$> t_subtasks task))
        d
  | None => d
  end.

(** [removeSubtask(taskId, subtaskId)]. *)
Definition removeSubtask (now : Z) (taskId subtaskId : string) (d : Doc) : Doc :=
  match tasksMap d !! taskId with
  | Some task =>
      updateTask now taskId
        (subtasksUpdate
           (List.filter (λ st, negb (String.eqb (st_id st) subtaskId))
                        (t_subtasks task)))
        d
  | None => d
  end.

(** [toggleSubtask(taskId, subtaskId)]. *)
Definition toggleSubtask (now : Z) (taskId subtaskId : string) (d : Doc) : Doc :=
  match tasksMap d !! taskId with
  | Some task =>
      match find (λ st, String.eqb (st_id st) subtaskId) (t_subtasks task) with
      | Some subtask =>
          updateSubtask now taskId subtaskId
            (mkPartialSubtask None None (Some (negb (st_completed subtask)))) d
      | None => d
      end
  | None => d
  end.

(** [incrementBlocksSpent(taskId)]. *)
Definition incrementBlocksSpent (now : Z) (taskId : string) (d : Doc) : Doc :=
  match tasksMap d !! taskId with
  | Some task =>
      updateTask now taskId
        (mkPartialTask None None None None None None
                       (Some (t_blocksSpent task + 1)%Z) None) d
  | None => d
  end.

(** What [updateTask] stores for a task the map holds:
    [{ ...task, ...updates, modifiedAt: now }]. *)
Definition stamped (now : Z) (t : Task) (u : PartialTask) : Task :=
  mkTask (spreadField (t_id t) (pt_id u)) (spreadField (t_title t) (pt_title u))
         (spreadField (t_subtasks t) (pt_subtasks u))
         (spreadField (t_completed t) (pt_completed u))
         (spreadField (t_createdAt t) (pt_createdAt u)) now
         (spreadField (t_blocksSpent t) (pt_blocksSpent u))
         (spreadField (t_notes t) (pt_notes u)).

(** The [map] callback of [updateSubtask] for the update
    [{ completed }]. *)
Definition setCompleted (subtaskId : string) (c : bool) (st : Subtask) : Subtask :=
  if String.eqb (st_id st) subtaskId
  then spreadSubtask st (mkPartialSubtask None None (Some c))
  else st.

End UseTasks.

(* ===================================================================== *)
(** * The breaks hook ([src/hooks/useBreaks.ts]) *)
(* ===================================================================== *)

Module UseBreaks.
Import Models YjsProvider.

(** [startBreak(duration)]; [newId] is [generateId()], [now] is
    [Date.now()]. *)
Definition startBreak (newId : string) (now : Z) (duration : Z) (d : Doc)
  : Break * Doc :=
  let breakItem := mkBreak newId now None duration None in
  (breakItem, addBreak breakItem d).

(** [endBreak(id, notes?)]: the update object always has the key [notes],
    [undefined] when the argument is left out. *)
Definition endBreak (now : Z) (id : string) (notes : option string) (d : Doc)
  : option Doc :=
  updateBreak id (mkPartialBreak None None (Some (Some now)) None (Some notes)) d.

End UseBreaks.

(* ===================================================================== *)
(** * The task notes hook ([src/hooks/useTaskNotes.ts]) *)
(* ===================================================================== *)

Module UseTaskNotes.
Import YjsProvider.

(** [hasNotes(taskContent)], over the hook's state [notes]. *)
Definition hasNotes (notes : gmap string JsString) (taskContent : string)
  : bool :=
  match notes !! taskContent with
  | Some existing =>
      negb (isEmpty existing) && (0 <? length (trim existing))%nat
  | None => false
  end.

(** [saveNotes(taskContent, notesText)]. *)
Definition saveNotes (taskContent : string) (notesText : JsString) (d : Doc)
  : Doc :=
  setTaskNotes taskContent notesText d.

End UseTaskNotes.

(* ===================================================================== *)
(** * The completion relay ([src/sync/completionSync.ts]) *)
(* ===================================================================== *)

Module CompletionSync.

(** ** Records *)

Record TaskCompletion := mkTaskCompletion {
  taskId : string;
  completedAt : string;
  duration : Z;
  blockId : option string
}.

(** [QueuedCompletion extends TaskCompletion]. *)
Record QueuedCompletion := mkQueuedCompletion {
  q_taskId : string;
  q_completedAt : string;
  q_duration : Z;
  q_blockId : option string;
  retryCount : nat;
  queuedAt : Z
}.

Definition MAX_RETRIES : nat := 5.
Definition BASE_RETRY_DELAY_MS : Z := 1000.
Definition MAX_RETRY_DELAY_MS : Z := 30000.

(** ** The platform: shared directory, faults, timers *)

(** What [JSON.parse] makes of the text of [completions.json].  The text
    is kept in parsed form: what [JSON.stringify(completions, null, 2)]
    wrote parses back to [CompletionsArray completions]. *)
Inductive FileContent :=
| Unparseable
| NotAnArray
| CompletionsArray (cs : list TaskCompletion).

Record FileSystem := mkFileSystem {
  dirExists : bool;
  completionsFile : option FileContent
}.

(** Which platform calls reject during one suspension of [processQueue]. *)
Record Faults := mkFaults {
  homeDirFails : bool;
  existsFails : bool;
  readTextFileFails : bool;
  mkdirFails : bool;
  writeTextFileFails : bool
}.

Definition noFaults : Faults := mkFaults false false false false false.

(** A pending [window.setTimeout] callback. *)
Record Timer := mkTimer {
  timerId : nat;
  timerDelay : Q
}.

(** Where the single in-flight [processQueue] call is suspended. *)
Inductive Suspension :=
| NotRunning
| AwaitingRead
| AwaitingWrite (toWrite : list TaskCompletion).

(** The module-level variables ([pendingQueue], [isProcessingQueue],
    [retryTimeout]) together with the platform state they act on. *)
Record World := mkWorld {
  pendingQueue : list QueuedCompletion;
  isProcessingQueue : bool;
  retryTimeout : option nat;
  suspension : Suspension;
  fs : FileSystem;
  timers : list Timer;
  nextTimerId : nat
}.

Definition initialWorld (f : FileSystem) : World :=
  mkWorld [] false None NotRunning f [] 0.

(** [exists(filePath)] for the completions file. *)
Definition fileExists (f : FileSystem) : bool :=
  dirExists f && bool_decide (is_Some (completionsFile f)).

(** [clearTimeout(id)]. *)
Definition clearTimeout (id : nat) (ts : list Timer) : list Timer :=
  List.filter (λ t, negb (Nat.eqb (timerId t) id)) ts.

(** ** The functions of the module *)

(** [ensureSharedDirExists()]: the result and the file system after. *)
Definition ensureSharedDirExists (f : FileSystem) (flt : Faults)
  : bool * FileSystem :=
  if homeDirFails flt then (false, f)
  else if existsFails flt then (false, f)
  else if dirExists f then (true, f)
  else if mkdirFails flt then (false, f)
  else (true, mkFileSystem true (completionsFile f)).

(** [readExistingCompletions()]: every failure is caught and yields [[]]. *)
Definition readExistingCompletions (f : FileSystem) (flt : Faults)
  : list TaskCompletion :=
  if homeDirFails flt then []
  else if existsFails flt then []
  else if negb (fileExists f) then []
  else if readTextFileFails flt then []
  else match completionsFile f with
       | Some (CompletionsArray cs) => cs
       | Some NotAnArray => []
       | Some Unparseable => []
       | None => []
       end.

(** [writeCompletionsToFile(completions)]: [inl] is a normal return,
    [inr] a thrown error; both carry the file system left behind. *)
Definition writeCompletionsToFile (f : FileSystem) (flt : Faults)
    (completions : list TaskCompletion) : FileSystem + FileSystem :=
  let '(dirReady, f1) := ensureSharedDirExists f flt in
  if negb dirReady then inr f1
  else if homeDirFails flt then inr f1
  else if writeTextFileFails flt then inr f1
  else inl (mkFileSystem (dirExists f1) (Some (CompletionsArray completions))).

(** [Math.pow(2, retryCount)] for a count. *)
Definition pow2 (n : nat) : Z := 2 ^ Z.of_nat n.

(** [getRetryDelay(retryCount)]; [rnd] is the value of [Math.random()]. *)
Definition getRetryDelay (n : nat) (rnd : Q) : Q :=
  let delay := Qmin (inject_Z (BASE_RETRY_DELAY_MS * pow2 n))
                    (inject_Z MAX_RETRY_DELAY_MS) in
  (delay + rnd * 1000)%Q.

(** The template literal [`${c.taskId}-${c.completedAt}`]. *)
Definition dedupKey (tid cat : string) : string :=
  tid +:+ "-" +:+ cat.

(** [new Set(existing.map(c => `${c.taskId}-${c.completedAt}`))] *)
Definition existingKeysOf (existing : list TaskCompletion) : gset string :=
  list_to_set ((λ c, dedupKey (taskId c) (completedAt c)) <$> existing).

(** The object literal pushed onto [newCompletions]. *)
Definition toCompletion (q : QueuedCompletion) : TaskCompletion :=
  mkTaskCompletion (q_taskId q) (q_completedAt q) (q_duration q) (q_blockId q).

(** The [for (const queued of pendingQueue)] loop of the [try] block:
    the value of [newCompletions] when it ends. *)
Fixpoint stage (existingKeys : gset string) (queue : list QueuedCompletion)
  : list TaskCompletion :=
  match queue with
  | [] => []
  | queued :: rest =>
      let key := dedupKey (q_taskId queued) (q_completedAt queued) in
      if bool_decide (key ∈ existingKeys)
      then stage existingKeys rest
      else toCompletion queued :: stage existingKeys rest
  end.

(** [{ ...item, retryCount: item.retryCount + 1 }] *)
Definition bumpRetry (item : QueuedCompletion) : QueuedCompletion :=
  mkQueuedCompletion (q_taskId item) (q_completedAt item) (q_duration item)
                     (q_blockId item) (retryCount item + 1) (queuedAt item).

(** The [for (const item of pendingQueue)] loop of the [catch] block:
    the value of [updatedQueue] when it ends. *)
Fixpoint requeue (queue : list QueuedCompletion) : list QueuedCompletion :=
  match queue with
  | [] => []
  | item :: rest =>
      if (retryCount item <? MAX_RETRIES)%nat
      then bumpRetry item :: requeue rest
      else requeue rest
  end.

(** [Math.min(...xs)]; [None] is the [Infinity] of an empty argument list. *)
Definition mathMin (xs : list nat) : option nat :=
  match xs with
  | [] => None
  | x :: rest => Some (foldr Nat.min x rest)
  end.

(** The call [processQueue()] up to its first suspension: the guard, the
    flag, and the start of the read. *)
Definition processQueue_call (w : World) : World :=
  if isProcessingQueue w || (length (pendingQueue w) =? 0)%nat
  then w
  else mkWorld (pendingQueue w) true (retryTimeout w) AwaitingRead
               (fs w) (timers w) (nextTimerId w).

(** [processQueue] resumed when [readExistingCompletions()] settles:
    staging against the queue as it is now, then either the start of the
    write or, with nothing staged, the end of the [try] block and the
    [finally]. *)
Definition processQueue_afterRead (flt : Faults) (w : World) : World :=
  match suspension w with
  | AwaitingRead =>
      let existing := readExistingCompletions (fs w) flt in
      let existingKeys := existingKeysOf existing in
      let newCompletions := stage existingKeys (pendingQueue w) in
      if (0 <? length newCompletions)%nat
      then mkWorld (pendingQueue w) true (retryTimeout w)
                   (AwaitingWrite (existing ++ newCompletions))
                   (fs w) (timers w) (nextTimerId w)
      else mkWorld [] false (retryTimeout w) NotRunning
                   (fs w) (timers w) (nextTimerId w)
  | _ => w
  end.

(** The [if (pendingQueue.length > 0) { ... }] of the [catch] block, on the
    queue already replaced by [updatedQueue]: the new [retryTimeout], the
    pending timers and the next timer id. *)
Definition scheduleRetry (rnd : Q) (queue : list QueuedCompletion)
    (rt : option nat) (ts : list Timer) (next : nat)
  : option nat * list Timer * nat :=
  match mathMin (retryCount <$> queue) with
  | Some minRetryCount =>
      let delay := getRetryDelay minRetryCount rnd in
      let ts1 := match rt with
                 | Some id => clearTimeout id ts
                 | None => ts
                 end in
      (Some next, ts1 ++ [mkTimer next delay], S next)
  | None => (rt, ts, next)
  end.

(** [processQueue] resumed when [writeCompletionsToFile(...)] settles:
    the rest of the [try] block on success, the [catch] block on a
    rejection, and the [finally]. *)
Definition processQueue_afterWrite (flt : Faults) (rnd : Q) (w : World) : World :=
  match suspension w with
  | AwaitingWrite toWrite =>
      match writeCompletionsToFile (fs w) flt toWrite with
      | inl f' =>
          mkWorld [] false (retryTimeout w) NotRunning f'
                  (timers w) (nextTimerId w)
      | inr f' =>
          let updatedQueue := requeue (pendingQueue w) in
          let '(rt, ts, next) :=
            scheduleRetry rnd updatedQueue (retryTimeout w) (timers w)
                          (nextTimerId w) in
          mkWorld updatedQueue false rt NotRunning f' ts next
      end
  | _ => w
  end.

(** What the platform does during one uninterrupted run. *)
Record RunEnv := mkRunEnv {
  readFaults : Faults;
  writeFaults : Faults;
  random : Q
}.

(** One run of [processQueue()] from call to completion, nothing else
    being scheduled in between. *)
Definition processQueue (e : RunEnv) (w : World) : World :=
  processQueue_afterWrite (writeFaults e) (random e)
    (processQueue_afterRead (readFaults e) (processQueue_call w)).

(** [recordCompletion(taskId, duration, blockId)], up to the suspension of
    the [processQueue()] it starts.  [nowIso] is
    [new Date().toISOString()], [nowMs] is [Date.now()]. *)
Definition recordCompletion (tid : string) (dur : Z) (bid : option string)
    (nowIso : string) (nowMs : Z) (w : World) : World :=
  let completion := mkQueuedCompletion tid nowIso dur bid 0 nowMs in
  processQueue_call
    (mkWorld (pendingQueue w ++ [completion]) (isProcessingQueue w)
             (retryTimeout w) (suspension w) (fs w) (timers w) (nextTimerId w)).

(** [getPendingCount()]. *)
Definition getPendingCount (w : World) : nat := length (pendingQueue w).

(** The callback given to [window.setTimeout], run when timer [id] fires. *)
Definition retryTimerFires (id : nat) (w : World) : World :=
  if bool_decide (id ∈ timerId <$> timers w)
  then processQueue_call
         (mkWorld (pendingQueue w) (isProcessingQueue w) None (suspension w)
                  (fs w) (clearTimeout id (timers w)) (nextTimerId w))
  else w.

(** [retryPendingCompletions()]. *)
Definition retryPendingCompletions (w : World) : World :=
  processQueue_call
    match retryTimeout w with
    | Some id =>
        mkWorld (pendingQueue w) (isProcessingQueue w) None (suspension w)
                (fs w) (clearTimeout id (timers w)) (nextTimerId w)
    | None => w
    end.

(** [clearPendingQueue()]. *)
Definition clearPendingQueue (w : World) : World :=
  match retryTimeout w with
  | Some id =>
      mkWorld [] (isProcessingQueue w) None (suspension w)
              (fs w) (clearTimeout id (timers w)) (nextTimerId w)
  | None =>
      mkWorld [] (isProcessingQueue w) (retryTimeout w) (suspension w)
              (fs w) (timers w) (nextTimerId w)
  end.

(** ** The module as an event-driven machine *)

(** What can happen to the module: a call of one of its exported
    functions, the settling of the promise the in-flight run awaits, or the
    firing of a timer. *)
Inductive Event :=
| CallRecord (tid : string) (dur : Z) (bid : option string)
             (nowIso : string) (nowMs : Z)
| ReadSettles (flt : Faults)
| WriteSettles (flt : Faults) (rnd : Q)
| TimerFires (id : nat)
| CallRetryPending
| CallClearPending.

Definition step (ev : Event) (w : World) : World :=
  match ev with
  | CallRecord tid dur bid nowIso nowMs =>
      recordCompletion tid dur bid nowIso nowMs w
  | ReadSettles flt => processQueue_afterRead flt w
  | WriteSettles flt rnd => processQueue_afterWrite flt rnd w
  | TimerFires id => retryTimerFires id w
  | CallRetryPending => retryPendingCompletions w
  | CallClearPending => clearPendingQueue w
  end.

Definition runEvents (evs : list Event) (w : World) : World :=
  foldl (λ w ev, step ev w) w evs.

(** ** Vocabulary of the properties *)

(** The module is between runs. *)
Definition idle (w : World) : Prop :=
  isProcessingQueue w = false ∧ suspension w = NotRunning.

(** The run started from [w] under [e] ends in the [catch] block. *)
Definition runFails (e : RunEnv) (w : World) : bool :=
  match suspension (processQueue_afterRead (readFaults e) (processQueue_call w)) with
  | AwaitingWrite toWrite =>
      match writeCompletionsToFile (fs w) (writeFaults e) toWrite with
      | inl _ => false
      | inr _ => true
      end
  | _ => false
  end.

(** Consecutive uninterrupted runs, one per environment. *)
Definition processQueueRuns (es : list RunEnv) (w : World) : World :=
  foldl (λ w e, processQueue e w) w es.

(** Every one of the consecutive runs ends in the [catch] block. *)
Fixpoint allRunsFail (es : list RunEnv) (w : World) : bool :=
  match es with
  | [] => true
  | e :: rest => runFails e w && allRunsFail rest (processQueue e w)
  end.

(** Entries of the completions file carrying a given dedup key. *)
Definition entriesWithKey (key : string) (f : FileSystem) : list TaskCompletion :=
  match completionsFile f with
  | Some (CompletionsArray cs) =>
      List.filter (λ c, String.eqb (dedupKey (taskId c) (completedAt c)) key) cs
  | _ => []
  end.

(** At most one retry timer is pending, and [retryTimeout] is its id. *)
Definition timersConsistent (w : World) : Prop :=
  match retryTimeout w, timers w with
  | None, [] => True
  | Some id, [t] => timerId t = id ∧ id < nextTimerId w
  | _, _ => False
  end.

(** [isProcessingQueue] is set exactly while a run is suspended. *)
Definition flagMatches (w : World) : Prop :=
  isProcessingQueue w =
  match suspension w with
  | NotRunning => false
  | _ => true
  end.

(** What holds of the module whatever has happened to it. *)
Definition wellFormed (w : World) : Prop :=
  timersConsistent w ∧ flagMatches w ∧
  Forall (λ q, retryCount q ≤ MAX_RETRIES) (pendingQueue w).

(** The file content cannot be read, or does not parse to an array. *)
Definition unreadableOrNotArray (f : FileSystem) (flt : Faults) : Prop :=
  fileExists f = true ∧
  (homeDirFails flt = true ∨ existsFails flt = true ∨
   readTextFileFails flt = true ∨
   completionsFile f = Some Unparseable ∨
   completionsFile f = Some NotAnArray).

(** The entries of the completions file as [JSON.parse] gives them; none
    when the file is missing or does not hold an array. *)
Definition fileEntries (f : FileSystem) : list TaskCompletion :=
  match completionsFile f with
  | Some (CompletionsArray cs) => cs
  | _ => []
  end.

(** No platform call of the write path rejects. *)
Definition writePathClear (flt : Faults) : Prop :=
  homeDirFails flt = false ∧ existsFails flt = false ∧
  mkdirFails flt = false ∧ writeTextFileFails flt = false.

(** No platform call of the read path rejects. *)
Definition readPathClear (flt : Faults) : Prop :=
  homeDirFails flt = false ∧ existsFails flt = false ∧
  readTextFileFails flt = false.

End CompletionSync.

(* ===================================================================== *)
(** * JavaScript numbers *)
(* ===================================================================== *)

(** A number that the code divides and subtracts is what JavaScript has:
    an IEEE 754 binary64 value, [float], with round-to-nearest-even
    arithmetic, signed zeros, [Infinity] and [NaN].  The operations of
    [float] are specified on [spec_float], sign, mantissa and exponent. *)
Module JsNumber.

(** [Number.isNaN(x)]: [NaN] is the one number that differs from
    itself. *)
Definition isNaN (x : float) : bool := negb (x =? x)%float.

(** [0 < r] on the specification side. *)
Definition SFpositive (r : spec_float) : bool := SFltb (S754_zero false) r.


End JsNumber.

(* ===================================================================== *)
(** * The external task importer ([src/hooks/useSubeteTasks.ts]) *)
(* ===================================================================== *)

Module UseSubeteTasks.

(** ** Records *)

Record SubeteTask := mkSubeteTask {
  id : string;
  content : string;
  status : string;
  value : float;
  time : float;
  tags : option (list string)
}.

Inductive SyncStatus := synced | syncing | offline | error.

Definition POLL_INTERVAL_MS : Z := 2000.
Definition MAX_RETRIES : nat := 3.
Definition RETRY_DELAY_MS : Z := 500.

(** ** Strings *)

(** [String.prototype.includes]. *)
Fixpoint includes (needle hay : string) : bool :=
  String.prefix needle hay ||
  match hay with
  | EmptyString => false
  | String _ rest => includes needle rest
  end.

(** [String.prototype.toLowerCase] on the ASCII letters. *)
Definition lowerAscii (c : ascii) : ascii :=
  let n := nat_of_ascii c in
  if ((65 <=? n) && (n <=? 90))%nat then ascii_of_nat (n + 32) else c.

Fixpoint toLowerCase (s : string) : string :=
  match s with
  | EmptyString => EmptyString
  | String c rest => String (lowerAscii c) (toLowerCase rest)
  end.

(** ** The platform *)

(** What [JSON.parse(content) as SubeteTask[]] evaluates to. *)
Inductive ParsedTasks :=
| TasksArray (ts : list SubeteTask)
| NotArray.

(** What the platform does during one pass through the [try] block of
    [readSharedTasks]: [exists] resolves [false]; or one of [homeDir],
    [exists], [readTextFile], [JSON.parse] fails with an error of the
    given message; or the text is read and parsed. *)
Inductive AttemptOutcome :=
| FileMissing
| Rejected (message : string)
| Parsed (v : ParsedTasks).

(** The notifications of [showToast], by call site. *)
Inductive Toast :=
| TasksSynced (diff : Z)
| TaskListUpdated (newCount : nat)
| SyncRestored
| FileLocked
| InvalidFormat
| TemporarilyUnavailable.

(** The state of one mounted [useSubeteTasks] hook: its four [useState]
    cells, its four refs, the [localStorage] entry under [CACHE_KEY] and
    the toasts shown so far. *)
Record Hook := mkHook {
  tasks : list SubeteTask;
  loading : bool;
  errorMsg : option string;
  syncStatus : SyncStatus;
  previousTaskCountRef : option nat;
  hasInitialLoadRef : bool;
  lastErrorRef : option string;
  consecutiveErrorsRef : nat;
  cache : option (list SubeteTask);
  toasts : list Toast
}.

(** What the platform does during one poll. *)
Record PollEnv := mkPollEnv {
  attempts : nat → AttemptOutcome;
  setItemFails : bool
}.

(** ** The functions of the module *)

(** [loadCachedTasks()]. *)
Definition loadCachedTasks (stored : option (list SubeteTask)) : list SubeteTask :=
  match stored with
  | Some ts => ts
  | None => []
  end.

(** [saveCachedTasks(tasks)]: a failing [setItem] is caught. *)
Definition saveCachedTasks (fails : bool) (ts : list SubeteTask)
    (stored : option (list SubeteTask)) : option (list SubeteTask) :=
  if fails then stored else Some ts.

(** The state of a freshly mounted hook. *)
Definition mountHook (stored : option (list SubeteTask)) : Hook :=
  mkHook (loadCachedTasks stored) true None syncing None false None 0 stored [].

(** The [isRetryable] test of [readSharedTasks]. *)
Definition isRetryable (message : string) : bool :=
  let errorMessage := toLowerCase message in
  includes "lock" errorMessage || includes "busy" errorMessage ||
  includes "ebusy" errorMessage || includes "eagain" errorMessage.

(** The result of [readSharedTasks]: the resolved object, or the message
    of the error it rejects with. *)
Definition ReadResult : Type := (list SubeteTask * bool) + string.

(** The [for] loop of [readSharedTasks] from iteration [attempt] on, with
    [remaining = retries - attempt] iterations left; followed by the final
    [throw].  The second component lists the delays slept. *)
Fixpoint readSharedTasks_from (outcome : nat → AttemptOutcome)
    (remaining attempt : nat) (lastError : option string)
  : ReadResult * list Z :=
  match remaining with
  | O => (inr (default "Failed to read shared tasks" lastError), [])
  | S remaining' =>
      match outcome attempt with
      | FileMissing => (inl ([], false), [])
      | Parsed (TasksArray ts) => (inl (ts, false), [])
      | Parsed NotArray =>
          let message := "Invalid tasks format: expected array" in
          if isRetryable message && (0 <? remaining')%nat
          then
            let delay := (RETRY_DELAY_MS * 2 ^ Z.of_nat attempt)%Z in
            let '(r, slept) :=
              readSharedTasks_from outcome remaining' (S attempt) (Some message) in
            (r, delay :: slept)
          else (inr message, [])
      | Rejected message =>
          if isRetryable message && (0 <? remaining')%nat
          then
            let delay := (RETRY_DELAY_MS * 2 ^ Z.of_nat attempt)%Z in
            let '(r, slept) :=
              readSharedTasks_from outcome remaining' (S attempt) (Some message) in
            (r, delay :: slept)
          else (inr message, [])
      end
  end.

(** [readSharedTasks(retries = MAX_RETRIES)]. *)
Definition readSharedTasks (outcome : nat → AttemptOutcome) (retries : nat)
  : ReadResult * list Z :=
  readSharedTasks_from outcome retries 0 None.

(** The toast of the "sync events" block in [refresh]. *)
Definition countToast (hasInitialLoad : bool) (previousCount : option nat)
    (newCount : nat) : list Toast :=
  match previousCount with
  | Some prev =>
      if hasInitialLoad then
        let diff := (Z.of_nat newCount - Z.of_nat prev)%Z in
        if (0 <? diff)%Z then [TasksSynced diff]
        else if (diff <? 0)%Z then [TaskListUpdated newCount]
        else []
      else []
  | None => []
  end.

(** [refresh()]: one poll, from [setSyncStatus('syncing')] to the
    [finally] block. *)
Definition refresh (e : PollEnv) (h : Hook) : Hook :=
  match fst (readSharedTasks (attempts e) MAX_RETRIES) with
  | inl (sharedTasks, fromCache) =>
      let previousCount := previousTaskCountRef h in
      let newCount := length sharedTasks in
      let cache' :=
        if negb fromCache && (0 <? length sharedTasks)%nat
        then saveCachedTasks (setItemFails e) sharedTasks (cache h)
        else cache h in
      let toasts1 := countToast (hasInitialLoadRef h) previousCount newCount in
      let toasts2 :=
        match lastErrorRef h with
        | Some _ => [SyncRestored]
        | None => []
        end in
      mkHook sharedTasks false None
             (if fromCache then offline else synced)
             (Some newCount) true None 0 cache'
             (toasts h ++ toasts1 ++ toasts2)
  | inr errorMessage =>
      let consecutive := S (consecutiveErrorsRef h) in
      let shouldShowToast :=
        hasInitialLoadRef h &&
        negb (bool_decide (lastErrorRef h = Some errorMessage)) &&
        (consecutive <=? 3)%nat in
      if shouldShowToast then
        if includes "locked" errorMessage || includes "EBUSY" errorMessage ||
           includes "busy" errorMessage
        then mkHook (tasks h) false (Some errorMessage) error
                    (previousTaskCountRef h) (hasInitialLoadRef h)
                    (Some errorMessage) consecutive (cache h)
                    (toasts h ++ [FileLocked])
        else if includes "ENOENT" errorMessage || includes "not found" errorMessage
        then mkHook (tasks h) false (Some errorMessage) offline
                    (previousTaskCountRef h) (hasInitialLoadRef h)
                    (Some errorMessage) consecutive (cache h)
                    (toasts h)
        else if includes "parse" errorMessage || includes "JSON" errorMessage
        then mkHook (tasks h) false (Some errorMessage) error
                    (previousTaskCountRef h) (hasInitialLoadRef h)
                    (Some errorMessage) consecutive (cache h)
                    (toasts h ++ [InvalidFormat])
        else mkHook (tasks h) false (Some errorMessage) error
                    (previousTaskCountRef h) (hasInitialLoadRef h)
                    (Some errorMessage) consecutive (cache h)
                    (toasts h ++ [TemporarilyUnavailable])
      else mkHook (tasks h) false (Some errorMessage) error
                  (previousTaskCountRef h) (hasInitialLoadRef h)
                  (lastErrorRef h) consecutive (cache h) (toasts h)
  end.

(** The [isOffline] field of the hook's result. *)
Definition isOffline (h : Hook) : bool :=
  match syncStatus h with
  | offline | error => true
  | _ => false
  end.

(** [filterTasksByStatus(tasks, statuses)]. *)
Definition filterTasksByStatus (ts : list SubeteTask) (statuses : list string)
  : list SubeteTask :=
  List.filter (λ task, bool_decide (status task ∈ statuses)) ts.

(** ** Priority sort *)

(** [a.time > 0 ? a.value / a.time : (a.value > 0 ? Infinity : 0)], on
    JavaScript numbers: the quotient is the rounded one. *)
Definition ratio (a : SubeteTask) : float :=
  if (0 <? time a)%float then (value a / time a)%float
  else if (0 <? value a)%float then infinity
  else 0%float.

(** The comparator [(a, b) => ratioB - ratioA]. *)
Definition comparator (a b : SubeteTask) : float :=
  (ratio b - ratio a)%float.

(** [v > 0] on a comparator result; it is false of [NaN]. *)
Definition isPositive (v : float) : bool := (0 <? v)%float.

(** [Array.prototype.sort(comparefn)].  ECMAScript requires the sort to be
    stable and treats a [NaN] comparator result as [+0]; an element moves
    behind a later one only when the comparator says so by a positive
    result.  Insertion from the right computes that order.  (For a
    comparator that is not consistent, as one that meets a [NaN] ratio,
    ECMAScript leaves the order to the implementation.) *)
Fixpoint sortInsert {A} (comparefn : A → A → float) (x : A) (l : list A)
  : list A :=
  match l with
  | [] => [x]
  | y :: l' =>
      if isPositive (comparefn x y) then y :: sortInsert comparefn x l'
      else x :: l
  end.

Definition arraySort {A} (comparefn : A → A → float) (l : list A) : list A :=
  foldr (sortInsert comparefn) [] l.

(** [sortTasksByPriority(tasks)]. *)
Definition sortTasksByPriority (ts : list SubeteTask) : list SubeteTask :=
  arraySort comparator ts.

(** ** Vocabulary of the properties *)

(** [a] may stand before [b] in a list of descending priority:
    [ratio b <= ratio a]. *)
Definition priorityGe (a b : SubeteTask) : Prop :=
  (ratio b <=? ratio a)%float = true.

(** The ratio of the task is a number, not [NaN]. *)
Definition comparable (a : SubeteTask) : Prop :=
  JsNumber.isNaN (ratio a) = false.


(** The message of the error thrown for a file that does not hold an
    array. *)
Definition formatErrorMessage : string := "Invalid tasks format: expected array".

(** The delay slept before retry number [k + 1]. *)
Definition retryDelay (k : nat) : Z := (RETRY_DELAY_MS * 2 ^ Z.of_nat k)%Z.

End UseSubeteTasks.

(* ===================================================================== *)
(** * The remote reconciler ([src/sync/firebaseSync.ts]) *)
(* ===================================================================== *)

Module FirebaseSync.
Import Models.

(** ** Payloads and records *)

(** A Yjs update: the contents of a [Uint8Array]. *)
Definition Update : Type := list byte.

(** The origin of a Yjs transaction: [None] for a plain local
    [transact], [Some tag] when a tag was passed. *)
Definition Origin : Type := option string.

Definition firebaseOrigin : Origin := Some "firebase".

(** A string field of the remote record, as [atob] sees it: the base64
    text of some bytes, or text that [atob] rejects. *)
Inductive Encoded :=
| Base64Of (bytes : Update)
| NotBase64.

(** [encodeUpdate]. *)
Definition encodeUpdate (update : Update) : Encoded := Base64Of update.

(** [decodeUpdate]; [None] when [atob] throws. *)
Definition decodeUpdate (encoded : Encoded) : option Update :=
  match encoded with
  | Base64Of bytes => Some bytes
  | NotBase64 => None
  end.

(** The data of the remote document; a field the document lacks is
    [None]. *)
Record RemoteRecord := mkRemoteRecord {
  rec_update : option Encoded;
  rec_fullState : option Encoded;
  rec_origin : string;
  rec_timestamp : Z
}.

(** Truthiness of [data.update] and [data.fullState]: [undefined] and the
    empty string (the base64 text of no bytes) are falsy. *)
Definition truthy (field : option Encoded) : bool :=
  match field with
  | None => false
  | Some (Base64Of []) => false
  | Some _ => true
  end.

Definition COLLECTION_NAME : string := "sync".
Definition ANONYMOUS_DOC_ID : string := "sanjou-sync-anonymous".

(** [getSyncDocId()]; [user] is the [uid] of [getCurrentUser()]. *)
Definition getSyncDocId (user : option string) : string :=
  match user with
  | Some uid => uid
  | None => ANONYMOUS_DOC_ID
  end.

(** ** State and platform *)

(** The module-level variables and what they are attached to.
    [unsubscribe = Some ref] holds the detach function of the [onSnapshot]
    listener on document [ref].  [updateListeners] are the handlers
    registered with [ydoc.on('update', ...)], each named by the
    [syncDocRef] it closed over.  [applied] lists the updates the
    document has emitted, [setDocCalls] every [setDoc] issued. *)
Record Sync := mkSync {
  syncState : SyncState;
  unsubscribe : option string;
  updateListeners : list string;
  clientId : option string;
  storedClientId : option string;
  applied : list (Update * Origin);
  setDocCalls : list (string * RemoteRecord)
}.

Definition initialSync (stored : option string) : Sync :=
  mkSync offline None [] None stored [] [].

Inductive GetDocOutcome :=
| GetDocRejects
| GetDocSnapshot (data : option RemoteRecord).

(** What the platform supplies while one handler runs. *)
Record Platform := mkPlatform {
  generatedSuffix : string;
  nowMs : Z;
  fullStateNow : Update;
  setDocRejects : string → bool;
  applyThrows : bool;
  currentUser : option string;
  getDocOutcome : GetDocOutcome;
  configured : bool;
  dbAvailable : bool
}.

(** [setSyncState(state)]. *)
Definition setSyncState (s : SyncState) (st : Sync) : Sync :=
  mkSync s (unsubscribe st) (updateListeners st) (clientId st)
         (storedClientId st) (applied st) (setDocCalls st).

(** [!s] on a nullable string. *)
Definition falsy (s : option string) : bool :=
  match s with
  | None => true
  | Some v => String.eqb v ""
  end.

(** [`client-${Date.now()}-${Math.random().toString(36).substr(2, 9)}`];
    [generatedSuffix] is what follows the first dash. *)
Definition generatedId (p : Platform) : string :=
  "client-" +:+ generatedSuffix p.

(** [getClientId()]. *)
Definition getClientId (p : Platform) (st : Sync) : string * Sync :=
  if falsy (clientId st) then
    let fromStorage := storedClientId st in
    if falsy fromStorage then
      (generatedId p,
       mkSync (syncState st) (unsubscribe st) (updateListeners st)
              (Some (generatedId p)) (Some (generatedId p))
              (applied st) (setDocCalls st))
    else
      (default "" fromStorage,
       mkSync (syncState st) (unsubscribe st) (updateListeners st)
              fromStorage (storedClientId st) (applied st) (setDocCalls st))
  else (default "" (clientId st), st).

(** [setDoc(ref, record)] issued. *)
Definition issueSetDoc (ref : string) (record : RemoteRecord) (st : Sync) : Sync :=
  mkSync (syncState st) (unsubscribe st) (updateListeners st) (clientId st)
         (storedClientId st) (applied st) (setDocCalls st ++ [(ref, record)]).

(** ** The handlers installed by [setupSync] *)

(** The ['update'] handler closed over [ref], run to completion. *)
Definition pushHandler (p : Platform) (ref : string)
    (update : Update) (origin : Origin) (st : Sync) : Sync :=
  if bool_decide (origin = firebaseOrigin) then st
  else
    let st1 := setSyncState syncing st in
    let '(cid, st2) := getClientId p st1 in
    let record :=
      mkRemoteRecord (Some (encodeUpdate update))
                     (Some (encodeUpdate (fullStateNow p))) cid (nowMs p) in
    let st3 := issueSetDoc ref record st2 in
    if setDocRejects p ref then setSyncState offline st3
    else setSyncState synced st3.

(** The document commits a transaction: the update is recorded and every
    registered ['update'] handler is called with it, in registration
    order. *)
Definition emitUpdate (p : Platform) (update : Update) (origin : Origin)
    (st : Sync) : Sync :=
  foldl (λ s ref, pushHandler p ref update origin s)
        (mkSync (syncState st) (unsubscribe st) (updateListeners st)
                (clientId st) (storedClientId st)
                (applied st ++ [(update, origin)]) (setDocCalls st))
        (updateListeners st).

(** A local mutation of the document: a transaction without origin. *)
Definition localMutation (p : Platform) (update : Update) (st : Sync) : Sync :=
  emitUpdate p update None st.

(** [try { Y.applyUpdate(ydoc, decodeUpdate(field), 'firebase') } catch {}] *)
Definition applyRemote (p : Platform) (field : option Encoded) (st : Sync) : Sync :=
  match field ≫= decodeUpdate with
  | Some update =>
      if applyThrows p then st
      else emitUpdate p update firebaseOrigin st
  | None => st
  end.

(** The [next] callback of [onSnapshot]; [snapshot = None] when
    [snapshot.exists()] is false. *)
Definition onSnapshotNext (p : Platform) (snapshot : option RemoteRecord)
    (st : Sync) : Sync :=
  setSyncState synced
    match snapshot with
    | Some data =>
        if truthy (rec_update data) then
          let '(cid, st1) := getClientId p st in
          if negb (String.eqb (rec_origin data) cid)
          then applyRemote p (rec_update data) st1
          else st1
        else st
    | None => st
    end.

(** The [error] callback of [onSnapshot]. *)
Definition onSnapshotError (st : Sync) : Sync :=
  setSyncState offline st.

(** ** Set-up and tear-down *)

(** [setupSync(db)]: [inl] on a normal return, [inr] when it rejects. *)
Definition setupSync (p : Platform) (st : Sync) : Sync + Sync :=
  let ref := getSyncDocId (currentUser p) in
  let st1 :=
    mkSync (syncState st) (Some ref) (updateListeners st ++ [ref])
           (clientId st) (storedClientId st) (applied st) (setDocCalls st) in
  match getDocOutcome p with
  | GetDocRejects => inr st1
  | GetDocSnapshot None =>
      let fullState := fullStateNow p in
      let '(cid, st2) := getClientId p st1 in
      let record :=
        mkRemoteRecord (Some (encodeUpdate fullState))
                       (Some (encodeUpdate fullState)) cid (nowMs p) in
      let st3 := issueSetDoc ref record st2 in
      if setDocRejects p ref then inr st3 else inl st3
  | GetDocSnapshot (Some data) =>
      if truthy (rec_fullState data)
      then inl (applyRemote p (rec_fullState data) st1)
      else inl st1
  end.

(** [initFirebaseSync()]. *)
Definition initFirebaseSync (p : Platform) (st : Sync) : Sync :=
  if negb (configured p) then setSyncState offline st
  else if negb (dbAvailable p) then setSyncState error st
  else
    match setupSync p (setSyncState syncing st) with
    | inl st' => setSyncState synced st'
    | inr st' => setSyncState error st'
    end.

(** [destroyFirebaseSync()]. *)
Definition destroyFirebaseSync (st : Sync) : Sync :=
  setSyncState offline
    (mkSync (syncState st) None (updateListeners st) (clientId st)
            (storedClientId st) (applied st) (setDocCalls st)).

(** ** Vocabulary of the properties *)

(** The reconciler is attached to [ref]: the snapshot subscription is
    live and the push handler is registered. *)
Definition attached (ref : string) (st : Sync) : Prop :=
  unsubscribe st = Some ref ∧ ref ∈ updateListeners st.

(** A failing exchange after set-up: a push that [setDoc] rejects, or an
    error delivered to the snapshot listener. *)
Inductive Failure :=
| PushFails (update : Update)
| SnapshotFails.

Definition afterFailure (p : Platform) (f : Failure) (st : Sync) : Sync :=
  match f with
  | PushFails update => localMutation p update st
  | SnapshotFails => onSnapshotError st
  end.

(** The record a push of [update] writes under the id [cid]. *)
Definition pushRecord (p : Platform) (update : Update) (cid : string)
  : RemoteRecord :=
  mkRemoteRecord (Some (encodeUpdate update))
                 (Some (encodeUpdate (fullStateNow p))) cid (nowMs p).

(** The document has emitted one more update; nothing else happened. *)
Definition recorded (update : Update) (origin : Origin) (st : Sync) : Sync :=
  mkSync (syncState st) (unsubscribe st) (updateListeners st)
         (clientId st) (storedClientId st)
         (applied st ++ [(update, origin)]) (setDocCalls st).

(** The exchange [f] does fail under [p]: every [setDoc] of the push
    rejects; a snapshot error is a failure by itself. *)
Definition exchangeFails (p : Platform) (f : Failure) (st : Sync) : Prop :=
  match f with
  | PushFails _ => ∀ ref, ref ∈ updateListeners st → setDocRejects p ref = true
  | SnapshotFails => True
  end.

(** The callback [initAuthAwareSync] registers with
    [subscribeToAuthState], run to completion when the signed-in user
    changes: the platform [p] carries the new user. *)
Definition onAuthStateChanged (p : Platform) (st : Sync) : Sync :=
  initFirebaseSync p (destroyFirebaseSync st).

(** The state [setupSync] leaves, whether it returned or rejected. *)
Definition settled (r : Sync + Sync) : Sync :=
  match r with
  | inl st => st
  | inr st => st
  end.

(** What the pull handler adds to the document for a record of another
    replica: the decoded update, tagged as remote, unless the field is
    missing, empty or not base64, or applying it throws. *)
Definition pulled (p : Platform) (field : option Encoded)
  : list (Update * Origin) :=
  match field with
  | Some (Base64Of (b :: bytes)) =>
      if applyThrows p then [] else [(b :: bytes, firebaseOrigin)]
  | _ => []
  end.

End FirebaseSync.

(* ===================================================================== *)
(** * Concrete scenarios *)
(* ===================================================================== *)

(** The situations the specification walks through, as data. *)
Module Scenarios.

(** *** A task, and a block that references it with every flag set *)

Definition reportTask : Models.Task :=
  Models.mkTask "t-1" "Write report" [] false 1000 1000 0 None.

Definition allFlags : Models.BlockMeta :=
  Models.mkBlockMeta (Some true) (Some true) (Some true) (Some true) (Some true).

Definition reportBlock : Models.Block :=
  Models.mkBlock "b-1" "2026-01-01" 2000 None (Some "t-1") allFlags true None.

Definition otherBlock : Models.Block :=
  Models.mkBlock "b-2" "2026-01-01" 3000 None None allFlags true None.

Definition coffeeBreak : Models.Break :=
  Models.mkBreak "br-1" 4000 None 5 None.

Definition reportDoc : YjsProvider.Doc :=
  YjsProvider.addBreak coffeeBreak
    (YjsProvider.addBlock otherBlock
       (YjsProvider.addBlock reportBlock
          (YjsProvider.addTask reportTask YjsProvider.emptyDoc))).

(** *** A completion of task 42 that cannot be written *)

Definition isoNow : string := "2026-01-01T00:00:00.000Z".

Definition queued42 (retries : nat) : CompletionSync.QueuedCompletion :=
  CompletionSync.mkQueuedCompletion "42" isoNow 25 None retries 1767225600000.

Definition completion42 : CompletionSync.TaskCompletion :=
  CompletionSync.mkTaskCompletion "42" isoNow 25 None.

(** No shared directory yet, one item queued, no run in flight. *)
Definition oneQueued (retries : nat) : CompletionSync.World :=
  CompletionSync.mkWorld [queued42 retries] false None CompletionSync.NotRunning
    (CompletionSync.mkFileSystem false None) [] 0.

(** A run during which [writeTextFile] rejects; [Math.random()] is 1/2. *)
Definition writeRejected : CompletionSync.RunEnv :=
  CompletionSync.mkRunEnv CompletionSync.noFaults
    (CompletionSync.mkFaults false false false false true) (1 # 2).

(** A run during which nothing rejects. *)
Definition allFine : CompletionSync.RunEnv :=
  CompletionSync.mkRunEnv CompletionSync.noFaults CompletionSync.noFaults 0.

(** An older entry, in a file that no longer parses. *)
Definition corruptFile : CompletionSync.World :=
  CompletionSync.mkWorld [queued42 0] false None CompletionSync.NotRunning
    (CompletionSync.mkFileSystem true (Some CompletionSync.Unparseable)) [] 0.

(** *** A reconciler set up for the anonymous partition *)

Definition delta : FirebaseSync.Update := [x01; x02].

Definition online : FirebaseSync.Platform :=
  FirebaseSync.mkPlatform "1767225600000-abc" 1767225600000 [x07]
    (λ _, false) false None (FirebaseSync.GetDocSnapshot None) true true.

Definition unreachable : FirebaseSync.Platform :=
  FirebaseSync.mkPlatform "1767225600000-abc" 1767225600001 [x07]
    (λ _, true) false None (FirebaseSync.GetDocSnapshot None) true true.

Definition afterSetup : FirebaseSync.Sync :=
  FirebaseSync.initFirebaseSync online (FirebaseSync.initialSync None).

(** *** The same block once completed, and once invalidated *)

Definition completedBlock : Models.Block :=
  Models.mkBlock "b-1" "2026-01-01" 2000 (Some 5000%Z) (Some "t-1") allFlags
                 true None.

Definition completedDoc : YjsProvider.Doc :=
  YjsProvider.addBlock otherBlock
    (YjsProvider.addBlock completedBlock
       (YjsProvider.addTask reportTask YjsProvider.emptyDoc)).

Definition invalidatedBlock : Models.Block :=
  Models.mkBlock "b-1" "2026-01-01" 2000 None (Some "t-1") allFlags false None.

Definition invalidatedDoc : YjsProvider.Doc :=
  YjsProvider.addBlock otherBlock
    (YjsProvider.addBlock invalidatedBlock
       (YjsProvider.addTask reportTask YjsProvider.emptyDoc)).

(** What a component might then ask of the blocks hook. *)
Definition laterActions : list UseBlocks.BlockAction :=
  [UseBlocks.CompleteBlock [invalidatedBlock; otherBlock] 5000 "b-1" true;
   UseBlocks.UpdateBlockNotes "b-1" "went badly";
   UseBlocks.CreateBlock "b-3" "2026-01-02" 9000 None None;
   UseBlocks.CompleteBlock [] 9500 "b-1" false].

(** *** A task with two subtasks *)

Definition outline : Models.Subtask := Models.mkSubtask "s-a" "Outline" false.
Definition draft : Models.Subtask := Models.mkSubtask "s-b" "Draft" true.

Definition plannedTask : Models.Task :=
  Models.mkTask "t-2" "Write thesis" [outline; draft] false 1000 1000 0 None.

Definition plannedDoc : YjsProvider.Doc :=
  YjsProvider.addTask plannedTask reportDoc.

(** *** An older entry already in the completions file *)

Definition olderCompletion : CompletionSync.TaskCompletion :=
  CompletionSync.mkTaskCompletion "7" "2025-12-31T10:00:00.000Z" 50 (Some "b-0").

Definition withOlderEntry : CompletionSync.World :=
  CompletionSync.mkWorld [queued42 0] false None CompletionSync.NotRunning
    (CompletionSync.mkFileSystem true
       (Some (CompletionSync.CompletionsArray [olderCompletion]))) [] 0.

(** *** Polls of the external task file *)

Definition urgentTask : UseSubeteTasks.SubeteTask :=
  UseSubeteTasks.mkSubeteTask "1" "Write report" "today" 3 1 None.

Definition slowTask : UseSubeteTasks.SubeteTask :=
  UseSubeteTasks.mkSubeteTask "2" "File taxes" "today" 1 4 None.

Definition somedayTask : UseSubeteTasks.SubeteTask :=
  UseSubeteTasks.mkSubeteTask "3" "Learn the cello" "someday" 9 1 None.

(** A task without a time, and two tasks whose quotients, 0.7 / 2.1 and
    1 / 3, differ as fractions. *)
Definition timelessTask : UseSubeteTasks.SubeteTask :=
  UseSubeteTasks.mkSubeteTask "4" "Call home" "today" 2 0 None.

Definition tenthsTask : UseSubeteTasks.SubeteTask :=
  UseSubeteTasks.mkSubeteTask "5" "Water plants" "today"
    0x1.6666666666666p-1 0x1.0cccccccccccdp+1 None.

Definition thirdTask : UseSubeteTasks.SubeteTask :=
  UseSubeteTasks.mkSubeteTask "6" "Sweep floor" "today" 1 3 None.

(** A poll that reads two tasks. *)
Definition goodPoll : UseSubeteTasks.PollEnv :=
  UseSubeteTasks.mkPollEnv
    (λ _, UseSubeteTasks.Parsed (UseSubeteTasks.TasksArray [slowTask; urgentTask]))
    false.

(** A poll during which every read is refused. *)
Definition deniedPoll : UseSubeteTasks.PollEnv :=
  UseSubeteTasks.mkPollEnv
    (λ _, UseSubeteTasks.Rejected "permission denied") false.

(** A poll that finds an object where the array should be. *)
Definition objectPoll : UseSubeteTasks.PollEnv :=
  UseSubeteTasks.mkPollEnv (λ _, UseSubeteTasks.Parsed UseSubeteTasks.NotArray)
    false.

(** The hook after its first, successful poll. *)
Definition loadedHook : UseSubeteTasks.Hook :=
  UseSubeteTasks.refresh goodPoll (UseSubeteTasks.mountHook None).

(** *** A second user signs in *)

Definition signedIn : FirebaseSync.Platform :=
  FirebaseSync.mkPlatform "1767225600000-abc" 1767225700000 [x07]
    (λ _, false) false (Some "uid-ada") (FirebaseSync.GetDocSnapshot None)
    true true.

(** The callback of the auth subscription runs while the user is still
    the anonymous one; the partition holds the record that the first
    set-up wrote. *)
Definition bootstrapRecord : FirebaseSync.RemoteRecord :=
  FirebaseSync.mkRemoteRecord (Some (FirebaseSync.Base64Of [x07]))
    (Some (FirebaseSync.Base64Of [x07])) "client-1767225600000-abc"
    1767225600000.

Definition sameUser : FirebaseSync.Platform :=
  FirebaseSync.mkPlatform "1767225600000-abc" 1767225700000 [x07]
    (λ _, false) false None
    (FirebaseSync.GetDocSnapshot (Some bootstrapRecord)) true true.

(** The remote record cannot be read. *)
Definition unreadableRemote : FirebaseSync.Platform :=
  FirebaseSync.mkPlatform "1767225600000-abc" 1767225600000 [x07]
    (λ _, false) false None FirebaseSync.GetDocRejects true true.

(** A record written by another replica. *)
Definition foreignRecord : FirebaseSync.RemoteRecord :=
  FirebaseSync.mkRemoteRecord (Some (FirebaseSync.Base64Of [x03; x04]))
    (Some (FirebaseSync.Base64Of [x03; x04])) "client-other" 1767225650000.

(** The partition already holds that record. *)
Definition remotePresent : FirebaseSync.Platform :=
  FirebaseSync.mkPlatform "1767225600000-abc" 1767225600000 [x07]
    (λ _, false) false None
    (FirebaseSync.GetDocSnapshot (Some foreignRecord)) true true.

End Scenarios.

(* ===================================================================== *)
(** * Properties of the shared document *)
(* ===================================================================== *)

Module YjsProviderTheory.
Import Models YjsProvider UseBlocks.

Section Sequences.
Context {A : Type}.
Implicit Types (p : A → bool) (l : list A).

Lemma findIndex_Some p l i :
  findIndex p l = Some i →
  ∃ x, l !! i = Some x ∧ p x = true ∧
       ∀ j y, j < i → l !! j = Some y → p y = false.
Proof.
  revert i. induction l as [|a l IH]; intros i; simpl; [done|].
  destruct (p a) eqn:Hpa.
  - intros [= <-]. exists a. split_and!; [done..|]. intros j y Hj. lia.
  - destruct (findIndex p l) as [k|] eqn:Hk; simpl; [|done].
    intros [= <-]. destruct (IH k eq_refl) as (x & Hx & Hpx & Hbefore).
    exists x. split_and!; [done..|].
    intros [|j] y Hj; simpl.
    + by intros [= <-].
    + apply Hbefore. lia.
Qed.

Lemma findIndex_None p l :
  findIndex p l = None ↔ ∀ x, x ∈ l → p x = false.
Proof.
  induction l as [|a l IH]; simpl.
  - split; [|done]. intros _ x Hx. by apply elem_of_nil in Hx.
  - destruct (p a) eqn:Hpa.
    + split; [done|]. intros H. specialize (H a (list_elem_of_here _ _)).
      congruence.
    + destruct (findIndex p l) as [k|]; simpl.
      * split; [done|]. intros H.
        assert (Some k = None) as Hk; [|done].
        apply IH. intros x Hx. apply H. by apply list_elem_of_further.
      * split; [|done]. intros _ x [->|Hx]%elem_of_cons; [done|].
        by apply IH.
Qed.

Lemma findIndex_first p l i x :
  l !! i = Some x → p x = true →
  (∀ j y, j < i → l !! j = Some y → p y = false) →
  findIndex p l = Some i.
Proof.
  revert i. induction l as [|a l IH]; intros i; [done|].
  destruct i as [|i]; simpl.
  - intros [= ->] -> _. done.
  - intros Hx Hpx Hbefore.
    rewrite (Hbefore 0 a); [|lia|done].
    rewrite (IH i); [done..|].
    intros j y Hj Hy. apply (Hbefore (S j)); [lia|done].
Qed.

(** Deleting one element and inserting one at the same index is the
    in-place replacement, and Yjs does not throw. *)
Lemma delete_then_insert l i x :
  i < length l →
  yarray_delete i 1 l ≫= yarray_insert i [x] = Some (<[i:=x]> l).
Proof.
  intros Hi. unfold yarray_delete.
  rewrite decide_True by lia. simpl.
  unfold yarray_insert.
  rewrite decide_True
    by (rewrite length_app, length_take, length_drop; lia).
  f_equal.
  rewrite take_app_length' by (rewrite length_take; lia).
  rewrite drop_app_length' by (rewrite length_take; lia).
  rewrite insert_take_drop by done.
  by replace (i + 1) with (S i) by lia.
Qed.
End Sequences.

(** The test [b.id === id] selects exactly the blocks of that id. *)
Lemma absent_id_block (id : string) (blocks : list Block) :
  id ∉ b_id <$> blocks →
  findIndex (λ b, String.eqb (b_id b) id) blocks = None.
Proof.
  intros Hid. apply findIndex_None. intros x Hx.
  apply String.eqb_neq. intros <-. apply Hid.
  apply list_elem_of_fmap. by exists x.
Qed.

Lemma absent_id_break (id : string) (breaks : list Break) :
  id ∉ br_id <$> breaks →
  findIndex (λ b, String.eqb (br_id b) id) breaks = None.
Proof.
  intros Hid. apply findIndex_None. intros x Hx.
  apply String.eqb_neq. intros <-. apply Hid.
  apply list_elem_of_fmap. by exists x.
Qed.

(** What [updateBlock] does when a block of that id exists: one
    transaction, replacing the first such block in place. *)
Lemma updateBlock_found id updates d i old :
  findIndex (λ b, String.eqb (b_id b) id) (blocksArray d) = Some i →
  blocksArray d !! i = Some old →
  updateBlock id updates d =
    Some (mkDoc (<[i := spreadBlock old updates]> (blocksArray d))
                (tasksMap d) (rightNowListsMap d) (breaksArray d)
                (taskNotesMap d)
                (transactions d ++
                   [[ArrayDelete "blocks" i 1; ArrayInsert "blocks" i 1]])).
Proof.
  intros Hfind Hold. unfold updateBlock. rewrite Hfind. simpl. rewrite Hold.
  pose proof (lookup_lt_Some _ _ _ Hold) as Hlt.
  pose proof (delete_then_insert (blocksArray d) i (spreadBlock old updates) Hlt)
    as Hrepl.
  destruct (yarray_delete i 1 (blocksArray d)) as [arr1|]; simpl in *; [|done].
  by rewrite Hrepl.
Qed.

(** [updateBlock] never throws. *)
Lemma updateBlock_total id updates d : is_Some (updateBlock id updates d).
Proof.
  destruct (findIndex (λ b, String.eqb (b_id b) id) (blocksArray d))
    as [i|] eqn:Hfind.
  - destruct (findIndex_Some _ _ _ Hfind) as (old & Hold & _).
    rewrite (updateBlock_found _ _ _ _ _ Hfind Hold). by eexists.
  - unfold updateBlock. rewrite Hfind. by eexists.
Qed.

(** C7.  Completing a block that is in the document (the first one of its
    id, as when ids are unique) succeeds and replaces that block in place
    by one whose [completedAt] is the current time; its [isValid] flag and
    every field other than [completedAt] and [meta] are as before, every
    other position of the sequence holds the same block, and the tasks map
    (hence the [blocksSpent] of the referenced task), the other maps and
    the breaks are the same. *)
Theorem completeBlock_sets_completedAt_only
    (hookBlocks : list Block) (now : Z) (celebrated_ : bool)
    (d : Doc) (i : nat) (b : Block) :
  blocksArray d !! i = Some b →
  (∀ j b', j < i → blocksArray d !! j = Some b' → b_id b' ≠ b_id b) →
  ∃ d' b1,
    completeBlock hookBlocks now (b_id b) celebrated_ d = Some d' ∧
    blocksArray d' = <[i := b1]> (blocksArray d) ∧
    blocksArray d' !! i = Some b1 ∧
    b_completedAt b1 = Some now ∧
    b_isValid b1 = b_isValid b ∧
    (b_isValid b = true → b_isValid b1 = true) ∧
    b_id b1 = b_id b ∧ b_date b1 = b_date b ∧
    b_startedAt b1 = b_startedAt b ∧ b_taskId b1 = b_taskId b ∧
    b_notes b1 = b_notes b ∧
    length (blocksArray d') = length (blocksArray d) ∧
    (∀ j, j ≠ i → blocksArray d' !! j = blocksArray d !! j) ∧
    tasksMap d' = tasksMap d ∧
    (∀ tid, b_taskId b = Some tid →
            t_blocksSpent <$> (tasksMap d' !! tid) =
            t_blocksSpent <$> (tasksMap d !! tid)) ∧
    rightNowListsMap d' = rightNowListsMap d ∧
    breaksArray d' = breaksArray d ∧
    taskNotesMap d' = taskNotesMap d.
Proof.
  intros Hb Hfirst.
  assert (findIndex (λ x, String.eqb (b_id x) (b_id b)) (blocksArray d) = Some i)
    as Hfind.
  { apply (findIndex_first _ _ _ b); [done|apply String.eqb_refl|].
    intros j y Hj Hy. apply String.eqb_neq. by eapply Hfirst. }
  unfold completeBlock.
  rewrite (updateBlock_found _ _ _ _ _ Hfind Hb).
  eexists _, _. split; [reflexivity|]. simpl.
  pose proof (lookup_lt_Some _ _ _ Hb) as Hlt.
  split_and!; try done.
  - by apply list_lookup_insert_eq.
  - apply length_insert.
  - intros j Hj. by apply list_lookup_insert_ne.
Qed.

(** C9.  With an id that no element of the sequence carries, [updateBlock]
    (and [updateBreak], for the breaks) returns normally with the very same
    document: the sequence, the other collections and the transaction
    history are what they were. *)
Theorem update_absent_id_is_noop
    (blockId breakId : string)
    (blockUpdates : PartialBlock) (breakUpdates : PartialBreak) (d : Doc) :
  blockId ∉ b_id <$> blocksArray d →
  breakId ∉ br_id <$> breaksArray d →
  updateBlock blockId blockUpdates d = Some d ∧
  updateBreak breakId breakUpdates d = Some d.
Proof.
  intros Hblock Hbreak. split.
  - unfold updateBlock. by rewrite (absent_id_block _ _ Hblock).
  - unfold updateBreak. by rewrite (absent_id_break _ _ Hbreak).
Qed.

(** The scenario of the specification: the block that references "Write
    report" is completed; the task has still spent no block. *)
Lemma completeBlock_scenario :
  ∃ d' b1,
    completeBlock [Scenarios.reportBlock; Scenarios.otherBlock] 5000 "b-1" true
                  Scenarios.reportDoc = Some d' ∧
    blocksArray d' = [b1; Scenarios.otherBlock] ∧
    b_completedAt b1 = Some 5000%Z ∧
    b_isValid b1 = true ∧
    t_blocksSpent <$> (tasksMap d' !! "t-1") = Some 0%Z.
Proof.
  destruct (completeBlock_sets_completedAt_only
              [Scenarios.reportBlock; Scenarios.otherBlock] 5000 true
              Scenarios.reportDoc 0 Scenarios.reportBlock)
    as (d' & b1 & Hrun & Hblocks & _ & Hdone & Hvalid & _ & _ & _ & _ & _ & _
        & _ & _ & Htasks & _).
  - reflexivity.
  - intros j b' Hj. lia.
  - exists d', b1. rewrite Hblocks, Hdone, Hvalid, Htasks.
    split_and!; [exact Hrun|reflexivity..].
Defined.

(** Neither "b-9" nor "br-9" names anything in the scenario's document. *)
Lemma update_absent_id_scenario :
  updateBlock "b-9" (mkPartialBlock None None None None None None (Some false) None)
              Scenarios.reportDoc = Some Scenarios.reportDoc ∧
  updateBreak "br-9" (mkPartialBreak None None (Some (Some 9000%Z)) None None)
              Scenarios.reportDoc = Some Scenarios.reportDoc.
Proof.
  apply update_absent_id_is_noop.
  - apply (bool_decide_unpack _). vm_compute. exact I.
  - apply (bool_decide_unpack _). vm_compute. exact I.
Defined.

End YjsProviderTheory.

(* ===================================================================== *)
(** * Properties of the completion relay *)
(* ===================================================================== *)

Module CompletionSyncTheory.
Import CompletionSync.

(** ** The two loops as list operations *)

Lemma stage_filter (keys : gset string) (queue : list QueuedCompletion) :
  stage keys queue =
  toCompletion <$>
    filter (λ q, dedupKey (q_taskId q) (q_completedAt q) ∉ keys) queue.
Proof.
  induction queue as [|q queue IH]; [done|]. simpl.
  rewrite filter_cons. case_bool_decide as Hin.
  - rewrite decide_False by (intros Hn; by apply Hn). done.
  - rewrite decide_True by done. simpl. by rewrite IH.
Qed.

Lemma stage_fresh (keys : gset string) (queue : list QueuedCompletion) :
  (∀ q, q ∈ queue → dedupKey (q_taskId q) (q_completedAt q) ∉ keys) →
  stage keys queue = toCompletion <$> queue.
Proof.
  induction queue as [|q queue IH]; intros Hfresh; [done|].
  cbn [stage]. rewrite bool_decide_eq_false_2.
  - rewrite IH; [done|]. intros q' Hq'. apply Hfresh. by right.
  - apply Hfresh. by left.
Qed.

Lemma stage_no_existing (queue : list QueuedCompletion) :
  stage (existingKeysOf []) queue = toCompletion <$> queue.
Proof. apply stage_fresh. intros q _. unfold existingKeysOf. set_solver. Qed.

Lemma requeue_filter (queue : list QueuedCompletion) :
  requeue queue =
  bumpRetry <$> filter (λ q, retryCount q < MAX_RETRIES) queue.
Proof.
  induction queue as [|q queue IH]; [done|]. simpl.
  rewrite filter_cons.
  destruct (retryCount q <? MAX_RETRIES)%nat eqn:Hlt.
  - apply Nat.ltb_lt in Hlt. rewrite decide_True by done. simpl. by rewrite IH.
  - apply Nat.ltb_ge in Hlt. rewrite decide_False by lia. done.
Qed.

Lemma retryCount_iter_bump (n : nat) (q : QueuedCompletion) :
  retryCount (Nat.iter n bumpRetry q) = retryCount q + n.
Proof. induction n as [|n IH]; simpl; [lia|]. rewrite IH. lia. Qed.

Lemma filter_fmap_comm {A B} (f : A → B) (P : B → Prop)
    `{!∀ y, Decision (P y)} (l : list A) :
  filter P (f <$> l) = f <$> filter (λ x, P (f x)) l.
Proof.
  induction l as [|x l IH]; [done|].
  rewrite fmap_cons, !filter_cons, IH. by destruct (decide (P (f x))).
Qed.

Lemma filter_nothing {A} (l : list A) : filter (λ _, False) l = [].
Proof.
  induction l as [|x l IH]; [done|]. by rewrite filter_cons_False by tauto.
Qed.

(** The queue left by [n + 1] passes through the [catch] block. *)
Lemma requeue_iter (n : nat) (queue : list QueuedCompletion) :
  Nat.iter (S n) requeue queue =
  Nat.iter (S n) bumpRetry <$>
    filter (λ q, retryCount q + S n ≤ MAX_RETRIES) queue.
Proof.
  revert queue. induction n as [|n IH]; intros queue.
  - simpl. rewrite requeue_filter. f_equal.
    apply list_filter_iff. intros q. lia.
  - change (Nat.iter (S (S n)) requeue queue)
      with (requeue (Nat.iter (S n) requeue queue)).
    rewrite IH, requeue_filter, filter_fmap_comm, <- list_fmap_compose.
    rewrite list_filter_filter. f_equal.
    apply list_filter_iff. intros q.
    rewrite retryCount_iter_bump. lia.
Qed.

(** ** One uninterrupted run *)

Lemma processQueue_call_idle (w : World) :
  idle w → pendingQueue w ≠ [] →
  processQueue_call w =
  mkWorld (pendingQueue w) true (retryTimeout w) AwaitingRead
          (fs w) (timers w) (nextTimerId w).
Proof.
  intros [Hflag _] Hne. unfold processQueue_call. rewrite Hflag.
  destruct (pendingQueue w); [done|]. done.
Qed.

Lemma processQueue_call_noop (w : World) :
  pendingQueue w = [] → processQueue_call w = w.
Proof.
  intros Hq. unfold processQueue_call. rewrite Hq. simpl.
  by rewrite orb_true_r.
Qed.

(** With nothing queued and no run in flight, a run does nothing. *)
Lemma processQueue_nothing_queued (e : RunEnv) (w : World) :
  idle w → pendingQueue w = [] → processQueue e w = w.
Proof.
  intros [_ Hs] Hq. unfold processQueue.
  rewrite processQueue_call_noop by done.
  unfold processQueue_afterRead. rewrite Hs.
  unfold processQueue_afterWrite. by rewrite Hs.
Qed.

(** A rejected write leaves the completions file as it was; only the
    directory may have been created. *)
Lemma write_failure_keeps_file f flt cs f' :
  writeCompletionsToFile f flt cs = inr f' →
  completionsFile f' = completionsFile f.
Proof.
  unfold writeCompletionsToFile, ensureSharedDirExists.
  destruct (homeDirFails flt), (existsFails flt), (dirExists f),
    (mkdirFails flt), (writeTextFileFails flt); simpl; intros [= <-]; done.
Qed.

(** A write that returns has replaced the content by what was passed. *)
Lemma write_success_content f flt cs f' :
  writeCompletionsToFile f flt cs = inl f' →
  f' = mkFileSystem true (Some (CompletionsArray cs)).
Proof.
  unfold writeCompletionsToFile, ensureSharedDirExists.
  destruct (homeDirFails flt), (existsFails flt), (dirExists f) eqn:Hd,
    (mkdirFails flt), (writeTextFileFails flt); simpl; intros [= <-];
    by rewrite ?Hd.
Qed.

(** The shape of a run that ends in the [catch] block. *)
Lemma failed_run (e : RunEnv) (w : World) :
  idle w → runFails e w = true →
  ∃ f' rt ts next,
    completionsFile f' = completionsFile (fs w) ∧
    scheduleRetry (random e) (requeue (pendingQueue w))
                  (retryTimeout w) (timers w) (nextTimerId w) = (rt, ts, next) ∧
    processQueue e w =
    mkWorld (requeue (pendingQueue w)) false rt NotRunning f' ts next.
Proof.
  intros Hidle Hfail. unfold runFails in Hfail. unfold processQueue.
  destruct (decide (pendingQueue w = [])) as [Hq|Hq].
  { rewrite processQueue_call_noop in Hfail by done.
    destruct Hidle as [_ Hs]. unfold processQueue_afterRead in Hfail.
    rewrite Hs in Hfail. cbn match in Hfail. by rewrite Hs in Hfail. }
  rewrite processQueue_call_idle in * by done.
  unfold processQueue_afterRead in *. cbn [suspension pendingQueue fs] in *.
  destruct (0 <? length _)%nat; cbn [suspension] in Hfail; [|done].
  unfold processQueue_afterWrite.
  cbn [suspension pendingQueue fs retryTimeout timers nextTimerId].
  destruct (writeCompletionsToFile _ _ _) as [f'|f'] eqn:Hw; [done|].
  destruct (scheduleRetry _ _ _ _ _) as [[rt ts] next] eqn:Hs.
  exists f', rt, ts, next. split_and!; [|done..].
  by eapply write_failure_keeps_file.
Qed.

Lemma failed_run_idle (e : RunEnv) (w : World) :
  idle w → runFails e w = true → idle (processQueue e w).
Proof.
  intros Hidle Hfail.
  destruct (failed_run e w Hidle Hfail) as (f' & rt & ts & next & _ & _ & ->).
  done.
Qed.

(** Consecutive runs that all end in the [catch] block. *)
Lemma failed_runs (es : list RunEnv) (w : World) :
  idle w → allRunsFail es w = true →
  idle (processQueueRuns es w) ∧
  pendingQueue (processQueueRuns es w) =
    Nat.iter (length es) requeue (pendingQueue w) ∧
  completionsFile (fs (processQueueRuns es w)) = completionsFile (fs w).
Proof.
  revert w. induction es as [|e es IH]; intros w Hidle Hall; [done|].
  simpl in Hall. apply andb_true_iff in Hall as [Hfail Hrest].
  pose proof (failed_run_idle e w Hidle Hfail) as Hidle'.
  destruct (IH _ Hidle' Hrest) as (Hi & Hq & Hf).
  destruct (failed_run e w Hidle Hfail)
    as (f' & rt & ts & next & Hfile & _ & Hrun).
  cbn [processQueueRuns foldl]. fold (processQueueRuns es (processQueue e w)).
  split_and!; [done| |].
  - rewrite Hq, Hrun. cbn [pendingQueue length].
    by rewrite Nat.iter_succ_r.
  - rewrite Hf, Hrun. done.
Qed.

(** The shape of a run that stages something and whose write returns. *)
Lemma successful_run (e : RunEnv) (w : World) f' :
  idle w →
  let existing := readExistingCompletions (fs w) (readFaults e) in
  let staged := stage (existingKeysOf existing) (pendingQueue w) in
  staged ≠ [] →
  writeCompletionsToFile (fs w) (writeFaults e) (existing ++ staged) = inl f' →
  processQueue e w =
  mkWorld [] false (retryTimeout w) NotRunning f' (timers w) (nextTimerId w).
Proof.
  intros Hidle existing staged Hstaged Hwrite.
  assert (pendingQueue w ≠ []) as Hq.
  { intros Hq. apply Hstaged. unfold staged. by rewrite Hq. }
  unfold processQueue. rewrite processQueue_call_idle by done.
  unfold processQueue_afterRead. cbn [suspension pendingQueue fs].
  fold existing. fold staged.
  destruct staged as [|c staged'] eqn:Hst; [done|].
  cbn [length Nat.ltb Nat.leb]. unfold processQueue_afterWrite.
  cbn [suspension fs retryTimeout timers nextTimerId]. by rewrite Hwrite.
Qed.

(** A run in which every queued key is already in the file writes nothing
    and empties the queue. *)
Lemma nothing_staged_run (e : RunEnv) (w : World) :
  idle w →
  stage (existingKeysOf (readExistingCompletions (fs w) (readFaults e)))
        (pendingQueue w) = [] →
  fs (processQueue e w) = fs w ∧ pendingQueue (processQueue e w) = [].
Proof.
  intros Hidle Hstaged. unfold processQueue.
  destruct (decide (pendingQueue w = [])) as [Hq|Hq].
  - rewrite processQueue_call_noop by done.
    destruct Hidle as [_ Hs]. unfold processQueue_afterRead. rewrite Hs.
    unfold processQueue_afterWrite. by rewrite Hs.
  - rewrite processQueue_call_idle by done.
    unfold processQueue_afterRead. cbn [suspension pendingQueue fs].
    rewrite Hstaged. done.
Qed.

(** ** Completion dedup *)

(** An item whose key the file already holds is not staged. *)
Lemma stage_skips_existing (existing : list TaskCompletion)
    (q : QueuedCompletion) :
  toCompletion q ∈ existing →
  stage (existingKeysOf existing) [q] = [].
Proof.
  intros Hin. cbn [stage]. rewrite bool_decide_eq_true_2; [done|].
  unfold existingKeysOf. apply elem_of_list_to_set, list_elem_of_fmap.
  by exists (toCompletion q).
Qed.

(** Two records of one event handled by different runs: the second run
    finds the key in the file and leaves the file alone. *)
Lemma second_run_adds_nothing (e : RunEnv) (w : World)
    (q : QueuedCompletion) (cs : list TaskCompletion) :
  idle w →
  readExistingCompletions (fs w) (readFaults e) = cs →
  toCompletion q ∈ cs →
  pendingQueue w = [q] →
  fs (processQueue e w) = fs w ∧ pendingQueue (processQueue e w) = [].
Proof.
  intros Hidle Hread Hin Hq. apply nothing_staged_run; [done|].
  rewrite Hread, Hq. by apply stage_skips_existing.
Qed.

(** C1.  Two [recordCompletion] calls with the same task id in the same
    millisecond, the second arriving while the run started by the first is
    still reading: both items are in the queue when the run stages, neither
    key is in the file, and the write that succeeds puts two entries with
    that dedup key into the completions file. *)
Theorem duplicate_records_in_one_run_written_twice :
  let iso := "2026-01-01T00:00:00.000Z" in
  let w0 := initialWorld (mkFileSystem false None) in
  let w1 := recordCompletion "42" 25 None iso 1767225600000 w0 in
  let w2 := recordCompletion "42" 25 None iso 1767225600000 w1 in
  let w3 := processQueue_afterWrite noFaults 0
              (processQueue_afterRead noFaults w2) in
  suspension w1 = AwaitingRead ∧
  length (pendingQueue w2) = 2 ∧
  idle w3 ∧ pendingQueue w3 = [] ∧
  completionsFile (fs w3) =
    Some (CompletionsArray [mkTaskCompletion "42" iso 25 None;
                            mkTaskCompletion "42" iso 25 None]) ∧
  length (entriesWithKey (dedupKey "42" iso) (fs w3)) = 2.
Proof. vm_compute. split_and!; reflexivity. Qed.

(** ** Retry ceiling *)

(** C2, as the code has it.  Consecutive runs that all end in the [catch]
    block each keep the items whose [retryCount] is below 5, incremented by
    one, and drop the others; none of them changes the completions file.
    So an item queued with [retryCount] 0 is still pending, with
    [retryCount] [n], after [n ≤ 5] consecutive failures; after the sixth
    the queue is empty, and a further run does nothing at all. *)
Theorem retry_ceiling_is_six_attempts (es : list RunEnv) (w : World) :
  idle w → allRunsFail es w = true →
  let after := processQueueRuns es w in
  let n := length es in
  pendingQueue after = Nat.iter n requeue (pendingQueue w) ∧
  (∀ queue, requeue queue =
            bumpRetry <$> filter (λ q, retryCount q < MAX_RETRIES) queue) ∧
  completionsFile (fs after) = completionsFile (fs w) ∧
  (∀ q, q ∈ pendingQueue w → retryCount q = 0 → n ≤ 5 →
        Nat.iter n bumpRetry q ∈ pendingQueue after ∧
        retryCount (Nat.iter n bumpRetry q) = n) ∧
  (6 ≤ n → pendingQueue after = [] ∧ ∀ e, processQueue e after = after).
Proof.
  intros Hidle Hall after n.
  destruct (failed_runs es w Hidle Hall) as (Hidle' & Hq & Hf).
  fold after in Hidle'.
  fold after in Hq, Hf. fold n in Hq.
  split_and!; [done|apply requeue_filter|done| |].
  - intros q Hin Hrc Hn. split; [|rewrite retryCount_iter_bump; lia].
    rewrite Hq. destruct n as [|k]; [done|].
    rewrite requeue_iter. apply list_elem_of_fmap.
    exists q. split; [done|]. apply list_elem_of_filter.
    split; [|done]. unfold MAX_RETRIES. lia.
  - intros Hn.
    assert (pendingQueue after = []) as Hempty.
    { rewrite Hq. destruct n as [|k]; [lia|].
      rewrite requeue_iter.
      rewrite (list_filter_iff _ (λ _, False)).
      + by rewrite filter_nothing.
      + intros q. unfold MAX_RETRIES. lia. }
    split; [done|]. intros e. by apply processQueue_nothing_queued.
Qed.

(** ** Backoff *)

Lemma foldr_min_spec (x : nat) (rest : list nat) :
  foldr Nat.min x rest ∈ x :: rest ∧
  ∀ y, y ∈ x :: rest → foldr Nat.min x rest ≤ y.
Proof.
  induction rest as [|z rest [IHin IHle]]; simpl.
  - split; [by left|]. intros y ->%list_elem_of_singleton. done.
  - split.
    + destruct (Nat.min_spec z (foldr Nat.min x rest)) as [[_ ->]|[_ ->]].
      * right. by left.
      * apply elem_of_cons in IHin as [->|Hin]; [by left|]. by do 2 right.
    + intros y Hy.
      assert (y = z ∨ y ∈ x :: rest) as [->|Hy'].
      { apply elem_of_cons in Hy as [->|Hy]; [right; by left|].
        apply elem_of_cons in Hy as [->|Hy]; [by left|]. right. by right. }
      * lia.
      * specialize (IHle y Hy'). lia.
Qed.

(** [Math.min(...xs)] of a non-empty list is its least element. *)
Lemma mathMin_spec (xs : list nat) (n : nat) :
  mathMin xs = Some n → n ∈ xs ∧ ∀ y, y ∈ xs → n ≤ y.
Proof.
  destruct xs as [|x rest]; [done|]. intros [= <-]. apply foldr_min_spec.
Qed.

Lemma mathMin_nonempty (xs : list nat) : xs ≠ [] → is_Some (mathMin xs).
Proof. destruct xs; [done|]. by eexists. Qed.

(** Every item that went through the [catch] block has been retried at
    least once and at most [MAX_RETRIES] times. *)
Lemma requeue_retryCount (queue : list QueuedCompletion) (q : QueuedCompletion) :
  q ∈ requeue queue → 1 ≤ retryCount q ≤ MAX_RETRIES.
Proof.
  rewrite requeue_filter. intros (q0 & -> & Hq0)%list_elem_of_fmap.
  apply list_elem_of_filter in Hq0 as [Hlt _]. simpl. lia.
Qed.

Lemma pow2_small (n : nat) : n ≤ 4 → (BASE_RETRY_DELAY_MS * pow2 n ≤ 16000)%Z.
Proof.
  intros Hn. unfold BASE_RETRY_DELAY_MS, pow2.
  assert (2 ^ Z.of_nat n ≤ 2 ^ 4)%Z by (apply Z.pow_le_mono_r; lia). lia.
Qed.

Lemma pow2_large (n : nat) : 5 ≤ n → (32000 ≤ BASE_RETRY_DELAY_MS * pow2 n)%Z.
Proof.
  intros Hn. unfold BASE_RETRY_DELAY_MS, pow2.
  assert (2 ^ 5 ≤ 2 ^ Z.of_nat n)%Z by (apply Z.pow_le_mono_r; lia). lia.
Qed.

(** [getRetryDelay]: the exponential term, capped, plus the jitter. *)
Lemma getRetryDelay_bounds (n : nat) (rnd : Q) :
  (0 <= rnd)%Q → (rnd < 1)%Q →
  let delay := getRetryDelay n rnd in
  let base := inject_Z (BASE_RETRY_DELAY_MS * pow2 n) in
  let cap := inject_Z MAX_RETRY_DELAY_MS in
  (Qmin base cap <= delay)%Q ∧ (delay < Qmin base cap + 1000)%Q ∧
  (n ≤ 4 → (base <= delay)%Q ∧ (delay < base + 1000)%Q) ∧
  (5 ≤ n → (cap <= delay)%Q ∧ (delay < cap + 1000)%Q).
Proof.
  intros H0 H1 delay base cap. unfold delay, getRetryDelay. fold base cap.
  split_and!.
  - lra.
  - lra.
  - intros Hn.
    assert (Qmin base cap == base)%Q as ->; [|lra].
    apply Q.min_l. unfold base, cap. rewrite <- Zle_Qle.
    pose proof (pow2_small n Hn). unfold MAX_RETRY_DELAY_MS. lia.
  - intros Hn.
    assert (Qmin base cap == cap)%Q as ->; [|lra].
    apply Q.min_r. unfold base, cap. rewrite <- Zle_Qle.
    pose proof (pow2_large n Hn). unfold MAX_RETRY_DELAY_MS. lia.
Qed.

Lemma clearTimeout_own (t : Timer) : clearTimeout (timerId t) [t] = [].
Proof. unfold clearTimeout. simpl. by rewrite Nat.eqb_refl. Qed.

(** Scheduling with a non-empty queue cancels the pending timer, if any,
    and leaves exactly the new one. *)
Lemma scheduleRetry_nonempty rnd queue (w : World) n :
  timersConsistent w →
  mathMin (retryCount <$> queue) = Some n →
  scheduleRetry rnd queue (retryTimeout w) (timers w) (nextTimerId w) =
  (Some (nextTimerId w),
   [mkTimer (nextTimerId w) (getRetryDelay n rnd)],
   S (nextTimerId w)).
Proof.
  unfold timersConsistent, scheduleRetry. intros Hc ->.
  destruct (retryTimeout w) as [id|], (timers w) as [|t [|t' ts]]; try done.
  destruct Hc as [<- _]. by rewrite clearTimeout_own.
Qed.

Lemma scheduleRetry_empty rnd rt ts next :
  scheduleRetry rnd [] rt ts next = (rt, ts, next).
Proof. done. Qed.

(** ** The timer invariant *)

Lemma timersConsistent_initial f : timersConsistent (initialWorld f).
Proof. done. Qed.

Lemma timersConsistent_call w :
  timersConsistent w → timersConsistent (processQueue_call w).
Proof. unfold processQueue_call. by destruct (_ || _). Qed.

Lemma timersConsistent_afterRead flt w :
  timersConsistent w → timersConsistent (processQueue_afterRead flt w).
Proof.
  unfold processQueue_afterRead.
  destruct (suspension w); [done| |done]. by destruct (0 <? _)%nat.
Qed.

Lemma timersConsistent_afterWrite flt rnd w :
  timersConsistent w → timersConsistent (processQueue_afterWrite flt rnd w).
Proof.
  intros Hc. unfold processQueue_afterWrite.
  destruct (suspension w) as [| |toWrite]; [done..|].
  destruct (writeCompletionsToFile _ _ _) as [f'|f']; [done|].
  destruct (mathMin (retryCount <$> requeue (pendingQueue w))) as [n|] eqn:Hmin.
  - rewrite (scheduleRetry_nonempty _ _ w n) by done.
    unfold timersConsistent. simpl. lia.
  - destruct (requeue (pendingQueue w)) as [|q l] eqn:Hq; [|done].
    by rewrite scheduleRetry_empty.
Qed.

Lemma timersConsistent_processQueue e w :
  timersConsistent w → timersConsistent (processQueue e w).
Proof.
  intros Hc. unfold processQueue.
  by apply timersConsistent_afterWrite, timersConsistent_afterRead,
    timersConsistent_call.
Qed.

Lemma timersConsistent_record tid dur bid nowIso nowMs w :
  timersConsistent w →
  timersConsistent (recordCompletion tid dur bid nowIso nowMs w).
Proof. intros Hc. unfold recordCompletion. by apply timersConsistent_call. Qed.

Lemma timersConsistent_cleared w id :
  timersConsistent w → retryTimeout w = Some id →
  clearTimeout id (timers w) = [].
Proof.
  intros Hc Hrt. unfold timersConsistent in Hc. rewrite Hrt in Hc.
  destruct (timers w) as [|t [|t' ts]]; try done.
  destruct Hc as [<- _]. apply clearTimeout_own.
Qed.

Lemma timersConsistent_fires id w :
  timersConsistent w → timersConsistent (retryTimerFires id w).
Proof.
  intros Hc. unfold retryTimerFires. case_bool_decide as Hid; [|done].
  apply timersConsistent_call. unfold timersConsistent in *. simpl.
  destruct (retryTimeout w) as [id'|], (timers w) as [|t [|t' ts]]; try done.
  destruct Hc as [<- _].
  apply list_elem_of_singleton in Hid as ->. by rewrite clearTimeout_own.
Qed.

Lemma timersConsistent_retryPending w :
  timersConsistent w → timersConsistent (retryPendingCompletions w).
Proof.
  intros Hc. unfold retryPendingCompletions. apply timersConsistent_call.
  destruct (retryTimeout w) as [id|] eqn:Hrt; [|done].
  unfold timersConsistent. simpl.
  by rewrite (timersConsistent_cleared w id).
Qed.

Lemma timersConsistent_clearPending w :
  timersConsistent w → timersConsistent (clearPendingQueue w).
Proof.
  intros Hc. unfold clearPendingQueue.
  destruct (retryTimeout w) as [id|] eqn:Hrt.
  - unfold timersConsistent. simpl.
    by rewrite (timersConsistent_cleared w id).
  - unfold timersConsistent in *. simpl. by rewrite Hrt in Hc.
Qed.

(** ** What every reachable state satisfies *)

Lemma requeue_bounded (queue : list QueuedCompletion) :
  Forall (λ q, retryCount q ≤ MAX_RETRIES) (requeue queue).
Proof.
  apply Forall_forall. intros q Hq. apply requeue_retryCount in Hq. lia.
Qed.

Lemma flagMatches_call (w : World) :
  flagMatches w → flagMatches (processQueue_call w).
Proof.
  unfold processQueue_call. intros Hf.
  by destruct (isProcessingQueue w || _).
Qed.

Lemma pendingQueue_call (w : World) :
  pendingQueue (processQueue_call w) = pendingQueue w.
Proof. unfold processQueue_call. by destruct (isProcessingQueue w || _). Qed.

Lemma wellFormed_call (w : World) :
  wellFormed w → wellFormed (processQueue_call w).
Proof.
  intros (Ht & Hf & Hq). unfold wellFormed. rewrite pendingQueue_call.
  split; [by apply timersConsistent_call|].
  split; [by apply flagMatches_call|done].
Qed.

Lemma wellFormed_afterRead (flt : Faults) (w : World) :
  wellFormed w → wellFormed (processQueue_afterRead flt w).
Proof.
  intros (Ht & Hf & Hq).
  split; [by apply timersConsistent_afterRead|].
  unfold processQueue_afterRead.
  destruct (suspension w) eqn:Hs; [done| |done].
  destruct (0 <? _)%nat; split; try done; constructor.
Qed.

Lemma wellFormed_afterWrite (flt : Faults) (rnd : Q) (w : World) :
  wellFormed w → wellFormed (processQueue_afterWrite flt rnd w).
Proof.
  intros (Ht & Hf & Hq).
  split; [by apply timersConsistent_afterWrite|].
  unfold processQueue_afterWrite.
  destruct (suspension w) eqn:Hs; [done|done|].
  destruct (writeCompletionsToFile _ _ _).
  - split; try done; constructor.
  - destruct (scheduleRetry _ _ _ _ _) as [[? ?] ?].
    split; [done|]. apply requeue_bounded.
Qed.

Lemma wellFormed_step (ev : Event) (w : World) :
  wellFormed w → wellFormed (step ev w).
Proof.
  intros Hw. pose proof Hw as (Ht & Hf & Hq). destruct ev; simpl.
  - unfold recordCompletion. apply wellFormed_call.
    split; [exact Ht|]. split; [exact Hf|]. simpl.
    apply Forall_app. split; [exact Hq|].
    apply Forall_singleton. simpl. unfold MAX_RETRIES. lia.
  - by apply wellFormed_afterRead.
  - by apply wellFormed_afterWrite.
  - split; [by apply timersConsistent_fires|].
    unfold retryTimerFires. case_bool_decide; [|by split].
    rewrite pendingQueue_call. split; [by apply flagMatches_call|exact Hq].
  - split; [by apply timersConsistent_retryPending|].
    unfold retryPendingCompletions. rewrite pendingQueue_call.
    split; [apply flagMatches_call|]; by destruct (retryTimeout w).
  - split; [by apply timersConsistent_clearPending|].
    unfold clearPendingQueue.
    destruct (retryTimeout w); (split; [exact Hf|apply Forall_nil_2]).
Qed.

(** X11.  Whatever the sequence of calls, settlements and timer firings
    from the initial state, at most one retry timer is pending, the in-flight flag
    tells whether a run is suspended, and no queued item has been retried
    more than [MAX_RETRIES] times. *)
Lemma reachable_wellFormed (f : FileSystem) (evs : list Event) :
  wellFormed (runEvents evs (initialWorld f)).
Proof.
  assert (wellFormed (initialWorld f)) as Hinit by (split_and!; done).
  revert Hinit. generalize (initialWorld f).
  induction evs as [|ev evs IH]; intros w Hw; [done|].
  simpl. apply IH. by apply wellFormed_step.
Qed.

(** C6, as the code has it.  When the write of a run is rejected and the
    [catch] block leaves items pending, exactly one retry is scheduled:
    whatever timer was pending is cancelled and the only pending timer is
    the new one, which [retryTimeout] names.  Its delay is
    [getRetryDelay n] for [n] the least [retryCount] among the pending
    items, with [1 ≤ n ≤ 5]: the exponential term [1000 * 2^n] capped at
    30000, plus a jitter in [0, 1000).  While [n ≤ 4] that is within
    [1000 * 2^n, 1000 * 2^n + 1000]; at [n = 5] it is within
    [30000, 31000]. *)
Theorem retry_scheduled_with_capped_backoff
    (flt : Faults) (rnd : Q) (w : World)
    (toWrite : list TaskCompletion) (f' : FileSystem) :
  suspension w = AwaitingWrite toWrite →
  writeCompletionsToFile (fs w) flt toWrite = inr f' →
  timersConsistent w →
  (0 <= rnd)%Q → (rnd < 1)%Q →
  let after := processQueue_afterWrite flt rnd w in
  pendingQueue after ≠ [] →
  ∃ n delay,
    mathMin (retryCount <$> pendingQueue after) = Some n ∧
    (∃ q, q ∈ pendingQueue after ∧ retryCount q = n) ∧
    (∀ q, q ∈ pendingQueue after → n ≤ retryCount q) ∧
    1 ≤ n ≤ 5 ∧
    retryTimeout after = Some (nextTimerId w) ∧
    timers after = [mkTimer (nextTimerId w) delay] ∧
    (∀ id, retryTimeout w = Some id → id ∉ timerId <$> timers after) ∧
    delay = getRetryDelay n rnd ∧
    let base := inject_Z (BASE_RETRY_DELAY_MS * pow2 n) in
    let cap := inject_Z MAX_RETRY_DELAY_MS in
    (Qmin base cap <= delay)%Q ∧ (delay < Qmin base cap + 1000)%Q ∧
    (n ≤ 4 → (base <= delay)%Q ∧ (delay <= base + 1000)%Q) ∧
    (n = 5 → (cap <= delay)%Q ∧ (delay <= cap + 1000)%Q).
Proof.
  intros Hs Hwrite Hc H0 H1 after Hpending.
  assert (∃ rt ts next,
            scheduleRetry rnd (requeue (pendingQueue w))
              (retryTimeout w) (timers w) (nextTimerId w) = (rt, ts, next) ∧
            after = mkWorld (requeue (pendingQueue w)) false rt NotRunning
                            f' ts next)
    as (rt & ts & next & Hsched & Hrun).
  { unfold after, processQueue_afterWrite. rewrite Hs, Hwrite.
    destruct (scheduleRetry _ _ _ _ _) as [[rt ts] next].
    by exists rt, ts, next. }
  rewrite Hrun in *. cbn [pendingQueue] in *.
  destruct (mathMin_nonempty (retryCount <$> requeue (pendingQueue w)))
    as [n Hmin].
  { intros Hnil. apply Hpending. by apply fmap_nil_inv in Hnil. }
  rewrite (scheduleRetry_nonempty _ _ w n Hc Hmin) in Hsched.
  injection Hsched as <- <- <-.
  destruct (mathMin_spec _ _ Hmin) as [Hin Hle].
  apply list_elem_of_fmap in Hin as (q & Hnq & Hq).
  pose proof (requeue_retryCount _ _ Hq) as Hrange.
  unfold MAX_RETRIES in Hrange.
  destruct (getRetryDelay_bounds n rnd H0 H1) as (Hlo & Hhi & Hsmall & Hlarge).
  exists n, (getRetryDelay n rnd).
  cbn [retryTimeout timers].
  split_and!; try done.
  - by exists q.
  - intros q' Hq'. apply Hle, list_elem_of_fmap. by exists q'.
  - lia.
  - lia.
  - intros id Hid. unfold timersConsistent in Hc. rewrite Hid in Hc.
    destruct (timers w) as [|t [|t' ts']]; try done. destruct Hc as [_ Hlt].
    simpl. intros ->%list_elem_of_singleton. lia.
  - intros Hn. destruct (Hsmall Hn). split; [done|]. lra.
  - intros Hn. destruct Hlarge as [? ?]; [lia|]. split; [done|]. lra.
Qed.

(** ** Unreadable completions file *)

(** C10.  When the completions file exists but cannot be read, or parses to
    something that is not an array, [readExistingCompletions] returns the
    empty list; a run whose write then succeeds stages every queued item
    and leaves a file that holds exactly those, nothing of the previous
    content, and an empty queue. *)
Theorem unreadable_file_is_replaced (e : RunEnv) (w : World) :
  unreadableOrNotArray (fs w) (readFaults e) →
  idle w → pendingQueue w ≠ [] → runFails e w = false →
  readExistingCompletions (fs w) (readFaults e) = [] ∧
  completionsFile (fs (processQueue e w)) =
    Some (CompletionsArray (toCompletion <$> pendingQueue w)) ∧
  pendingQueue (processQueue e w) = [].
Proof.
  intros [Hexists Hbad] Hidle Hq Hok.
  assert (readExistingCompletions (fs w) (readFaults e) = []) as Hread.
  { unfold readExistingCompletions. rewrite Hexists. simpl.
    destruct (homeDirFails _), (existsFails _), (readTextFileFails _);
      try done.
    destruct Hbad as [?|[?|[?|[->| ->]]]]; done. }
  split; [done|].
  unfold runFails in Hok. rewrite processQueue_call_idle in Hok by done.
  unfold processQueue_afterRead in Hok. cbn [suspension pendingQueue fs] in Hok.
  rewrite Hread, stage_no_existing in Hok.
  assert (toCompletion <$> pendingQueue w ≠ []) as Hstaged.
  { intros Hnil. by apply fmap_nil_inv in Hnil. }
  destruct (toCompletion <$> pendingQueue w) as [|c cs] eqn:Hcs; [done|].
  cbn [length Nat.ltb Nat.leb suspension] in Hok.
  destruct (writeCompletionsToFile (fs w) (writeFaults e) ([] ++ c :: cs))
    as [f'|f'] eqn:Hwrite; [|done].
  rewrite (successful_run e w f' Hidle).
  - apply write_success_content in Hwrite as ->. done.
  - rewrite Hread, stage_no_existing, Hcs. done.
  - rewrite Hread, stage_no_existing, Hcs. done.
Qed.

(** ** The scenarios *)

(** Five consecutive failures leave the item pending with [retryCount] 5,
    and the attempt after them, when it succeeds, writes it. *)
Lemma five_failures_leave_item_pending :
  let w5 := processQueueRuns (replicate 5 Scenarios.writeRejected)
                             (Scenarios.oneQueued 0) in
  allRunsFail (replicate 5 Scenarios.writeRejected) (Scenarios.oneQueued 0) = true ∧
  pendingQueue w5 = [Scenarios.queued42 5] ∧
  completionsFile (fs (processQueue Scenarios.allFine w5)) =
    Some (CompletionsArray [Scenarios.completion42]).
Proof. vm_compute. split_and!; reflexivity. Qed.

(** Six consecutive failures empty the queue without touching the file. *)
Lemma six_failures_drop_item :
  pendingQueue (processQueueRuns (replicate 6 Scenarios.writeRejected)
                                 (Scenarios.oneQueued 0)) = [] ∧
  completionsFile (fs (processQueueRuns (replicate 6 Scenarios.writeRejected)
                                        (Scenarios.oneQueued 0))) = None.
Proof.
  destruct (retry_ceiling_is_six_attempts
              (replicate 6 Scenarios.writeRejected) (Scenarios.oneQueued 0))
    as (_ & _ & Hfile & _ & Hdropped).
  - split; reflexivity.
  - vm_compute. reflexivity.
  - split; [apply Hdropped; simpl; lia | exact Hfile].
Defined.

(** At the fifth retry the exponential term is 32000, the scheduled delay
    30500: outside [32000, 33000] and above the cap of 30000. *)
Lemma fifth_retry_delay_exceeds_cap :
  let after := processQueue Scenarios.writeRejected (Scenarios.oneQueued 4) in
  mathMin (retryCount <$> pendingQueue after) = Some 5 ∧
  timers after = [mkTimer 0 (getRetryDelay 5 (1 # 2))] ∧
  (getRetryDelay 5 (1 # 2) == 30500)%Q ∧
  ¬ (inject_Z (BASE_RETRY_DELAY_MS * pow2 5) <= getRetryDelay 5 (1 # 2))%Q ∧
  ¬ (getRetryDelay 5 (1 # 2) <= inject_Z MAX_RETRY_DELAY_MS)%Q.
Proof.
  split_and!; [reflexivity|reflexivity|reflexivity| |];
    intros H; vm_compute in H; by apply H.
Qed.

(** The first failure of a fresh item schedules the only timer, 2000 ms
    plus jitter ahead. *)
Lemma first_retry_scheduled :
  ∃ delay,
    timers (processQueue Scenarios.writeRejected (Scenarios.oneQueued 0)) =
      [mkTimer 0 delay] ∧
    (2000 <= delay)%Q ∧ (delay <= 3000)%Q.
Proof.
  destruct (retry_scheduled_with_capped_backoff
              (writeFaults Scenarios.writeRejected) (1 # 2)
              (processQueue_afterRead noFaults
                 (processQueue_call (Scenarios.oneQueued 0)))
              [Scenarios.completion42] (mkFileSystem true None))
    as (n & delay & Hmin & _ & _ & _ & _ & Htimers & _ & _ & _ & _ & Hsmall & _).
  - reflexivity.
  - reflexivity.
  - exact I.
  - vm_compute. discriminate.
  - vm_compute. reflexivity.
  - vm_compute. discriminate.
  - exists delay. split; [exact Htimers|].
    vm_compute in Hmin. injection Hmin as <-.
    apply Hsmall. lia.
Defined.

(** A file that does not parse is replaced by the one queued item. *)
Lemma corrupt_file_scenario :
  readExistingCompletions (fs Scenarios.corruptFile) noFaults = [] ∧
  completionsFile (fs (processQueue Scenarios.allFine Scenarios.corruptFile)) =
    Some (CompletionsArray [Scenarios.completion42]).
Proof.
  destruct (unreadable_file_is_replaced Scenarios.allFine Scenarios.corruptFile)
    as (Hread & Hfile & _).
  - split; [reflexivity|]. right. right. right. left. reflexivity.
  - split; reflexivity.
  - discriminate.
  - vm_compute. reflexivity.
  - split; [exact Hread | exact Hfile].
Defined.

End CompletionSyncTheory.

(* ===================================================================== *)
(** * Properties of JavaScript numbers *)
(* ===================================================================== *)

(** What the priority sort needs of binary64 arithmetic: a difference is
    positive exactly when its first operand is the larger one, the numbers
    other than [NaN] are totally ordered, and a quotient of numbers that
    are not negative is not negative. *)
Module JsNumberFacts.
Import JsNumber.

(** ** Mantissas and exponents *)

Lemma digits2_pos_bounds (p : positive) :
  (2 ^ (Z.pos (digits2_pos p) - 1) <= Z.pos p < 2 ^ Z.pos (digits2_pos p))%Z.
Proof.
  induction p as [p IH|p IH|]; simpl digits2_pos.
  - rewrite Pos2Z.inj_succ.
    replace (Z.succ (Z.pos (digits2_pos p)) - 1)%Z
      with (Z.succ (Z.pos (digits2_pos p) - 1)) by lia.
    rewrite !Z.pow_succ_r by lia. lia.
  - rewrite Pos2Z.inj_succ.
    replace (Z.succ (Z.pos (digits2_pos p)) - 1)%Z
      with (Z.succ (Z.pos (digits2_pos p) - 1)) by lia.
    rewrite !Z.pow_succ_r by lia. lia.
  - simpl. lia.
Qed.

Lemma iter_xO (d m : positive) :
  Z.pos (Pos.iter xO m d) = (Z.pos m * 2 ^ Z.pos d)%Z.
Proof.
  induction d as [|d IH] using Pos.peano_ind.
  - simpl. lia.
  - rewrite Pos.iter_succ, Pos2Z.inj_xO, IH, Pos2Z.inj_succ, Z.pow_succ_r by lia.
    lia.
Qed.

Lemma shl_align_value (m : positive) (e e' : Z) :
  (e' <= e)%Z →
  Z.pos (shl_align m e e').1 = (Z.pos m * 2 ^ (e - e'))%Z.
Proof.
  intros Hle. unfold shl_align.
  destruct (e' - e)%Z as [|d|d] eqn:Hd; simpl.
  - replace (e - e')%Z with 0%Z by lia. simpl. lia.
  - lia.
  - rewrite iter_xO. f_equal. f_equal. lia.
Qed.


(** What validity says of a finite binary64 number. *)
Lemma bounded_facts (m : positive) (e : Z) :
  bounded prec emax m e = true →
  (Z.pos (digits2_pos m) <= 53 ∧ -1074 <= e ∧
   (-1074 < e → Z.pos (digits2_pos m) = 53))%Z.
Proof.
  unfold bounded, canonical_mantissa, fexp, emin, prec, emax.
  intros [Hc _]%andb_true_iff. apply Z.eqb_eq in Hc. lia.
Qed.

Lemma scaled_mantissa_lt (mx my : positive) (ex ey : Z) :
  bounded prec emax mx ex = true → bounded prec emax my ey = true →
  (ex < ey)%Z →
  (Z.pos mx * 2 ^ (ex - ex) < Z.pos my * 2 ^ (ey - ex))%Z.
Proof.
  intros (Hdx & Hex & _)%bounded_facts (_ & _ & Hdy)%bounded_facts Hlt.
  specialize (Hdy ltac:(lia)).
  pose proof (digits2_pos_bounds mx) as [_ Hmx].
  pose proof (digits2_pos_bounds my) as [Hmy _].
  rewrite Hdy in Hmy.
  assert (2 ^ Z.pos (digits2_pos mx) <= 2 ^ 53)%Z as Hp
    by (apply Z.pow_le_mono_r; lia).
  assert (2 ^ 1 <= 2 ^ (ey - ex))%Z as Hq by (apply Z.pow_le_mono_r; lia).
  rewrite Z.sub_diag. change (2 ^ 0)%Z with 1%Z.
  change (2 ^ 1)%Z with 2%Z in Hq.
  change (2 ^ (53 - 1))%Z with 4503599627370496%Z in Hmy.
  change (2 ^ 53)%Z with 9007199254740992%Z in Hp.
  nia.
Qed.

(** Two valid finite numbers, their mantissas brought to the smaller
    exponent, compare as [SFcompare] compares them: by exponent first. *)
Lemma aligned_compare (mx my : positive) (ex ey : Z) :
  bounded prec emax mx ex = true → bounded prec emax my ey = true →
  (Z.pos (shl_align mx ex (Z.min ex ey)).1 ?=
   Z.pos (shl_align my ey (Z.min ex ey)).1)%Z =
  match (ex ?= ey)%Z with
  | Lt => Lt
  | Gt => Gt
  | Eq => Pos.compare_cont Eq mx my
  end.
Proof.
  intros Hx Hy. rewrite !shl_align_value by lia.
  destruct (Z.compare_spec ex ey) as [->|Hlt|Hgt].
  - rewrite Z.min_id, Z.sub_diag. change (2 ^ 0)%Z with 1%Z.
    by rewrite !Z.mul_1_r.
  - rewrite Z.min_l by lia. apply Z.compare_lt_iff.
    by apply scaled_mantissa_lt.
  - rewrite Z.min_r by lia. apply Z.compare_gt_iff.
    by apply scaled_mantissa_lt.
Qed.


(** ** Rounding keeps the sign *)

Lemma iter_pos_nat {A} (f : A → A) (k : positive) (x : A) :
  SpecFloat.iter_pos f k x = Nat.iter (Pos.to_nat k) f x.
Proof.
  revert x. induction k as [k IH|k IH|]; intros x; simpl SpecFloat.iter_pos.
  - rewrite Pos2Nat.inj_xI, !IH.
    replace (S (2 * Pos.to_nat k)) with (Pos.to_nat k + S (Pos.to_nat k)) by lia.
    by rewrite Nat.iter_add, Nat.iter_succ_r.
  - rewrite Pos2Nat.inj_xO, !IH.
    replace (2 * Pos.to_nat k) with (Pos.to_nat k + Pos.to_nat k) by lia.
    by rewrite Nat.iter_add.
  - done.
Qed.

(** Shifting right by fewer places than the mantissa has digits leaves a
    positive mantissa. *)
Lemma shr_1_iter_positive (c : nat) (p : positive) (r s : bool) :
  (Z.of_nat c < Z.pos (digits2_pos p))%Z →
  ∃ q r' s', Nat.iter c shr_1 (Build_shr_record (Z.pos p) r s) =
             Build_shr_record (Z.pos q) r' s'.
Proof.
  revert p r s. induction c as [|c IH]; intros p r s Hlt.
  - by exists p, r, s.
  - rewrite Nat.iter_succ_r.
    destruct p as [p|p|]; simpl shr_1; simpl digits2_pos in Hlt.
    + apply IH. lia.
    + apply IH. lia.
    + lia.
Qed.


Lemma shr_record_of_loc_m (m : Z) (l : location) :
  shr_m (shr_record_of_loc m l) = m.
Proof. by destruct l as [|[]]. Qed.

Lemma shr_fexp_positive (p : positive) (e : Z) (l : location) :
  (-1074 <= e)%Z →
  ∃ q r s e', shr_fexp prec emax (Z.pos p) e l =
              (Build_shr_record (Z.pos q) r s, e') ∧ (-1074 <= e')%Z.
Proof.
  intros He. unfold shr_fexp, shr, fexp, emin, prec, emax. simpl Zdigits2.
  pose proof (shr_record_of_loc_m (Z.pos p) l) as Hm.
  destruct (shr_record_of_loc (Z.pos p) l) as [m r s]. simpl in Hm. subst m.
  destruct (Z.max (Z.pos (digits2_pos p) + e - 53) (3 - 1024 - 53) - e)%Z
    as [|k|k] eqn:Hk.
  - by exists p, r, s, e.
  - rewrite iter_pos_nat.
    destruct (shr_1_iter_positive (Pos.to_nat k) p r s) as (q & r' & s' & ->).
    { rewrite positive_nat_Z. lia. }
    exists q, r', s', (e + Z.pos k)%Z. split; [done|lia].
  - by exists p, r, s, e.
Qed.


Lemma round_nearest_even_positive (q : positive) (l : location) :
  ∃ q', round_nearest_even (Z.pos q) l = Z.pos q'.
Proof.
  destruct l as [|[]]; cbn [round_nearest_even]; try by eexists.
  destruct (Z.even (Z.pos q)); by eexists.
Qed.


(** A positive mantissa at an exponent that is not below the least one
    rounds to a positive number: the result is never a zero. *)
Lemma binary_round_aux_positive (p : positive) (e : Z) (l : location) :
  (-1074 <= e)%Z →
  SFpositive (binary_round_aux prec emax false (Z.pos p) e l) = true.
Proof.
  intros He. unfold binary_round_aux.
  destruct (shr_fexp_positive p e l He) as (q & r & s & e' & -> & He').
  cbn [shr_m].
  destruct (round_nearest_even_positive q
              (loc_of_shr_record (Build_shr_record (Z.pos q) r s)))
    as (q' & ->).
  destruct (shr_fexp_positive q' e' loc_Exact He')
    as (q2 & r2 & s2 & e2 & -> & _).
  cbn [shr_m]. by destruct (Z.leb e2 (emax - prec)).
Qed.


(** Under the sign [-] the result is never positive. *)
Lemma binary_round_aux_negative (m e : Z) (l : location) :
  SFpositive (binary_round_aux prec emax true m e l) = false.
Proof.
  unfold binary_round_aux.
  destruct (shr_fexp prec emax m e l) as [mrs' e'].
  destruct (shr_fexp prec emax _ e' loc_Exact) as [mrs2 e2].
  destruct (shr_m mrs2); [done| |done].
  by destruct (Z.leb e2 (emax - prec)).
Qed.

Lemma binary_normalize_positive (m e : Z) :
  (-1074 <= e)%Z →
  SFpositive (binary_normalize prec emax m e false) = bool_decide (0 < m)%Z.
Proof.
  intros He. destruct m as [|p|p]; simpl.
  - done.
  - unfold binary_round.
    destruct (shl_align p e _) as [mz ez] eqn:Halign.
    rewrite binary_round_aux_positive; [done|].
    unfold shl_align in Halign.
    destruct (fexp prec emax (Z.pos (digits2_pos p) + e) - e)%Z eqn:Hd;
      injection Halign as <- <-; try done.
    unfold fexp, emin, prec, emax. lia.
  - unfold binary_round.
    destruct (shl_align p e _) as [mz ez].
    by rewrite binary_round_aux_negative.
Qed.


(** ** The sign of a difference *)

(** [x - y] is positive exactly when [y < x]: a difference of two numbers
    never rounds to zero unless they are equal, [Infinity - Infinity] is
    [NaN], which is not positive, and a [NaN] operand gives [NaN]. *)
Lemma SFsub_positive (x y : spec_float) :
  valid_binary x = true → valid_binary y = true →
  SFpositive (SF64sub x y) = SFltb y x.
Proof.
  intros Hx Hy.
  destruct x as [sx|sx| |sx mx ex], y as [sy|sy| |sy my ey]; try done;
    try (by destruct sx); try (by destruct sy); try (by destruct sx, sy).
  simpl in Hx, Hy.
  pose proof (bounded_facts _ _ Hx) as (_ & Hex & _).
  pose proof (bounded_facts _ _ Hy) as (_ & Hey & _).
  unfold SF64sub, SFsub. rewrite binary_normalize_positive by lia.
  pose proof (aligned_compare my mx ey ex Hy Hx) as Hcmp.
  rewrite (Z.min_comm ey ex) in Hcmp.
  unfold SFltb, SFcompare.
  destruct sx, sy; simpl cond_Zopp.
  - replace (match (ey ?= ex)%Z with
             | Eq => CompOpp (Pos.compare_cont Eq my mx)
             | Lt => Gt
             | Gt => Lt
             end)
      with (CompOpp (Z.pos (shl_align my ey (Z.min ex ey)).1 ?=
                     Z.pos (shl_align mx ex (Z.min ex ey)).1)%Z)
      by (rewrite Hcmp; by destruct (ey ?= ex)%Z).
    destruct (Z.compare_spec (Z.pos (shl_align my ey (Z.min ex ey)).1)
                             (Z.pos (shl_align mx ex (Z.min ex ey)).1));
      simpl; case_bool_decide; lia.
  - case_bool_decide; [lia|done].
  - case_bool_decide; [done|lia].
  - rewrite <- Hcmp.
    destruct (Z.compare_spec (Z.pos (shl_align my ey (Z.min ex ey)).1)
                             (Z.pos (shl_align mx ex (Z.min ex ey)).1));
      simpl; case_bool_decide; lia.
Qed.

(** ** The order of the numbers that are not [NaN] *)

Lemma SFcompare_antisym (x y : spec_float) :
  SFcompare y x = CompOpp <$> SFcompare x y.
Proof.
  destruct x as [sx|sx| |sx mx ex], y as [sy|sy| |sy my ey]; try done;
    try (by destruct sx); try (by destruct sy); try (by destruct sx, sy).
  unfold SFcompare. rewrite (Z.compare_antisym ex ey).
  change (Pos.compare_cont Eq my mx)
    with (Pos.compare_cont (CompOpp Eq) my mx).
  rewrite <- (Pos.compare_cont_antisym mx my Eq).
  destruct sx, sy; simpl; try done; by destruct (ex ?= ey)%Z.
Qed.

Lemma SFltb_SFleb (x y : spec_float) : SFltb x y = true → SFleb x y = true.
Proof. unfold SFltb, SFleb. by destruct (SFcompare x y) as [[]|]. Qed.

(** Of two numbers one is below the other, or they are equal. *)
Lemma SFltb_negb_SFleb (x y : spec_float) :
  x ≠ S754_nan → y ≠ S754_nan → SFltb x y = negb (SFleb y x).
Proof.
  intros Hx Hy. unfold SFltb, SFleb. rewrite (SFcompare_antisym x y).
  destruct (SFcompare x y) as [[]|] eqn:Hcmp; try done.
  by destruct x, y.
Qed.

Lemma SFleb_trans (x y z : spec_float) :
  SFleb x y = true → SFleb y z = true → SFleb x z = true.
Proof.
  unfold SFleb.
  destruct x as [sx|sx| |sx mx ex], y as [sy|sy| |sy my ey],
           z as [sz|sz| |sz mz ez]; simpl; try done;
    try (by destruct sx); try (by destruct sy); try (by destruct sz);
    try (by destruct sx, sy); try (by destruct sy, sz);
    try (by destruct sx, sz); try (by destruct sx, sy, sz).
  change (Pos.compare_cont Eq) with Pos.compare.
  destruct sx, sy, sz; try done;
    destruct (Z.compare_spec ex ey), (Z.compare_spec ey ez),
             (Z.compare_spec ex ez); try done; try lia; subst;
    destruct (Pos.compare_spec mx my), (Pos.compare_spec my mz),
             (Pos.compare_spec mx mz); simpl; try done; lia.
Qed.


Lemma SFcompare_refl (x : spec_float) :
  x ≠ S754_nan → SFcompare x x = Some Eq.
Proof.
  intros Hx. destruct x as [s|s| |s m e]; try done; try by destruct s.
  unfold SFcompare. rewrite Z.compare_refl.
  change (Pos.compare_cont Eq m m) with (m ?= m)%positive.
  rewrite Pos.compare_refl. by destruct s.
Qed.

Lemma SFeqb_refl (x : spec_float) : SFeqb x x = true ↔ x ≠ S754_nan.
Proof.
  unfold SFeqb. split.
  - by intros H ->.
  - intros Hx. by rewrite SFcompare_refl.
Qed.



(** ** The sign of a quotient *)


(** ** The same facts about JavaScript numbers *)

Lemma number_sub_positive (x y : float) : (0 <? x - y)%float = (y <? x)%float.
Proof.
  rewrite !FloatAxioms.ltb_spec, FloatAxioms.sub_spec.
  apply SFsub_positive; apply Prim2SF_valid.
Qed.

Lemma number_not_nan (x : float) : isNaN x = false ↔ Prim2SF x ≠ S754_nan.
Proof.
  unfold isNaN. rewrite negb_false_iff, FloatAxioms.eqb_spec.
  apply SFeqb_refl.
Qed.

Lemma number_ltb_leb (x y : float) :
  (x <? y)%float = true → (x <=? y)%float = true.
Proof. rewrite FloatAxioms.ltb_spec, FloatAxioms.leb_spec. apply SFltb_SFleb. Qed.

Lemma number_ltb_negb_leb (x y : float) :
  isNaN x = false → isNaN y = false →
  (x <? y)%float = negb (y <=? x)%float.
Proof.
  intros Hx%number_not_nan Hy%number_not_nan.
  rewrite FloatAxioms.ltb_spec, FloatAxioms.leb_spec.
  by apply SFltb_negb_SFleb.
Qed.

Lemma number_leb_trans (x y z : float) :
  (x <=? y)%float = true → (y <=? z)%float = true → (x <=? z)%float = true.
Proof. rewrite !FloatAxioms.leb_spec. apply SFleb_trans. Qed.





End JsNumberFacts.

(* ===================================================================== *)
(** * Properties of the external task importer *)
(* ===================================================================== *)

Module UseSubeteTasksTheory.
Import JsNumber JsNumberFacts UseSubeteTasks.

(** ** A poll that finds no file *)

Lemma readSharedTasks_missing (outcome : nat → AttemptOutcome) :
  outcome 0 = FileMissing →
  readSharedTasks outcome MAX_RETRIES = (inl ([], false), []).
Proof. intros H. unfold readSharedTasks. simpl. by rewrite H. Qed.

(** The whole effect of [refresh] when [exists] resolves [false]. *)
Lemma refresh_missing_file (e : PollEnv) (h : Hook) :
  attempts e 0 = FileMissing →
  refresh e h =
  mkHook [] false None synced (Some 0) true None 0 (cache h)
         (toasts h ++
          countToast (hasInitialLoadRef h) (previousTaskCountRef h) 0 ++
          match lastErrorRef h with Some _ => [SyncRestored] | None => [] end).
Proof.
  intros H. unfold refresh. by rewrite (readSharedTasks_missing _ H).
Qed.

(** The sibling path: once tasks have been loaded, a read rejected with
    [ENOENT] leaves the list on screen and reports [offline]. *)
Lemma enoent_rejection_keeps_tasks_offline :
  let task := mkSubeteTask "1" "Write report" "today" 3 1 None in
  let loaded :=
    refresh (mkPollEnv (λ _, Parsed (TasksArray [task])) false) (mountHook None) in
  let poll :=
    mkPollEnv (λ _, Rejected "ENOENT: no such file or directory") false in
  tasks loaded = [task] ∧
  syncStatus (refresh poll loaded) = offline ∧
  tasks (refresh poll loaded) = [task].
Proof. vm_compute. split_and!; reflexivity. Qed.

(** C3.  A hook mounted over a cache of one task, then one poll during
    which the tasks file does not exist: the poll ends with status
    [synced] and an empty in-memory list; only the persisted cache still
    holds the task. *)
Theorem missing_file_poll_reports_synced_and_empties_list :
  let task := mkSubeteTask "1" "Write report" "today" 3 1 None in
  let mounted := mountHook (Some [task]) in
  let poll := mkPollEnv (λ _, FileMissing) false in
  tasks mounted = [task] ∧
  syncStatus (refresh poll mounted) = synced ∧
  tasks (refresh poll mounted) = [] ∧
  cache (refresh poll mounted) = Some [task].
Proof. intros task mounted poll. by rewrite refresh_missing_file. Qed.

(** ** Priority sort *)

(** The comparator is positive exactly when [b] has the larger ratio;
    ratios that round to the same number are a tie. *)
Lemma comparator_positive_iff (a b : SubeteTask) :
  isPositive (comparator a b) = (ratio a <? ratio b)%float.
Proof. apply number_sub_positive. Qed.

Lemma comparator_not_positive (a b : SubeteTask) :
  comparable a → comparable b →
  isPositive (comparator a b) = false ↔ priorityGe a b.
Proof.
  intros Ha Hb. rewrite comparator_positive_iff.
  rewrite (number_ltb_negb_leb _ _ Ha Hb). apply negb_false_iff.
Qed.

Lemma comparator_positive (a b : SubeteTask) :
  isPositive (comparator a b) = true → priorityGe b a.
Proof. rewrite comparator_positive_iff. apply number_ltb_leb. Qed.

Lemma priorityGe_trans (a b c : SubeteTask) :
  priorityGe a b → priorityGe b c → priorityGe a c.
Proof. unfold priorityGe. intros Hab Hbc. by eapply number_leb_trans. Qed.

Section SortInsert.
Context {A : Type} (comparefn : A → A → float).

Lemma sortInsert_perm (x : A) (l : list A) :
  sortInsert comparefn x l ≡ₚ x :: l.
Proof.
  induction l as [|y l IH]; [done|]. simpl.
  destruct (isPositive _); [|done].
  rewrite IH. apply Permutation_swap.
Qed.

Lemma arraySort_perm (l : list A) : arraySort comparefn l ≡ₚ l.
Proof.
  induction l as [|x l IH]; [done|].
  unfold arraySort in *. simpl. by rewrite sortInsert_perm, IH.
Qed.
End SortInsert.

Lemma sortInsert_sorted (x : SubeteTask) (l : list SubeteTask) :
  comparable x → Forall comparable l →
  StronglySorted priorityGe l →
  StronglySorted priorityGe (sortInsert comparator x l).
Proof.
  intros Hx Hl. induction 1 as [|y l Hsorted IH Hall]; simpl.
  - repeat constructor.
  - apply Forall_cons in Hl as [Hy Hl].
    destruct (isPositive (comparator x y)) eqn:Hpos.
    + constructor; [by apply IH|].
      rewrite sortInsert_perm. constructor; [|done].
      by apply comparator_positive.
    + apply comparator_not_positive in Hpos; [|done..].
      constructor; [by constructor|].
      constructor; [done|].
      eapply Forall_impl; [exact Hall|].
      intros z Hz. by eapply priorityGe_trans.
Qed.

(** Tasks whose ratios are numbers come out in descending order. *)
Lemma arraySort_sorted (l : list SubeteTask) :
  Forall comparable l → StronglySorted priorityGe (arraySort comparator l).
Proof.
  induction 1 as [|x l Hx Hl IH]; [constructor|].
  change (arraySort comparator (x :: l))
    with (sortInsert comparator x (arraySort comparator l)).
  apply sortInsert_sorted; [done| |done].
  by rewrite arraySort_perm.
Qed.








(** Two quotients that differ as fractions, 0.7 / 2.1 and 1 / 3, round to
    the same number: the tasks are a tie and keep the order they came
    in, whichever it is. *)
Lemma equal_rounded_ratios_keep_input_order :
  ratio Scenarios.tenthsTask = ratio Scenarios.thirdTask ∧
  sortTasksByPriority [Scenarios.tenthsTask; Scenarios.thirdTask] =
    [Scenarios.tenthsTask; Scenarios.thirdTask] ∧
  sortTasksByPriority [Scenarios.thirdTask; Scenarios.tenthsTask] =
    [Scenarios.thirdTask; Scenarios.tenthsTask].
Proof. vm_compute. split_and!; reflexivity. Qed.

End UseSubeteTasksTheory.

(* ===================================================================== *)
(** * Properties of the remote reconciler *)
(* ===================================================================== *)

Module FirebaseSyncTheory.
Import Models FirebaseSync.

(** ** The client id *)

Lemma generatedId_nonempty (p : Platform) : generatedId p ≠ "".
Proof. done. Qed.

(** [getClientId] returns a non-empty id, remembers it, and touches
    nothing but the two places the id is kept in. *)
Lemma getClientId_fields (p : Platform) (st : Sync) :
  let r := getClientId p st in
  r.1 ≠ "" ∧ clientId r.2 = Some r.1 ∧
  syncState r.2 = syncState st ∧ unsubscribe r.2 = unsubscribe st ∧
  updateListeners r.2 = updateListeners st ∧ applied r.2 = applied st ∧
  setDocCalls r.2 = setDocCalls st.
Proof.
  unfold getClientId.
  destruct (clientId st) as [c|] eqn:Hc; simpl.
  - destruct (String.eqb c "") eqn:Hempty.
    + destruct (storedClientId st) as [v|] eqn:Hv; simpl; [|done].
      destruct (String.eqb v "") eqn:Hvempty; simpl; [done|].
      apply String.eqb_neq in Hvempty. done.
    + apply String.eqb_neq in Hempty. simpl. by rewrite Hc.
  - destruct (storedClientId st) as [v|] eqn:Hv; simpl; [|done].
    destruct (String.eqb v "") eqn:Hvempty; simpl; [done|].
    apply String.eqb_neq in Hvempty. done.
Qed.

(** Once an id is known, every later call returns it and changes nothing:
    the id is stable. *)
Lemma getClientId_known (p : Platform) (st : Sync) (c : string) :
  clientId st = Some c → c ≠ "" → getClientId p st = (c, st).
Proof.
  intros Hc Hne. unfold getClientId. rewrite Hc. simpl.
  by apply String.eqb_neq in Hne as ->.
Qed.

Lemma getClientId_again (p p' : Platform) (st : Sync) :
  getClientId p' (getClientId p st).2 =
  ((getClientId p st).1, (getClientId p st).2).
Proof.
  destruct (getClientId_fields p st) as (Hne & Hc & _).
  by apply getClientId_known.
Qed.

(** ** The push handler *)

Lemma pushHandler_remote (p : Platform) (ref : string) (update : Update)
    (st : Sync) :
  pushHandler p ref update firebaseOrigin st = st.
Proof. done. Qed.

(** A delta that does not come from the remote record is pushed once by
    the handler, under this replica's id. *)
Lemma pushHandler_local (p : Platform) (ref : string) (update : Update)
    (origin : Origin) (st : Sync) :
  origin ≠ firebaseOrigin →
  let st' := pushHandler p ref update origin st in
  let cid := (getClientId p st).1 in
  setDocCalls st' = setDocCalls st ++ [(ref, pushRecord p update cid)] ∧
  syncState st' = (if setDocRejects p ref then offline else synced) ∧
  clientId st' = Some cid ∧ cid ≠ "" ∧
  unsubscribe st' = unsubscribe st ∧
  updateListeners st' = updateListeners st ∧
  applied st' = applied st.
Proof.
  intros Horigin. unfold pushHandler.
  rewrite bool_decide_eq_false_2 by done.
  pose proof (getClientId_fields p (setSyncState syncing st))
    as (Hne & Hc & _ & Hu & Hl & Ha & Hs).
  assert ((getClientId p (setSyncState syncing st)).1 = (getClientId p st).1)
    as Hsame.
  { unfold getClientId. simpl.
    by destruct (falsy (clientId st)), (falsy (storedClientId st)). }
  destruct (getClientId p (setSyncState syncing st)) as [cid st2] eqn:Hg.
  simpl in *. subst cid.
  destruct (setDocRejects p ref); simpl; rewrite ?Hs; done.
Qed.

(** ** Committing a transaction *)

(** An update tagged as coming from the remote record reaches every
    handler and none of them pushes: only the document changes. *)
Lemma emitUpdate_remote (p : Platform) (update : Update) (st : Sync) :
  emitUpdate p update firebaseOrigin st = recorded update firebaseOrigin st.
Proof.
  unfold emitUpdate. fold (recorded update firebaseOrigin st).
  generalize (recorded update firebaseOrigin st). intros s.
  by induction (updateListeners st) as [|r l IH].
Qed.

Lemma cid_after_push (p : Platform) (ref : string) (update : Update)
    (origin : Origin) (st : Sync) :
  origin ≠ firebaseOrigin →
  (getClientId p (pushHandler p ref update origin st)).1 = (getClientId p st).1.
Proof.
  intros Horigin.
  destruct (pushHandler_local p ref update origin st Horigin)
    as (_ & _ & Hc & Hne & _).
  by rewrite (getClientId_known _ _ _ Hc Hne).
Qed.

(** The handlers run one after the other on a local delta: one [setDoc]
    per registered handler, all under the same id; the subscription and the
    handlers stay as they are. *)
Lemma handlers_on_local_delta (p : Platform) (update : Update)
    (origin : Origin) (listeners : list string) (st : Sync) :
  origin ≠ firebaseOrigin →
  let st' := foldl (λ s ref, pushHandler p ref update origin s) st listeners in
  setDocCalls st' =
    setDocCalls st ++
    ((λ ref, (ref, pushRecord p update (getClientId p st).1)) <$> listeners) ∧
  unsubscribe st' = unsubscribe st ∧
  updateListeners st' = updateListeners st ∧
  applied st' = applied st.
Proof.
  intros Horigin. revert st.
  induction listeners as [|r l IH]; intros st; simpl.
  - by rewrite app_nil_r.
  - destruct (IH (pushHandler p r update origin st)) as (Hs & Hu & Hl & Ha).
    destruct (pushHandler_local p r update origin st Horigin)
      as (Hs1 & _ & _ & _ & Hu1 & Hl1 & Ha1).
    rewrite Hs, Hu, Hl, Ha, Hs1, Hu1, Hl1, Ha1.
    rewrite (cid_after_push p r update origin st Horigin).
    by rewrite <- app_assoc.
Qed.

(** The state the last handler leaves decides the final status. *)
Lemma handlers_final_state (p : Platform) (update : Update) (origin : Origin)
    (listeners : list string) (st : Sync) (rejects : bool) :
  origin ≠ firebaseOrigin → listeners ≠ [] →
  (∀ ref, ref ∈ listeners → setDocRejects p ref = rejects) →
  syncState (foldl (λ s ref, pushHandler p ref update origin s) st listeners) =
  (if rejects then offline else synced).
Proof.
  intros Horigin. revert st.
  induction listeners as [|r l IH]; intros st Hne Hall; [done|]. simpl.
  destruct l as [|r' l'].
  - simpl.
    destruct (pushHandler_local p r update origin st Horigin) as (_ & -> & _).
    rewrite (Hall r); [done|by left].
  - apply IH; [done|]. intros ref Href. apply Hall. by right.
Qed.

Lemma cid_recorded (p : Platform) (update : Update) (origin : Origin)
    (st : Sync) :
  (getClientId p (recorded update origin st)).1 = (getClientId p st).1.
Proof.
  unfold getClientId. simpl.
  by destruct (falsy (clientId st)), (falsy (storedClientId st)).
Qed.

(** ** The pull handler *)

Lemma applyRemote_frame (p : Platform) (field : option Encoded) (st : Sync) :
  let st' := applyRemote p field st in
  setDocCalls st' = setDocCalls st ∧ unsubscribe st' = unsubscribe st ∧
  updateListeners st' = updateListeners st ∧ syncState st' = syncState st.
Proof.
  unfold applyRemote. destruct (field ≫= decodeUpdate) as [u|]; [|done].
  destruct (applyThrows p); [done|]. by rewrite emitUpdate_remote.
Qed.

(** Whatever the snapshot holds, handling it issues no [setDoc], keeps the
    subscription and the handlers, and ends in [synced]. *)
Lemma onSnapshotNext_frame (p : Platform) (snapshot : option RemoteRecord)
    (st : Sync) :
  let st' := onSnapshotNext p snapshot st in
  setDocCalls st' = setDocCalls st ∧ unsubscribe st' = unsubscribe st ∧
  updateListeners st' = updateListeners st ∧ syncState st' = synced.
Proof.
  unfold onSnapshotNext. destruct snapshot as [data|]; [|done].
  destruct (truthy (rec_update data)); [|done].
  pose proof (getClientId_fields p st) as (_ & _ & _ & Hu & Hl & _ & Hs).
  destruct (getClientId p st) as [cid st1]. simpl in *.
  destruct (negb _); simpl; [|done].
  destruct (applyRemote_frame p (rec_update data) st1) as (-> & -> & -> & _).
  done.
Qed.

(** A record written by this replica is not applied. *)
Lemma onSnapshotNext_own (p : Platform) (data : RemoteRecord) (st : Sync) :
  rec_origin data = (getClientId p st).1 →
  applied (onSnapshotNext p (Some data) st) = applied st.
Proof.
  intros Horigin. unfold onSnapshotNext.
  destruct (truthy (rec_update data)); [|done].
  pose proof (getClientId_fields p st) as (_ & _ & _ & _ & _ & Ha & _).
  destruct (getClientId p st) as [cid st1]. simpl in *. subst cid.
  by rewrite String.eqb_refl.
Qed.

(** ** Failures after set-up *)

(** C4, as the code has it.  When a push of a local delta is rejected, or
    the snapshot listener is handed an error, the state becomes [offline];
    the snapshot subscription and the push handlers are what they were, so
    the reconciler stays attached.  The next local delta is pushed as usual
    (one [setDoc] per handler, [synced] when they resolve) and the next
    snapshot is handled as usual. *)
Theorem failure_sets_offline_and_stays_attached
    (p : Platform) (f : Failure) (ref : string) (st : Sync) :
  attached ref st → exchangeFails p f st →
  let st' := afterFailure p f st in
  syncState st' = offline ∧
  unsubscribe st' = unsubscribe st ∧
  updateListeners st' = updateListeners st ∧
  attached ref st' ∧
  (∀ p' update,
     (∀ r, r ∈ updateListeners st → setDocRejects p' r = false) →
     let next := localMutation p' update st' in
     syncState next = synced ∧ attached ref next ∧
     setDocCalls next =
       setDocCalls st' ++
       ((λ r, (r, pushRecord p' update (getClientId p' st').1))
          <$> updateListeners st)) ∧
  (∀ p' snapshot,
     let next := onSnapshotNext p' snapshot st' in
     syncState next = synced ∧ attached ref next).
Proof.
  intros [Hsub Hreg] Hfails st'.
  assert (updateListeners st ≠ []) as Hne.
  { intros Hnil. rewrite Hnil in Hreg. by apply elem_of_nil in Hreg. }
  assert (syncState st' = offline ∧ unsubscribe st' = unsubscribe st ∧
          updateListeners st' = updateListeners st) as (Hstate & Hu & Hl).
  { unfold st'. destruct f as [update|]; simpl; [|done].
    unfold localMutation, emitUpdate. fold (recorded update None st).
    destruct (handlers_on_local_delta p update None (updateListeners st)
                (recorded update None st)) as (_ & -> & -> & _); [done|].
    split; [|done].
    by rewrite (handlers_final_state p update None _ _ true). }
  assert (attached ref st') as Hatt.
  { unfold attached. by rewrite Hu, Hl. }
  split_and!; try done.
  - intros p' update Hok next. unfold next, localMutation, emitUpdate.
    fold (recorded update None st'). rewrite Hl.
    destruct (handlers_on_local_delta p' update None (updateListeners st)
                (recorded update None st')) as (-> & Hu' & Hl' & _); [done|].
    split_and!.
    + by rewrite (handlers_final_state p' update None _ _ false).
    + unfold attached. rewrite Hu', Hl'. simpl. by rewrite Hu, Hl.
    + by rewrite cid_recorded.
  - intros p' snapshot next.
    destruct (onSnapshotNext_frame p' snapshot st') as (_ & Hu' & Hl' & Hs').
    split; [done|]. unfold attached, next. by rewrite Hu', Hl', Hu, Hl.
Qed.

(** ** Echo suppression *)

(** What the handlers of one set-up do.  The pull handler changes the
    document only for a record whose origin is not this replica's id; an
    update applied from the remote record, and the handling of any
    snapshot, issue no [setDoc].  While a single push handler is
    registered, a local mutation issues exactly one [setDoc], and when the
    record it wrote comes back in a snapshot it is neither applied nor
    pushed again. *)
Theorem echo_suppression
    (p p' : Platform) (update : Update) (ref : string) (st : Sync) :
  updateListeners st = [ref] →
  (∀ q data s,
     applied (onSnapshotNext q (Some data) s) ≠ applied s →
     rec_origin data ≠ (getClientId q s).1) ∧
  (∀ q u s, setDocCalls (emitUpdate q u firebaseOrigin s) = setDocCalls s) ∧
  (∀ q snapshot s, setDocCalls (onSnapshotNext q snapshot s) = setDocCalls s) ∧
  let pushed := localMutation p update st in
  let record := pushRecord p update (getClientId p st).1 in
  setDocCalls pushed = setDocCalls st ++ [(ref, record)] ∧
  applied pushed = applied st ++ [(update, None)] ∧
  rec_origin record = (getClientId p' pushed).1 ∧
  let echoed := onSnapshotNext p' (Some record) pushed in
  setDocCalls echoed = setDocCalls st ++ [(ref, record)] ∧
  applied echoed = applied st ++ [(update, None)].
Proof.
  intros Hone. split_and!.
  - intros q data s Hchanged Horigin. apply Hchanged.
    by apply onSnapshotNext_own.
  - intros q u s. by rewrite emitUpdate_remote.
  - intros q snapshot s. by destruct (onSnapshotNext_frame q snapshot s).
  - intros pushed record.
    assert (setDocCalls pushed = setDocCalls st ++ [(ref, record)] ∧
            applied pushed = applied st ++ [(update, None)] ∧
            rec_origin record = (getClientId p' pushed).1)
      as (Hcalls & Happlied & Horigin).
    { unfold pushed, localMutation, emitUpdate.
      fold (recorded update None st). rewrite Hone. simpl.
      destruct (pushHandler_local p ref update None (recorded update None st))
        as (Hs & _ & Hc & Hne & _ & _ & Ha); [done|].
      rewrite cid_recorded in Hs, Hc, Hne.
      rewrite Hs, Ha. split_and!; [done..|].
      by rewrite (getClientId_known _ _ _ Hc Hne). }
    split_and!; try done. intros echoed. split.
    + unfold echoed.
      destruct (onSnapshotNext_frame p' (Some record) pushed) as (-> & _).
      done.
    + unfold echoed. by rewrite onSnapshotNext_own.
Qed.

(** C5.  The echo is suppressed, but the push is not single.  The
    reconciler is set up, then the callback that [initAuthAwareSync]
    registers with [subscribeToAuthState] runs ([destroyFirebaseSync], then
    [initFirebaseSync] again): the tear-down detaches the snapshot
    listener only, so the second set-up adds a second ['update'] handler
    to the one that is still registered.  One local mutation then issues
    two [setDoc]: when another user has signed in, one to the partition of
    the previous user and one to the new partition; when the user is the
    same (the callback also runs when no user ever signs in), the same
    record twice to the same partition.  The echo of that record is
    neither applied nor pushed again. *)
Theorem second_setup_pushes_twice :
  let own := "client-1767225600000-abc" in
  updateListeners Scenarios.afterSetup = [ANONYMOUS_DOC_ID] ∧
  setDocCalls Scenarios.afterSetup =
    [(ANONYMOUS_DOC_ID, Scenarios.bootstrapRecord)] ∧
  (let st := onAuthStateChanged Scenarios.signedIn Scenarios.afterSetup in
   let pushed := localMutation Scenarios.signedIn Scenarios.delta st in
   let record := pushRecord Scenarios.signedIn Scenarios.delta own in
   unsubscribe st = Some "uid-ada" ∧
   updateListeners st = [ANONYMOUS_DOC_ID; "uid-ada"] ∧
   setDocCalls pushed =
     setDocCalls st ++ [(ANONYMOUS_DOC_ID, record); ("uid-ada", record)] ∧
   let echoed := onSnapshotNext Scenarios.signedIn (Some record) pushed in
   setDocCalls echoed = setDocCalls pushed ∧
   applied echoed = applied pushed) ∧
  (let st := onAuthStateChanged Scenarios.sameUser Scenarios.afterSetup in
   let pushed := localMutation Scenarios.sameUser Scenarios.delta st in
   let record := pushRecord Scenarios.sameUser Scenarios.delta own in
   unsubscribe st = Some ANONYMOUS_DOC_ID ∧
   updateListeners st = [ANONYMOUS_DOC_ID; ANONYMOUS_DOC_ID] ∧
   setDocCalls st = setDocCalls Scenarios.afterSetup ∧
   setDocCalls pushed =
     setDocCalls st ++
     [(ANONYMOUS_DOC_ID, record); (ANONYMOUS_DOC_ID, record)]).
Proof. vm_compute. split_and!; reflexivity. Qed.

(** ** The scenarios *)

Lemma afterSetup_attached : attached ANONYMOUS_DOC_ID Scenarios.afterSetup.
Proof. split; [reflexivity|]. vm_compute. by left. Defined.

(** After a successful set-up, a rejected push and a snapshot error both
    leave the state [offline], not [error]. *)
Lemma failures_end_offline_not_error :
  syncState Scenarios.afterSetup = synced ∧
  syncState (afterFailure Scenarios.unreachable (PushFails Scenarios.delta)
                          Scenarios.afterSetup) = offline ∧
  syncState (afterFailure Scenarios.unreachable SnapshotFails
                          Scenarios.afterSetup) = offline ∧
  syncState (afterFailure Scenarios.unreachable (PushFails Scenarios.delta)
                          Scenarios.afterSetup) ≠ error ∧
  syncState (afterFailure Scenarios.unreachable SnapshotFails
                          Scenarios.afterSetup) ≠ error.
Proof. vm_compute. split_and!; done. Qed.

(** The same rejected push, through the theorem: offline, still attached. *)
Lemma rejected_push_scenario :
  let st' := afterFailure Scenarios.unreachable (PushFails Scenarios.delta)
                          Scenarios.afterSetup in
  syncState st' = offline ∧ attached ANONYMOUS_DOC_ID st'.
Proof.
  destruct (failure_sets_offline_and_stays_attached
              Scenarios.unreachable (PushFails Scenarios.delta)
              ANONYMOUS_DOC_ID Scenarios.afterSetup)
    as (Hstate & _ & _ & Hatt & _).
  - exact afterSetup_attached.
  - intros ref _. reflexivity.
  - split; [exact Hstate | exact Hatt].
Defined.

(** One local mutation after set-up: the bootstrap write and one push; the
    echo adds nothing. *)
Lemma one_push_scenario :
  let pushed := localMutation Scenarios.online Scenarios.delta
                              Scenarios.afterSetup in
  let record := pushRecord Scenarios.online Scenarios.delta
                  (getClientId Scenarios.online Scenarios.afterSetup).1 in
  length (setDocCalls Scenarios.afterSetup) = 1 ∧
  length (setDocCalls pushed) = 2 ∧
  length (setDocCalls (onSnapshotNext Scenarios.online (Some record) pushed)) = 2.
Proof.
  destruct (echo_suppression Scenarios.online Scenarios.online Scenarios.delta
              ANONYMOUS_DOC_ID Scenarios.afterSetup)
    as (_ & _ & _ & Hpush & _ & _ & Hecho & _).
  - reflexivity.
  - intros pushed record. unfold pushed, record.
    rewrite Hecho, Hpush, length_app. split_and!; reflexivity.
Defined.

End FirebaseSyncTheory.

(* ===================================================================== *)
(** * More on the shared document and its hooks *)
(* ===================================================================== *)

Module DocumentTheory.
Import Models YjsProvider UseBlocks UseTasks UseBreaks UseTaskNotes.
Import YjsProviderTheory.

(** ** Updating a block *)

(** The block [updateBlock] finds carries the id it was asked for. *)
Lemma found_block_id (id : string) (blocks : list Block) (i : nat) :
  findIndex (λ b, String.eqb (b_id b) id) blocks = Some i →
  ∃ old, blocks !! i = Some old ∧ b_id old = id.
Proof.
  intros Hfind. destruct (findIndex_Some _ _ _ Hfind) as (old & Hold & Hid & _).
  exists old. split; [done|]. by apply String.eqb_eq.
Qed.

(** X1.  [updateBlock] never throws; it commits at most one transaction, a
    delete and an insert at one index; the sequence keeps its length; every
    block that carries another id stays where it is; the other collections
    are untouched. *)
Theorem updateBlock_is_one_atomic_replacement
    (id : string) (updates : PartialBlock) (d : Doc) :
  ∃ d',
    updateBlock id updates d = Some d' ∧
    length (blocksArray d') = length (blocksArray d) ∧
    (transactions d' = transactions d ∨
     ∃ i, transactions d' =
          transactions d ++
          [[ArrayDelete "blocks" i 1; ArrayInsert "blocks" i 1]]) ∧
    (∀ j b, blocksArray d !! j = Some b → b_id b ≠ id →
            blocksArray d' !! j = Some b) ∧
    tasksMap d' = tasksMap d ∧ rightNowListsMap d' = rightNowListsMap d ∧
    breaksArray d' = breaksArray d ∧ taskNotesMap d' = taskNotesMap d.
Proof.
  destruct (findIndex (λ b, String.eqb (b_id b) id) (blocksArray d))
    as [i|] eqn:Hfind.
  - destruct (found_block_id _ _ _ Hfind) as (old & Hold & Hid).
    rewrite (updateBlock_found _ updates _ _ _ Hfind Hold).
    eexists. split; [reflexivity|]. simpl.
    split_and!; try done.
    + apply length_insert.
    + right. by exists i.
    + intros j b Hb Hne. rewrite list_lookup_insert_ne; [done|].
      intros <-. rewrite Hold in Hb. by injection Hb as <-.
  - exists d. unfold updateBlock. rewrite Hfind.
    split_and!; try done. by left.
Qed.

(** ** Invalid is terminal *)

Lemma updateBlock_keeps_invalid
    (i : nat) (bid id : string) (u : PartialBlock) (d d' : Doc) :
  pb_id u = None → pb_isValid u ≠ Some true →
  invalidAt i bid d → updateBlock id u d = Some d' → invalidAt i bid d'.
Proof.
  intros Hid Hvalid (b & Hb & Hinv & Hbid) Hrun.
  destruct (findIndex (λ x, String.eqb (b_id x) id) (blocksArray d))
    as [k|] eqn:Hfind.
  - destruct (found_block_id _ _ _ Hfind) as (old & Hold & _).
    rewrite (updateBlock_found _ u _ _ _ Hfind Hold) in Hrun.
    injection Hrun as <-. unfold invalidAt. simpl.
    destruct (decide (k = i)) as [->|Hne].
    + rewrite Hb in Hold. injection Hold as <-.
      exists (spreadBlock b u). split_and!.
      * apply list_lookup_insert_eq. by eapply lookup_lt_Some.
      * simpl. rewrite Hinv. destruct (pb_isValid u) as [[|]|]; done.
      * simpl. by rewrite Hid.
    + exists b. by rewrite list_lookup_insert_ne.
  - unfold updateBlock in Hrun. rewrite Hfind in Hrun. injection Hrun as <-.
    by exists b.
Qed.

Lemma applyBlockAction_keeps_invalid
    (a : BlockAction) (i : nat) (bid : string) (d : Doc) :
  invalidAt i bid d →
  ∃ d', applyBlockAction a d = Some d' ∧ invalidAt i bid d'.
Proof.
  intros Hinv. destruct a as [newId today now taskId meta
                             |hookBlocks now id c|id|id notes]; simpl.
  - eexists. split; [reflexivity|].
    destruct Hinv as (b & Hb & ? & ?). exists b. simpl.
    split; [|done]. by apply lookup_app_l_Some.
  - unfold completeBlock.
    destruct (updateBlock_total id
                (mkPartialBlock None None None (Some (Some now)) None
                   (Some (completedMeta
                            (find (λ b, String.eqb (b_id b) id) hookBlocks) c))
                   None None) d) as [d' Hrun].
    exists d'. split; [done|].
    by eapply updateBlock_keeps_invalid; [| |exact Hinv|exact Hrun].
  - unfold invalidateBlock.
    destruct (updateBlock_total id
                (mkPartialBlock None None None None None None (Some false) None)
                d) as [d' Hrun].
    exists d'. split; [done|].
    by eapply updateBlock_keeps_invalid; [| |exact Hinv|exact Hrun].
  - unfold updateBlockNotes.
    destruct (updateBlock_total id
                (mkPartialBlock None None None None None None None
                   (Some (Some notes))) d) as [d' Hrun].
    exists d'. split; [done|].
    by eapply updateBlock_keeps_invalid; [| |exact Hinv|exact Hrun].
Qed.

(** X2.  Whatever the hook is asked to do, in whatever order (create,
    complete, invalidate, edit notes), no call throws, and a block that
    has been invalidated is still in its place, with its id, and still
    invalid: nothing the hook offers makes a block valid again. *)
Theorem invalid_block_stays_invalid
    (actions : list BlockAction) (d : Doc) (i : nat) (bid : string) :
  invalidAt i bid d →
  ∃ d', applyBlockActions actions d = Some d' ∧ invalidAt i bid d'.
Proof.
  revert d. induction actions as [|a rest IH]; intros d Hinv.
  - by exists d.
  - destruct (applyBlockAction_keeps_invalid a i bid d Hinv) as (d1 & Hrun & H1).
    destruct (IH d1 H1) as (d' & Hrest & H').
    exists d'. split; [|done]. simpl. by rewrite Hrun.
Qed.

(** ** Counting valid blocks *)

Lemma filter_filter_andb {A} (p q : A → bool) (l : list A) :
  List.filter q (List.filter p l) = List.filter (λ x, p x && q x) l.
Proof.
  induction l as [|x l IH]; [done|]. simpl.
  destruct (p x); simpl; [|done]. destruct (q x); by rewrite IH.
Qed.

(** Replacing one element changes the number of elements that pass a test
    by what the old and the new element contribute. *)
Lemma filter_length_insert {A} (p : A → bool) (l : list A) (i : nat) (x y : A) :
  l !! i = Some x →
  length (List.filter p (<[i:=y]> l)) + (if p x then 1 else 0) =
  length (List.filter p l) + (if p y then 1 else 0).
Proof.
  revert i. induction l as [|a l IH]; intros i Hx; [done|].
  destruct i as [|i]; simpl in *.
  - injection Hx as ->. destruct (p x), (p y); simpl; lia.
  - specialize (IH i Hx). destruct (p a); simpl; lia.
Qed.

Lemma getValidBlockCount_eq (date : string) (d : Doc) :
  getValidBlockCount date d =
  length (List.filter (λ b, String.eqb (b_date b) date && countsAsValid b)
                      (blocksArray d)).
Proof.
  unfold getValidBlockCount, getBlocksForDate. by rewrite filter_filter_andb.
Qed.

(** How a replacement that keeps the date changes the counts. *)
Lemma count_after_replacement (d d' : Doc) (i : nat) (b b1 : Block) :
  blocksArray d !! i = Some b →
  blocksArray d' = <[i := b1]> (blocksArray d) →
  b_date b1 = b_date b →
  getValidBlockCount (b_date b) d' + (if countsAsValid b then 1 else 0) =
  getValidBlockCount (b_date b) d + (if countsAsValid b1 then 1 else 0) ∧
  ∀ date, date ≠ b_date b →
          getValidBlockCount date d' = getValidBlockCount date d.
Proof.
  intros Hb Hblocks Hdate. rewrite !getValidBlockCount_eq, Hblocks. split.
  - pose proof (filter_length_insert
                  (λ x, String.eqb (b_date x) (b_date b) && countsAsValid x)
                  _ i b b1 Hb) as H.
    simpl in H. by rewrite Hdate, String.eqb_refl in H.
  - intros date Hne. rewrite !getValidBlockCount_eq, Hblocks.
    pose proof (filter_length_insert
                  (λ x, String.eqb (b_date x) date && countsAsValid x)
                  _ i b b1 Hb) as H.
    simpl in H. rewrite Hdate in H.
    assert (String.eqb (b_date b) date = false) as Heq
      by (apply String.eqb_neq; congruence).
    rewrite Heq in H. simpl in H. lia.
Qed.

Lemma first_block_found (d : Doc) (i : nat) (b : Block) :
  blocksArray d !! i = Some b →
  (∀ j b', j < i → blocksArray d !! j = Some b' → b_id b' ≠ b_id b) →
  findIndex (λ x, String.eqb (b_id x) (b_id b)) (blocksArray d) = Some i.
Proof.
  intros Hb Hfirst.
  apply (findIndex_first _ _ _ b); [done|apply String.eqb_refl|].
  intros j y Hj Hy. apply String.eqb_neq. by eapply Hfirst.
Qed.

(** X3.  Completing a block at a time other than 0: a valid block that was
    not yet completed starts to count for its date, so the valid count of
    that date grows by exactly one; a block that already counted, or that
    is invalid, changes no count.  The counts of all other dates stay. *)
Theorem completeBlock_counts_once
    (hookBlocks : list Block) (now : Z) (celebrated_ : bool)
    (d : Doc) (i : nat) (b : Block) :
  blocksArray d !! i = Some b →
  (∀ j b', j < i → blocksArray d !! j = Some b' → b_id b' ≠ b_id b) →
  now ≠ 0%Z →
  ∃ d',
    completeBlock hookBlocks now (b_id b) celebrated_ d = Some d' ∧
    (b_isValid b = true → truthyNumber (b_completedAt b) = false →
     getValidBlockCount (b_date b) d' = S (getValidBlockCount (b_date b) d)) ∧
    (countsAsValid b = true ∨ b_isValid b = false →
     getValidBlockCount (b_date b) d' = getValidBlockCount (b_date b) d) ∧
    (∀ date, date ≠ b_date b →
             getValidBlockCount date d' = getValidBlockCount date d).
Proof.
  intros Hb Hfirst Hnow.
  pose proof (first_block_found d i b Hb Hfirst) as Hfind.
  unfold completeBlock. rewrite (updateBlock_found _ _ _ _ _ Hfind Hb).
  eexists. split; [reflexivity|].
  match goal with
  | |- context [<[i := ?b1]> (blocksArray d)] => set (b1' := b1)
  end.
  match goal with
  | |- context [mkDoc ?bl ?t ?r ?br ?n ?tx] => set (d' := mkDoc bl t r br n tx)
  end.
  destruct (count_after_replacement d d' i b b1' Hb eq_refl eq_refl)
    as [Hsame Hother].
  assert (countsAsValid b1' = b_isValid b) as Hnew.
  { unfold countsAsValid, b1'. simpl.
    assert ((now =? 0)%Z = false) as -> by by apply Z.eqb_neq.
    by rewrite andb_true_r. }
  rewrite Hnew in Hsame. unfold countsAsValid in Hsame.
  split_and!; [| |done].
  - intros Hv Hc. rewrite Hv, Hc in Hsame. simpl in Hsame. lia.
  - unfold countsAsValid. intros [Hc|Hv].
    + apply andb_true_iff in Hc as [Hv Hc]. rewrite Hv, Hc in Hsame.
      simpl in Hsame. lia.
    + rewrite Hv in Hsame. simpl in Hsame. lia.
Qed.

(** X4.  Invalidating a block takes it out of the valid count of its date:
    the count drops by exactly one when the block counted, stays when it
    did not; the counts of all other dates stay. *)
Theorem invalidateBlock_uncounts
    (d : Doc) (i : nat) (b : Block) :
  blocksArray d !! i = Some b →
  (∀ j b', j < i → blocksArray d !! j = Some b' → b_id b' ≠ b_id b) →
  ∃ d',
    invalidateBlock (b_id b) d = Some d' ∧
    (countsAsValid b = true →
     S (getValidBlockCount (b_date b) d') = getValidBlockCount (b_date b) d) ∧
    (countsAsValid b = false →
     getValidBlockCount (b_date b) d' = getValidBlockCount (b_date b) d) ∧
    (∀ date, date ≠ b_date b →
             getValidBlockCount date d' = getValidBlockCount date d).
Proof.
  intros Hb Hfirst.
  pose proof (first_block_found d i b Hb Hfirst) as Hfind.
  unfold invalidateBlock. rewrite (updateBlock_found _ _ _ _ _ Hfind Hb).
  eexists. split; [reflexivity|].
  match goal with
  | |- context [<[i := ?b1]> (blocksArray d)] => set (b1' := b1)
  end.
  match goal with
  | |- context [mkDoc ?bl ?t ?r ?br ?n ?tx] => set (d' := mkDoc bl t r br n tx)
  end.
  destruct (count_after_replacement d d' i b b1' Hb eq_refl eq_refl)
    as [Hsame Hother].
  change (countsAsValid b1') with false in Hsame.
  split_and!; [| |done]; intros Hc; rewrite Hc in Hsame; lia.
Qed.

(** ** Where the meta of a completed block comes from *)

Lemma find_findIndex {A} (p : A → bool) (l : list A) (i : nat) (x : A) :
  findIndex p l = Some i → l !! i = Some x → find p l = Some x.
Proof.
  revert i. induction l as [|a l IH]; intros i; [done|]. simpl.
  destruct (p a).
  - by intros [= <-] [= ->].
  - destruct (findIndex p l) as [k|]; [|done]. simpl.
    intros [= <-] Hx. by apply (IH k).
Qed.

(** X5.  The meta of a completed block is built from the hook's snapshot of
    the blocks, not from the document.  When the snapshot has a block of
    that id, its four checklist flags are written; when it has none, the
    four flags become [undefined] and only [celebrated] is defined; when
    the snapshot is the document's sequence, the flags are kept. *)
Theorem completeBlock_meta_comes_from_snapshot
    (hookBlocks : list Block) (now : Z) (celebrated_ : bool)
    (d : Doc) (i : nat) (b : Block) :
  blocksArray d !! i = Some b →
  (∀ j b', j < i → blocksArray d !! j = Some b' → b_id b' ≠ b_id b) →
  ∃ d' b1,
    completeBlock hookBlocks now (b_id b) celebrated_ d = Some d' ∧
    blocksArray d' !! i = Some b1 ∧
    celebrated (b_meta b1) = Some celebrated_ ∧
    (find (λ x, String.eqb (b_id x) (b_id b)) hookBlocks = None →
     b_meta b1 = mkBlockMeta None None None None (Some celebrated_)) ∧
    (∀ hb, find (λ x, String.eqb (b_id x) (b_id b)) hookBlocks = Some hb →
           b_meta b1 =
           mkBlockMeta (finishLinePictured (b_meta hb))
                       (notInterrupted (b_meta hb))
                       (committedToFocus (b_meta hb))
                       (phoneSeparate (b_meta hb)) (Some celebrated_)) ∧
    (hookBlocks = blocksArray d →
     b_meta b1 =
     mkBlockMeta (finishLinePictured (b_meta b)) (notInterrupted (b_meta b))
                 (committedToFocus (b_meta b)) (phoneSeparate (b_meta b))
                 (Some celebrated_)).
Proof.
  intros Hb Hfirst.
  pose proof (first_block_found d i b Hb Hfirst) as Hfind.
  unfold completeBlock. rewrite (updateBlock_found _ _ _ _ _ Hfind Hb).
  eexists _, _. split; [reflexivity|]. simpl.
  split; [apply list_lookup_insert_eq; by eapply lookup_lt_Some|].
  split_and!.
  - by destruct (find _ hookBlocks).
  - by intros ->.
  - by intros hb ->.
  - intros ->. by rewrite (find_findIndex _ _ _ _ Hfind Hb).
Qed.

(** ** Tasks *)

Lemma updateTask_present (now : Z) (id : string) (u : PartialTask)
    (d : Doc) (t : Task) :
  tasksMap d !! id = Some t →
  updateTask now id u d =
  mkDoc (blocksArray d) (<[id := stamped now t u]> (tasksMap d))
        (rightNowListsMap d) (breaksArray d) (taskNotesMap d)
        (transactions d ++ [[MapSet "tasks" id]]).
Proof. intros Ht. unfold updateTask. by rewrite Ht. Qed.

(** X6.  Calling [incrementBlocksSpent] for a task the document holds, any
    number of times, raises its [blocksSpent] by that number; the task's
    other fields except [modifiedAt] (the time of the last call), the other
    tasks and the blocks are unchanged, and each call is one
    transaction. *)
Theorem incrementBlocksSpent_adds_up
    (nows : list Z) (taskId : string) (d : Doc) (t : Task) :
  tasksMap d !! taskId = Some t →
  let d' := foldl (λ acc now, incrementBlocksSpent now taskId acc) d nows in
  ∃ t',
    tasksMap d' !! taskId = Some t' ∧
    t_blocksSpent t' = (t_blocksSpent t + Z.of_nat (length nows))%Z ∧
    t_modifiedAt t' = default (t_modifiedAt t) (last nows) ∧
    t_id t' = t_id t ∧ t_title t' = t_title t ∧
    t_subtasks t' = t_subtasks t ∧ t_completed t' = t_completed t ∧
    t_createdAt t' = t_createdAt t ∧ t_notes t' = t_notes t ∧
    (∀ other, other ≠ taskId → tasksMap d' !! other = tasksMap d !! other) ∧
    blocksArray d' = blocksArray d ∧
    length (transactions d') = length (transactions d) + length nows.
Proof.
  revert d t. induction nows as [|now nows IH]; intros d t Ht; simpl.
  - exists t. split_and!; try done; lia.
  - assert (incrementBlocksSpent now taskId d =
            mkDoc (blocksArray d)
              (<[taskId := stamped now t
                   (mkPartialTask None None None None None None
                      (Some (t_blocksSpent t + 1)%Z) None)]> (tasksMap d))
              (rightNowListsMap d) (breaksArray d) (taskNotesMap d)
              (transactions d ++ [[MapSet "tasks" taskId]])) as Hstep.
    { unfold incrementBlocksSpent. rewrite Ht. by apply updateTask_present. }
    rewrite Hstep.
    match goal with
    | |- context [mkDoc ?bl (<[taskId := ?t1]> _) ?r ?br ?n ?tx] =>
        set (t1' := t1); set (d1 := mkDoc bl (<[taskId := t1']> (tasksMap d)) r br n tx)
    end.
    destruct (IH d1 t1') as (t' & Hl & Hspent & Hmod & Hid & Htitle & Hsub
                             & Hcomp & Hcreated & Hnotes & Hother & Hblocks & Htx).
    { unfold d1. simpl. apply lookup_insert_eq. }
    exists t'. rewrite Hspent, Hid, Htitle, Hsub, Hcomp, Hcreated, Hnotes.
    split_and!; try done.
    + simpl. lia.
    + rewrite Hmod. destruct nows as [|n ns]; [done|].
      change (last (now :: n :: ns)) with (last (n :: ns)).
      destruct (last (n :: ns)) eqn:Hlast; [done|].
      by apply last_None in Hlast.
    + intros other Hne. rewrite (Hother other Hne). unfold d1. simpl.
      by rewrite lookup_insert_ne.
    + rewrite Htx. unfold d1. simpl. rewrite length_app. simpl. lia.
Qed.

(** ** Subtasks *)

Lemma find_fmap_preserving {A} (p : A → bool) (f : A → A) (l : list A) :
  (∀ x, p (f x) = p x) → find p (f <$> l) = f <$> find p l.
Proof.
  intros Hp. induction l as [|x l IH]; [done|]. simpl.
  rewrite Hp. by destruct (p x).
Qed.

Lemma find_elem {A} (p : A → bool) (l : list A) (x : A) :
  find p l = Some x → x ∈ l ∧ p x = true.
Proof.
  induction l as [|a l IH]; [done|]. simpl.
  destruct (p a) eqn:Hpa.
  - intros [= ->]. split; [by left|done].
  - intros H. destruct (IH H). split; [by right|done].
Qed.

Lemma find_absent {A} (p : A → bool) (l : list A) :
  (∀ x, x ∈ l → p x = false) → find p l = None.
Proof.
  induction l as [|a l IH]; intros H; [done|]. simpl.
  rewrite (H a) by (by left). apply IH. intros x Hx. apply H. by right.
Qed.

Lemma unique_by_id (l : list Subtask) (x y : Subtask) :
  NoDup (st_id <$> l) → x ∈ l → y ∈ l → st_id x = st_id y → x = y.
Proof.
  induction l as [|a l IH]; intros Hnd Hx Hy Hid.
  - by apply elem_of_nil in Hx.
  - rewrite fmap_cons in Hnd. apply NoDup_cons in Hnd as [Hnotin Hnd].
    apply elem_of_cons in Hx as [->|Hx]; apply elem_of_cons in Hy as [->|Hy].
    + done.
    + exfalso. apply Hnotin. rewrite Hid. apply list_elem_of_fmap. by exists y.
    + exfalso. apply Hnotin. rewrite <- Hid. apply list_elem_of_fmap. by exists x.
    + by apply IH.
Qed.

Lemma setCompleted_id (sid : string) (c : bool) (st : Subtask) :
  st_id (setCompleted sid c st) = st_id st.
Proof. unfold setCompleted. by destruct (String.eqb _ _). Qed.

Lemma setCompleted_twice (sid : string) (c c' : bool) (st : Subtask) :
  setCompleted sid c' (setCompleted sid c st) = setCompleted sid c' st.
Proof.
  unfold setCompleted. destruct (String.eqb (st_id st) sid) eqn:Hid.
  - simpl. by rewrite Hid.
  - by rewrite Hid.
Qed.

Lemma setCompleted_same (sid : string) (st : Subtask) :
  setCompleted sid (st_completed st) st = st.
Proof.
  unfold setCompleted. destruct (String.eqb (st_id st) sid); [|done].
  by destruct st.
Qed.

(** One toggle, for a subtask that is there. *)
Lemma toggleSubtask_found (now : Z) (taskId sid : string) (d : Doc)
    (t : Task) (s : Subtask) :
  tasksMap d !! taskId = Some t →
  find (λ st, String.eqb (st_id st) sid) (t_subtasks t) = Some s →
  toggleSubtask now taskId sid d =
  mkDoc (blocksArray d)
        (<[taskId := stamped now t
             (subtasksUpdate
                (setCompleted sid (negb (st_completed s)) <$> t_subtasks t))]>
           (tasksMap d))
        (rightNowListsMap d) (breaksArray d) (taskNotesMap d)
        (transactions d ++ [[MapSet "tasks" taskId]]).
Proof.
  intros Ht Hs. unfold toggleSubtask. rewrite Ht, Hs.
  unfold updateSubtask. rewrite Ht. by apply updateTask_present.
Qed.

(** X7.  Toggling the same subtask twice gives back the subtask list as it
    was, when the subtask ids of the task are distinct: the task differs
    from the original only in [modifiedAt], and no other task is
    touched. *)
Theorem toggleSubtask_twice_restores
    (now1 now2 : Z) (taskId sid : string) (d : Doc) (t : Task) :
  tasksMap d !! taskId = Some t →
  NoDup (st_id <$> t_subtasks t) →
  let d2 := toggleSubtask now2 taskId sid (toggleSubtask now1 taskId sid d) in
  ∃ t2,
    tasksMap d2 !! taskId = Some t2 ∧
    t_subtasks t2 = t_subtasks t ∧
    t_id t2 = t_id t ∧ t_title t2 = t_title t ∧
    t_completed t2 = t_completed t ∧ t_createdAt t2 = t_createdAt t ∧
    t_blocksSpent t2 = t_blocksSpent t ∧ t_notes t2 = t_notes t ∧
    (∀ other, other ≠ taskId → tasksMap d2 !! other = tasksMap d !! other) ∧
    blocksArray d2 = blocksArray d.
Proof.
  intros Ht Hnd d2. unfold d2.
  destruct (find (λ st, String.eqb (st_id st) sid) (t_subtasks t))
    as [s|] eqn:Hs.
  - rewrite (toggleSubtask_found now1 _ _ _ _ _ Ht Hs).
    set (c := st_completed s).
    set (t1 := stamped now1 t
                 (subtasksUpdate (setCompleted sid (negb c) <$> t_subtasks t))).
    erewrite (toggleSubtask_found now2 _ _ _ t1 (setCompleted sid (negb c) s)).
    2: { simpl. apply lookup_insert_eq. }
    2: { unfold t1. simpl. rewrite find_fmap_preserving.
         - by rewrite Hs.
         - intros x. by rewrite setCompleted_id. }
    simpl. eexists. split; [by rewrite insert_insert_eq, lookup_insert_eq|].
    simpl. destruct (find_elem _ _ _ Hs) as [Hin Hsid].
    apply String.eqb_eq in Hsid.
    split_and!; try done.
    + rewrite <- list_fmap_compose.
      rewrite <- (list_fmap_id (t_subtasks t)) at 2.
      apply list_fmap_ext. intros k x Hx. simpl.
      assert (st_completed (setCompleted sid (negb c) s) = negb c) as ->.
      { unfold setCompleted. by rewrite Hsid, String.eqb_refl. }
      rewrite negb_involutive, setCompleted_twice.
      destruct (String.eqb (st_id x) sid) eqn:Hx_id.
      * apply String.eqb_eq in Hx_id.
        assert (x = s) as ->.
        { apply (unique_by_id (t_subtasks t)); [done| |done|congruence].
          by eapply list_elem_of_lookup_2. }
        apply setCompleted_same.
      * unfold setCompleted. by rewrite Hx_id.
    + intros other Hne. by rewrite !lookup_insert_ne.
  - assert (toggleSubtask now1 taskId sid d = d) as ->.
    { unfold toggleSubtask. by rewrite Ht, Hs. }
    assert (toggleSubtask now2 taskId sid d = d) as ->.
    { unfold toggleSubtask. by rewrite Ht, Hs. }
    exists t. split_and!; done.
Qed.

(** X8.  With a subtask id the task does not have, [toggleSubtask] does
    nothing at all, while [updateSubtask] and [removeSubtask] still rewrite
    the task: the subtasks are the same, but [modifiedAt] is stamped and a
    transaction is committed. *)
Theorem unknown_subtask_id
    (now : Z) (taskId sid : string) (updates : PartialSubtask)
    (d : Doc) (t : Task) :
  tasksMap d !! taskId = Some t →
  sid ∉ st_id <$> t_subtasks t →
  toggleSubtask now taskId sid d = d ∧
  ∀ d', d' = updateSubtask now taskId sid updates d ∨
        d' = removeSubtask now taskId sid d →
    ∃ t', tasksMap d' !! taskId = Some t' ∧
          t_subtasks t' = t_subtasks t ∧
          t_modifiedAt t' = now ∧
          transactions d' = transactions d ++ [[MapSet "tasks" taskId]].
Proof.
  intros Ht Hsid.
  assert (∀ st, st ∈ t_subtasks t → String.eqb (st_id st) sid = false) as Hno.
  { intros st Hst. apply String.eqb_neq. intros <-. apply Hsid.
    apply list_elem_of_fmap. by exists st. }
  split.
  - unfold toggleSubtask. rewrite Ht. by rewrite find_absent.
  - intros d' [->| ->].
    + unfold updateSubtask. rewrite Ht, (updateTask_present _ _ _ _ _ Ht).
      simpl. eexists. split; [apply lookup_insert_eq|]. simpl.
      split_and!; try done.
      rewrite <- (list_fmap_id (t_subtasks t)) at 2.
      apply list_fmap_ext. intros k x Hx. simpl.
      rewrite Hno; [done|]. by eapply list_elem_of_lookup_2.
    + unfold removeSubtask. rewrite Ht, (updateTask_present _ _ _ _ _ Ht).
      simpl. eexists. split; [apply lookup_insert_eq|]. simpl.
      split_and!; try done.
      clear Ht Hsid. induction (t_subtasks t) as [|x l IH]; [done|].
      simpl. rewrite Hno by (by left). simpl. f_equal.
      apply IH. intros st Hst. apply Hno. by right.
Qed.

(** ** Task notes *)

Lemma isEmpty_true (s : JsString) : isEmpty s = true ↔ s = [].
Proof. by destruct s. Qed.

Lemma trimEnd_empty (s : JsString) :
  trimEnd s = [] ↔ ∀ c, c ∈ s → isWhitespace c = true.
Proof.
  induction s as [|a s IH]; simpl.
  - split; [|done]. intros _ c Hc. by apply elem_of_nil in Hc.
  - destruct (isWhitespace a) eqn:Ha; simpl.
    + destruct (isEmpty (trimEnd s)) eqn:Hrest.
      * apply isEmpty_true in Hrest. split; [|done].
        intros _ c [->|Hc]%elem_of_cons; [done|]. by apply IH.
      * split; [done|]. intros Hall.
        assert (trimEnd s = []) as Hnil.
        { apply IH. intros c Hc. apply Hall. by right. }
        by rewrite Hnil in Hrest.
    + split; [done|]. intros Hall.
      specialize (Hall a (list_elem_of_here _ _)). congruence.
Qed.

Lemma trimStart_empty (s : JsString) :
  trimStart s = [] ↔ ∀ c, c ∈ s → isWhitespace c = true.
Proof.
  induction s as [|a s IH]; simpl.
  - split; [|done]. intros _ c Hc. by apply elem_of_nil in Hc.
  - destruct (isWhitespace a) eqn:Ha.
    + rewrite IH. split.
      * intros Hall c [->|Hc]%elem_of_cons; [done|]. by apply Hall.
      * intros Hall c Hc. apply Hall. by right.
    + split; [done|]. intros Hall.
      specialize (Hall a (list_elem_of_here _ _)). congruence.
Qed.

Lemma trimStart_head (s : JsString) (c : N) (r : JsString) :
  trimStart s = c :: r → isWhitespace c = false.
Proof.
  induction s as [|a s IH]; [done|]. simpl.
  destruct (isWhitespace a) eqn:Ha; [done|]. by intros [= <- _].
Qed.

(** [trim] leaves nothing exactly when every code unit is white space. *)
Lemma trim_empty (s : JsString) :
  trim s = [] ↔ ∀ c, c ∈ s → isWhitespace c = true.
Proof.
  unfold trim. split.
  - intros Hempty. apply trimStart_empty.
    destruct (trimStart s) as [|c r] eqn:Hstart; [done|].
    pose proof (trimStart_head _ _ _ Hstart) as Hc.
    pose proof (proj1 (trimEnd_empty (c :: r)) Hempty c) as Hall.
    rewrite Hall in Hc; [done|]. by left.
  - intros Hall. apply trimStart_empty in Hall. by rewrite Hall.
Qed.

(** Notes that hold nothing but a no-break space, a line separator and a
    byte order mark are blank: saving them removes the stored notes. *)
Lemma unicode_blank_notes_are_deleted :
  let blank := [0xA0; 0x2028; 0xFEFF]%N in
  let stored := saveNotes "Write report" [0x68; 0x69]%N emptyDoc in
  trim blank = [] ∧
  getTaskNotes "Write report" stored = Some [0x68; 0x69]%N ∧
  getTaskNotes "Write report" (saveNotes "Write report" blank stored) = None.
Proof. vm_compute. split_and!; reflexivity. Qed.

(** X9.  Saving notes for a task text and reading them back.  White space
    is what [String.prototype.trim] removes, the no-break space, the byte
    order mark and the Unicode separators included.  Notes with a code
    unit that is not white space are stored as given and [hasNotes] turns
    true; notes of white space only (or empty) remove whatever was stored
    for that task text and [hasNotes] turns false.  Notes of other task
    texts, and the blocks and tasks, are not touched. *)
Theorem saved_notes_round_trip
    (taskContent : string) (notes : JsString) (d : Doc) :
  let d' := saveNotes taskContent notes d in
  let blank := bool_decide (trim notes = []) in
  (trim notes = [] ↔ ∀ c, c ∈ notes → isWhitespace c = true) ∧
  getTaskNotes taskContent d' = (if blank then None else Some notes) ∧
  hasNotes (taskNotesMap d') taskContent = negb blank ∧
  (∀ other, other ≠ taskContent →
            getTaskNotes other d' = getTaskNotes other d) ∧
  blocksArray d' = blocksArray d ∧ tasksMap d' = tasksMap d.
Proof.
  intros d' blank. split; [apply trim_empty|].
  unfold d', blank, saveNotes, setTaskNotes, getTaskNotes, hasNotes.
  case_bool_decide as Hblank.
  - rewrite Hblank. simpl.
    destruct (taskNotesMap d !! taskContent) as [old|] eqn:Hold; simpl.
    + rewrite lookup_delete_eq. split_and!; try done.
      intros other Hne. by rewrite lookup_delete_ne.
    + rewrite Hold. split_and!; done.
  - assert (isEmpty (trim notes) = false) as ->.
    { destruct (isEmpty (trim notes)) eqn:He; [|done].
      by apply isEmpty_true in He. }
    simpl. rewrite lookup_insert_eq. split_and!; try done.
    + assert (isEmpty notes = false) as ->.
      { destruct notes; [|done]. by exfalso; apply Hblank. }
      simpl. destruct (trim notes); [done|]. done.
    + intros other Hne. by rewrite lookup_insert_ne.
Qed.

(** ** Breaks *)

(** What [updateBreak] does when a break of that id exists. *)
Lemma updateBreak_found id updates d i old :
  findIndex (λ b, String.eqb (br_id b) id) (breaksArray d) = Some i →
  breaksArray d !! i = Some old →
  updateBreak id updates d =
    Some (mkDoc (blocksArray d) (tasksMap d) (rightNowListsMap d)
                (<[i := spreadBreak old updates]> (breaksArray d))
                (taskNotesMap d)
                (transactions d ++
                   [[ArrayDelete "breaks" i 1; ArrayInsert "breaks" i 1]])).
Proof.
  intros Hfind Hold. unfold updateBreak. rewrite Hfind. simpl. rewrite Hold.
  pose proof (lookup_lt_Some _ _ _ Hold) as Hlt.
  pose proof (delete_then_insert (breaksArray d) i (spreadBreak old updates) Hlt)
    as Hrepl.
  destruct (yarray_delete i 1 (breaksArray d)) as [arr1|]; simpl in *; [|done].
  by rewrite Hrepl.
Qed.

(** X10.  Ending a break that is in the document (the first of its id)
    succeeds in one transaction and replaces it in place: [endedAt] is the
    current time and [notes] is the argument, also when the argument is
    left out, in which case notes stored earlier are gone; [id],
    [startedAt] and [duration] stay, as do the other breaks and the
    blocks. *)
Theorem endBreak_closes_break
    (now : Z) (notes : option string) (d : Doc) (i : nat) (b : Break) :
  breaksArray d !! i = Some b →
  (∀ j b', j < i → breaksArray d !! j = Some b' → br_id b' ≠ br_id b) →
  ∃ d' b1,
    endBreak now (br_id b) notes d = Some d' ∧
    breaksArray d' = <[i := b1]> (breaksArray d) ∧
    br_endedAt b1 = Some now ∧ br_notes b1 = notes ∧
    br_id b1 = br_id b ∧ br_startedAt b1 = br_startedAt b ∧
    br_duration b1 = br_duration b ∧
    blocksArray d' = blocksArray d ∧ tasksMap d' = tasksMap d ∧
    transactions d' =
      transactions d ++ [[ArrayDelete "breaks" i 1; ArrayInsert "breaks" i 1]].
Proof.
  intros Hb Hfirst.
  assert (findIndex (λ x, String.eqb (br_id x) (br_id b)) (breaksArray d) = Some i)
    as Hfind.
  { apply (findIndex_first _ _ _ b); [done|apply String.eqb_refl|].
    intros j y Hj Hy. apply String.eqb_neq. by eapply Hfirst. }
  unfold endBreak. rewrite (updateBreak_found _ _ _ _ _ Hfind Hb).
  eexists _, _. split; [reflexivity|]. simpl. split_and!; done.
Qed.

(** ** The scenarios *)

Lemma invalid_block_scenario :
  ∃ d', applyBlockActions Scenarios.laterActions Scenarios.invalidatedDoc = Some d' ∧
        invalidAt 0 "b-1" d'.
Proof.
  apply invalid_block_stays_invalid.
  exists Scenarios.invalidatedBlock. split_and!; reflexivity.
Defined.

Lemma completeBlock_count_scenario :
  ∃ d', completeBlock [Scenarios.reportBlock; Scenarios.otherBlock] 5000 "b-1"
                      true Scenarios.reportDoc = Some d' ∧
        getValidBlockCount "2026-01-01" Scenarios.reportDoc = 0 ∧
        getValidBlockCount "2026-01-01" d' = 1.
Proof.
  destruct (completeBlock_counts_once
              [Scenarios.reportBlock; Scenarios.otherBlock] 5000 true
              Scenarios.reportDoc 0 Scenarios.reportBlock)
    as (d' & Hrun & Hgrows & _ & _).
  - reflexivity.
  - intros j b' Hj. lia.
  - discriminate.
  - exists d'. split; [exact Hrun|]. split; [reflexivity|].
    exact (Hgrows eq_refl eq_refl).
Defined.

Lemma invalidateBlock_count_scenario :
  ∃ d', invalidateBlock "b-1" Scenarios.completedDoc = Some d' ∧
        getValidBlockCount "2026-01-01" Scenarios.completedDoc = 1 ∧
        getValidBlockCount "2026-01-01" d' = 0.
Proof.
  destruct (invalidateBlock_uncounts Scenarios.completedDoc 0
              Scenarios.completedBlock)
    as (d' & Hrun & Hdrops & _ & _).
  - reflexivity.
  - intros j b' Hj. lia.
  - exists d'. split; [exact Hrun|]. split; [reflexivity|].
    specialize (Hdrops eq_refl).
    change (getValidBlockCount (b_date Scenarios.completedBlock)
              Scenarios.completedDoc) with 1 in Hdrops.
    by injection Hdrops.
Defined.

(** Completed through a hook whose state has not received the block yet:
    the four flags that were set are gone. *)
Lemma stale_snapshot_scenario :
  ∃ d' b1, completeBlock [] 5000 "b-1" true Scenarios.reportDoc = Some d' ∧
           blocksArray d' !! 0 = Some b1 ∧
           b_meta Scenarios.reportBlock = Scenarios.allFlags ∧
           b_meta b1 = mkBlockMeta None None None None (Some true).
Proof.
  destruct (completeBlock_meta_comes_from_snapshot [] 5000 true
              Scenarios.reportDoc 0 Scenarios.reportBlock)
    as (d' & b1 & Hrun & Hb1 & _ & Hlost & _).
  - reflexivity.
  - intros j b' Hj. lia.
  - exists d', b1. split_and!; [exact Hrun|exact Hb1|reflexivity|].
    exact (Hlost eq_refl).
Defined.

Lemma two_blocks_spent_scenario :
  ∃ t', tasksMap (incrementBlocksSpent 7000 "t-1"
                    (incrementBlocksSpent 6000 "t-1" Scenarios.reportDoc))
        !! "t-1" = Some t' ∧
        t_blocksSpent t' = 2%Z ∧ t_modifiedAt t' = 7000%Z.
Proof.
  destruct (incrementBlocksSpent_adds_up [6000%Z; 7000%Z] "t-1"
              Scenarios.reportDoc Scenarios.reportTask)
    as (t' & Hl & Hspent & Hmod & _).
  - reflexivity.
  - exists t'. split_and!; [exact Hl|exact Hspent|exact Hmod].
Defined.

Lemma toggle_twice_scenario :
  ∃ t2, tasksMap (toggleSubtask 7000 "t-2" "s-a"
                    (toggleSubtask 6000 "t-2" "s-a" Scenarios.plannedDoc))
        !! "t-2" = Some t2 ∧
        t_subtasks t2 = [Scenarios.outline; Scenarios.draft].
Proof.
  destruct (toggleSubtask_twice_restores 6000 7000 "t-2" "s-a"
              Scenarios.plannedDoc Scenarios.plannedTask)
    as (t2 & Hl & Hsub & _).
  - reflexivity.
  - apply (bool_decide_unpack _). vm_compute. exact I.
  - exists t2. split; [exact Hl|exact Hsub].
Defined.

Lemma unknown_subtask_scenario :
  toggleSubtask 6000 "t-2" "s-z" Scenarios.plannedDoc = Scenarios.plannedDoc ∧
  ∃ t', tasksMap (removeSubtask 6000 "t-2" "s-z" Scenarios.plannedDoc)
        !! "t-2" = Some t' ∧
        t_subtasks t' = [Scenarios.outline; Scenarios.draft] ∧
        t_modifiedAt t' = 6000%Z.
Proof.
  destruct (unknown_subtask_id 6000 "t-2" "s-z"
              (mkPartialSubtask None None None)
              Scenarios.plannedDoc Scenarios.plannedTask)
    as [Htoggle Hrewrite].
  - reflexivity.
  - apply (bool_decide_unpack _). vm_compute. exact I.
  - split; [exact Htoggle|].
    destruct (Hrewrite (removeSubtask 6000 "t-2" "s-z" Scenarios.plannedDoc))
      as (t' & Hl & Hsub & Hmod & _); [by right|].
    exists t'. split_and!; [exact Hl|exact Hsub|exact Hmod].
Defined.

Lemma endBreak_scenario :
  ∃ d' b1, endBreak 9000 "br-1" None Scenarios.reportDoc = Some d' ∧
           breaksArray d' = [b1] ∧
           br_endedAt b1 = Some 9000%Z ∧ br_duration b1 = 5%Z.
Proof.
  destruct (endBreak_closes_break 9000 None Scenarios.reportDoc 0
              Scenarios.coffeeBreak)
    as (d' & b1 & Hrun & Hbreaks & Hended & _ & _ & _ & Hdur & _).
  - reflexivity.
  - intros j b' Hj. lia.
  - exists d', b1. split_and!; [exact Hrun|exact Hbreaks|exact Hended|exact Hdur].
Defined.

End DocumentTheory.

(* ===================================================================== *)
(** * More on the completion relay *)
(* ===================================================================== *)

Module CompletionSyncMore.
Import CompletionSync CompletionSyncTheory.

(** ** What a run reads and stages *)

(** What was read is what the file holds, or nothing. *)
Lemma read_is_file_or_nothing (f : FileSystem) (flt : Faults) :
  readExistingCompletions f flt = [] ∨
  readExistingCompletions f flt = fileEntries f.
Proof.
  unfold readExistingCompletions, fileEntries.
  destruct (homeDirFails flt), (existsFails flt), (negb (fileExists f)),
    (readTextFileFails flt); auto;
    destruct (completionsFile f) as [[| |cs]|]; auto.
Qed.

Lemma read_clear (f : FileSystem) (flt : Faults) (cs : list TaskCompletion) :
  dirExists f = true → completionsFile f = Some (CompletionsArray cs) →
  readPathClear flt → readExistingCompletions f flt = cs.
Proof.
  intros Hd Hf (H1 & H2 & H3). unfold readExistingCompletions, fileExists.
  by rewrite H1, H2, H3, Hd, Hf.
Qed.

Lemma read_no_directory (f : FileSystem) (flt : Faults) :
  dirExists f = false → readExistingCompletions f flt = [].
Proof.
  intros Hd. unfold readExistingCompletions, fileExists. rewrite Hd. simpl.
  by destruct (homeDirFails flt), (existsFails flt).
Qed.

Lemma existingKeysOf_app (cs1 cs2 : list TaskCompletion) (key : string) :
  key ∈ existingKeysOf (cs1 ++ cs2) ↔
  key ∈ existingKeysOf cs1 ∨ key ∈ existingKeysOf cs2.
Proof. unfold existingKeysOf. rewrite fmap_app. set_solver. Qed.

(** Every queued key is in the file already or among the staged. *)
Lemma stage_covers (keys : gset string) (queue : list QueuedCompletion)
    (q : QueuedCompletion) :
  q ∈ queue →
  dedupKey (q_taskId q) (q_completedAt q) ∈ keys ∨
  dedupKey (q_taskId q) (q_completedAt q) ∈ existingKeysOf (stage keys queue).
Proof.
  intros Hq.
  destruct (decide (dedupKey (q_taskId q) (q_completedAt q) ∈ keys))
    as [Hin|Hnotin]; [by left|right].
  rewrite stage_filter. unfold existingKeysOf.
  apply elem_of_list_to_set, list_elem_of_fmap.
  exists (toCompletion q). split; [done|].
  apply list_elem_of_fmap. exists q. split; [done|].
  by apply list_elem_of_filter.
Qed.

(** A run that stages something and does not fail had its write return. *)
Lemma completed_run_wrote (e : RunEnv) (w : World) :
  idle w → runFails e w = false →
  let existing := readExistingCompletions (fs w) (readFaults e) in
  let staged := stage (existingKeysOf existing) (pendingQueue w) in
  staged ≠ [] →
  ∃ f', writeCompletionsToFile (fs w) (writeFaults e) (existing ++ staged)
        = inl f'.
Proof.
  intros Hidle Hok existing staged Hstaged.
  assert (pendingQueue w ≠ []) as Hq.
  { intros Hq. apply Hstaged. unfold staged. by rewrite Hq. }
  unfold runFails in Hok. rewrite processQueue_call_idle in Hok by done.
  unfold processQueue_afterRead in Hok. cbn [suspension pendingQueue fs] in Hok.
  fold existing in Hok. fold staged in Hok.
  destruct staged as [|c cs]; [done|].
  cbn [length Nat.ltb Nat.leb suspension] in Hok.
  destruct (writeCompletionsToFile _ _ _) as [f'|f']; [by exists f'|done].
Qed.

(** ** Delivery *)

(** X12.  A run that does not end in the [catch] block delivers: when it
    is over the queue is empty, no run is in flight, and the dedup key of
    every item that was queued is the key of an entry of the completions
    file. *)
Theorem completed_run_delivers (e : RunEnv) (w : World) :
  idle w → runFails e w = false →
  let after := processQueue e w in
  pendingQueue after = [] ∧ idle after ∧
  ∀ q, q ∈ pendingQueue w →
       dedupKey (q_taskId q) (q_completedAt q)
       ∈ existingKeysOf (fileEntries (fs after)).
Proof.
  intros Hidle Hok after.
  set (existing := readExistingCompletions (fs w) (readFaults e)).
  set (staged := stage (existingKeysOf existing) (pendingQueue w)).
  destruct (decide (staged = [])) as [Hnone|Hsome].
  - destruct (nothing_staged_run e w Hidle Hnone) as [Hfs Hq].
    split; [done|]. split.
    { unfold after, processQueue.
      destruct (decide (pendingQueue w = [])) as [Hempty|Hne].
      - rewrite processQueue_call_noop by done.
        destruct Hidle as [Hflag Hs]. unfold processQueue_afterRead.
        rewrite Hs. unfold processQueue_afterWrite. by rewrite Hs.
      - rewrite processQueue_call_idle by done.
        unfold processQueue_afterRead. cbn [suspension pendingQueue fs].
        fold existing. fold staged. by rewrite Hnone. }
    intros q Hin. unfold after. rewrite Hfs.
    destruct (stage_covers (existingKeysOf existing) _ q Hin) as [Hk|Hk].
    + destruct (read_is_file_or_nothing (fs w) (readFaults e)) as [Hr|Hr];
        fold existing in Hr; rewrite Hr in Hk; [|done].
      unfold existingKeysOf in Hk. set_solver.
    + fold staged in Hk. rewrite Hnone in Hk.
      unfold existingKeysOf in Hk. set_solver.
  - destruct (completed_run_wrote e w Hidle Hok Hsome) as [f' Hwrite].
    unfold after. rewrite (successful_run e w f' Hidle Hsome Hwrite).
    split; [done|]. split; [done|].
    intros q Hin. cbn [fs].
    apply write_success_content in Hwrite as ->. unfold fileEntries. simpl.
    apply existingKeysOf_app.
    by apply stage_covers.
Qed.

(** X13.  When the completions file holds an array and reading it works,
    a run that does not fail keeps every entry of the file, in order, and
    appends the staged items after them; none of the appended entries has
    the dedup key of an entry that was there. *)
Theorem completed_run_appends
    (e : RunEnv) (w : World) (cs : list TaskCompletion) :
  idle w →
  dirExists (fs w) = true →
  completionsFile (fs w) = Some (CompletionsArray cs) →
  readPathClear (readFaults e) →
  runFails e w = false →
  let after := processQueue e w in
  let staged := stage (existingKeysOf cs) (pendingQueue w) in
  fileEntries (fs after) = cs ++ staged ∧
  dirExists (fs after) = true ∧
  ∀ c, c ∈ staged →
       dedupKey (taskId c) (completedAt c) ∉ existingKeysOf cs.
Proof.
  intros Hidle Hdir Hfile Hclear Hok after staged.
  pose proof (read_clear _ _ _ Hdir Hfile Hclear) as Hread.
  assert (∀ c, c ∈ staged →
               dedupKey (taskId c) (completedAt c) ∉ existingKeysOf cs)
    as Hfresh.
  { intros c Hc. unfold staged in Hc. rewrite stage_filter in Hc.
    apply list_elem_of_fmap in Hc as (q & -> & Hq).
    by apply list_elem_of_filter in Hq as [Hq _]. }
  destruct (decide (staged = [])) as [Hnone|Hsome].
  - destruct (nothing_staged_run e w Hidle) as [Hfs _].
    { rewrite Hread. exact Hnone. }
    unfold after. rewrite Hfs. split_and!; [|done|done].
    rewrite Hnone, app_nil_r. unfold fileEntries. by rewrite Hfile.
  - destruct (completed_run_wrote e w Hidle Hok) as [f' Hwrite].
    { rewrite Hread. exact Hsome. }
    unfold after. rewrite (successful_run e w f' Hidle); [| |exact Hwrite].
    + cbn [fs]. apply write_success_content in Hwrite as ->.
      unfold fileEntries. simpl. rewrite Hread. by split_and!.
    + rewrite Hread. exact Hsome.
Qed.

(** ** What happens while a write is in flight *)

(** X14.  A completion recorded while the write of a run is in flight is
    only appended to the queue.  When that write returns, the queue is
    emptied: the file holds what had been staged before and the new item
    is neither in the queue nor retried.  When the write is rejected, the
    new item stays queued, with a [retryCount] of 1. *)
Theorem record_during_write
    (tid : string) (dur : Z) (bid : option string) (iso : string) (ms : Z)
    (flt : Faults) (rnd : Q) (w : World) (toWrite : list TaskCompletion) :
  isProcessingQueue w = true →
  suspension w = AwaitingWrite toWrite →
  let item := mkQueuedCompletion tid iso dur bid 0 ms in
  let w1 := recordCompletion tid dur bid iso ms w in
  let after := processQueue_afterWrite flt rnd w1 in
  pendingQueue w1 = pendingQueue w ++ [item] ∧
  suspension w1 = AwaitingWrite toWrite ∧ fs w1 = fs w ∧
  (∀ f', writeCompletionsToFile (fs w) flt toWrite = inl f' →
         pendingQueue after = [] ∧ idle after ∧
         fileEntries (fs after) = toWrite ∧ timers after = timers w) ∧
  (∀ f', writeCompletionsToFile (fs w) flt toWrite = inr f' →
         bumpRetry item ∈ pendingQueue after ∧
         retryCount (bumpRetry item) = 1 ∧
         completionsFile (fs after) = completionsFile (fs w)).
Proof.
  intros Hflag Hs item w1 after.
  assert (w1 = mkWorld (pendingQueue w ++ [item]) (isProcessingQueue w)
                       (retryTimeout w) (suspension w) (fs w) (timers w)
                       (nextTimerId w)) as Hw1.
  { unfold w1, recordCompletion, processQueue_call. cbn [isProcessingQueue].
    by rewrite Hflag. }
  unfold after. rewrite Hw1. cbn [pendingQueue suspension fs].
  split; [done|]. split; [done|]. split; [done|].
  unfold processQueue_afterWrite.
  cbn [suspension fs pendingQueue retryTimeout timers nextTimerId].
  rewrite Hs. split.
  - intros f' Hwrite. rewrite Hwrite. cbn [pendingQueue fs timers].
    split_and!; try done.
    apply write_success_content in Hwrite as ->. done.
  - intros f' Hwrite. rewrite Hwrite.
    destruct (scheduleRetry _ _ _ _ _) as [[rt ts] next].
    cbn [pendingQueue fs]. split_and!; [|done|].
    + rewrite requeue_filter. apply list_elem_of_fmap.
      exists item. split; [done|]. apply list_elem_of_filter. split.
      * simpl. unfold MAX_RETRIES. lia.
      * apply elem_of_app. right. by left.
    + by eapply write_failure_keeps_file.
Qed.

(** X15.  [clearPendingQueue] empties the queue and cancels the pending
    retry, but does not stop a write that is in flight: when that write
    returns, the items staged before the clearing are in the file.  When
    it is rejected instead, nothing is queued again and no retry is
    scheduled. *)
Theorem clearPendingQueue_during_write
    (flt : Faults) (rnd : Q) (w : World) (toWrite : list TaskCompletion) :
  timersConsistent w →
  suspension w = AwaitingWrite toWrite →
  let cleared := clearPendingQueue w in
  let after := processQueue_afterWrite flt rnd cleared in
  pendingQueue cleared = [] ∧ timers cleared = [] ∧
  retryTimeout cleared = None ∧
  (∀ f', writeCompletionsToFile (fs w) flt toWrite = inl f' →
         fileEntries (fs after) = toWrite ∧ pendingQueue after = []) ∧
  (∀ f', writeCompletionsToFile (fs w) flt toWrite = inr f' →
         pendingQueue after = [] ∧ timers after = [] ∧
         retryTimeout after = None).
Proof.
  intros Hc Hs cleared after.
  assert (cleared = mkWorld [] (isProcessingQueue w) None (suspension w)
                            (fs w) [] (nextTimerId w)) as Hcleared.
  { unfold cleared, clearPendingQueue.
    destruct (retryTimeout w) as [id|] eqn:Hrt.
    - by rewrite (timersConsistent_cleared w id Hc Hrt).
    - unfold timersConsistent in Hc. rewrite Hrt in Hc.
      by destruct (timers w). }
  unfold after. rewrite Hcleared. cbn [pendingQueue timers retryTimeout].
  split; [done|]. split; [done|]. split; [done|].
  unfold processQueue_afterWrite.
  cbn [suspension fs pendingQueue retryTimeout timers nextTimerId].
  rewrite Hs. split.
  - intros f' Hwrite. rewrite Hwrite. cbn [fs pendingQueue]. split; [|done].
    apply write_success_content in Hwrite as ->. done.
  - intros f' Hwrite. rewrite Hwrite. done.
Qed.

(** ** The delay *)




(** ** A missing shared directory *)

(** X17.  With no shared directory yet and something queued, a run whose
    write path meets no rejection creates the directory and a file that
    holds exactly the queued items, in order, and empties the queue; a run
    during which [mkdir] is rejected creates nothing and keeps the items
    for a retry. *)
Theorem missing_directory (e : RunEnv) (w : World) :
  idle w → dirExists (fs w) = false → pendingQueue w ≠ [] →
  let after := processQueue e w in
  (writePathClear (writeFaults e) →
   fs after = mkFileSystem true
                (Some (CompletionsArray (toCompletion <$> pendingQueue w))) ∧
   pendingQueue after = []) ∧
  (homeDirFails (writeFaults e) = false →
   existsFails (writeFaults e) = false →
   mkdirFails (writeFaults e) = true →
   fs after = fs w ∧ pendingQueue after = requeue (pendingQueue w)).
Proof.
  intros Hidle Hdir Hq after.
  pose proof (read_no_directory (fs w) (readFaults e) Hdir) as Hread.
  assert (stage (existingKeysOf (readExistingCompletions (fs w) (readFaults e)))
                (pendingQueue w) = toCompletion <$> pendingQueue w) as Hstage.
  { rewrite Hread. apply stage_no_existing. }
  assert (toCompletion <$> pendingQueue w ≠ []) as Hne.
  { intros Hnil. by apply fmap_nil_inv in Hnil. }
  split.
  - intros (H1 & H2 & H3 & H4).
    assert (writeCompletionsToFile (fs w) (writeFaults e)
              ([] ++ (toCompletion <$> pendingQueue w)) =
            inl (mkFileSystem true
                   (Some (CompletionsArray (toCompletion <$> pendingQueue w)))))
      as Hwrite.
    { unfold writeCompletionsToFile, ensureSharedDirExists.
      by rewrite H1, H2, H3, H4, Hdir. }
    unfold after.
    rewrite (successful_run e w
               (mkFileSystem true
                  (Some (CompletionsArray (toCompletion <$> pendingQueue w))))
               Hidle).
    + done.
    + by rewrite Hstage.
    + by rewrite Hstage, Hread.
  - intros H1 H2 H3.
    assert (writeCompletionsToFile (fs w) (writeFaults e)
              ([] ++ (toCompletion <$> pendingQueue w)) = inr (fs w))
      as Hwrite.
    { unfold writeCompletionsToFile, ensureSharedDirExists.
      by rewrite H1, H2, H3, Hdir. }
    assert (runFails e w = true) as Hfail.
    { unfold runFails. rewrite processQueue_call_idle by done.
      unfold processQueue_afterRead. cbn [suspension pendingQueue fs].
      rewrite Hstage, Hread.
      destruct (toCompletion <$> pendingQueue w) as [|c cs] eqn:Hcs; [done|].
      cbn [length Nat.ltb Nat.leb suspension]. by rewrite Hwrite. }
    unfold after, processQueue. rewrite processQueue_call_idle by done.
    unfold processQueue_afterRead. cbn [suspension pendingQueue fs].
    rewrite Hstage, Hread.
    destruct (toCompletion <$> pendingQueue w) as [|c cs] eqn:Hcs; [done|].
    cbn [length Nat.ltb Nat.leb]. unfold processQueue_afterWrite.
    cbn [suspension fs pendingQueue retryTimeout timers nextTimerId].
    rewrite Hwrite.
    by destruct (scheduleRetry _ _ _ _ _) as [[rt ts] next].
Qed.

(** ** Manual flush *)

(** [retryPendingCompletions] cancels the pending retry timer and
    leaves the queue and the file alone; it starts a run when none is in
    flight and something is queued, and starts none while one is in
    flight. *)
Theorem manual_flush (w : World) :
  wellFormed w →
  let after := retryPendingCompletions w in
  timers after = [] ∧ retryTimeout after = None ∧
  pendingQueue after = pendingQueue w ∧ fs after = fs w ∧
  (idle w → pendingQueue w ≠ [] →
   suspension after = AwaitingRead ∧ isProcessingQueue after = true) ∧
  (isProcessingQueue w = true → suspension after = suspension w).
Proof.
  intros (Hc & Hf & _) after.
  assert (∃ w0, after = processQueue_call w0 ∧
                timers w0 = [] ∧ retryTimeout w0 = None ∧
                pendingQueue w0 = pendingQueue w ∧ fs w0 = fs w ∧
                isProcessingQueue w0 = isProcessingQueue w ∧
                suspension w0 = suspension w)
    as (w0 & Hafter & Ht & Hrt & Hq & Hfs & Hflag & Hs).
  { unfold after, retryPendingCompletions.
    destruct (retryTimeout w) as [id|] eqn:Hid.
    - eexists. split; [reflexivity|]. simpl.
      by rewrite (timersConsistent_cleared w id Hc Hid).
    - exists w. split; [done|]. split_and!; try done.
      unfold timersConsistent in Hc. rewrite Hid in Hc.
      by destruct (timers w). }
  rewrite Hafter. unfold processQueue_call. rewrite Hflag, Hq.
  split_and!.
  - by destruct (isProcessingQueue w || _).
  - by destruct (isProcessingQueue w || _).
  - by destruct (isProcessingQueue w || _).
  - by destruct (isProcessingQueue w || _).
  - intros [Hidle _] Hne. rewrite Hidle.
    destruct (pendingQueue w); [done|]. done.
  - intros ->. done.
Qed.

(** ** The scenarios *)

(** The state in which the run started for the one queued item awaits its
    write. *)
Lemma record_during_write_scenario :
  let writing := processQueue_afterRead noFaults
                   (processQueue_call (Scenarios.oneQueued 0)) in
  let w1 := recordCompletion "43" 25 None Scenarios.isoNow 1767225600001 writing in
  length (pendingQueue w1) = 2 ∧
  pendingQueue (processQueue_afterWrite noFaults 0 w1) = [] ∧
  fileEntries (fs (processQueue_afterWrite noFaults 0 w1)) =
    [Scenarios.completion42].
Proof.
  intros writing w1.
  destruct (record_during_write "43" 25 None Scenarios.isoNow 1767225600001
              noFaults 0 writing [Scenarios.completion42])
    as (Hq & _ & _ & Hok & _).
  - reflexivity.
  - reflexivity.
  - destruct (Hok (mkFileSystem true
                     (Some (CompletionsArray [Scenarios.completion42]))))
      as (Hempty & _ & Hfile & _); [reflexivity|].
    split_and!; [|exact Hempty|exact Hfile].
    unfold w1. rewrite Hq. reflexivity.
Defined.

Lemma clear_during_write_scenario :
  let writing := processQueue_afterRead noFaults
                   (processQueue_call (Scenarios.oneQueued 0)) in
  pendingQueue (clearPendingQueue writing) = [] ∧
  fileEntries (fs (processQueue_afterWrite noFaults 0
                     (clearPendingQueue writing))) = [Scenarios.completion42].
Proof.
  intros writing.
  destruct (clearPendingQueue_during_write noFaults 0 writing
              [Scenarios.completion42])
    as (Hq & _ & _ & Hok & _).
  - exact I.
  - reflexivity.
  - destruct (Hok (mkFileSystem true
                     (Some (CompletionsArray [Scenarios.completion42]))))
      as (Hfile & _); [reflexivity|].
    split; [exact Hq|exact Hfile].
Defined.


(** The scenario of the specification: [record("42", 25)] with no shared
    directory. *)
Lemma missing_directory_scenario :
  fs (processQueue Scenarios.allFine (Scenarios.oneQueued 0)) =
  mkFileSystem true (Some (CompletionsArray [Scenarios.completion42])).
Proof.
  destruct (missing_directory Scenarios.allFine (Scenarios.oneQueued 0))
    as [Hcreated _].
  - split; reflexivity.
  - reflexivity.
  - discriminate.
  - destruct Hcreated as [Hfs _]; [split_and!; reflexivity|]. exact Hfs.
Defined.

Lemma delivery_scenario :
  pendingQueue (processQueue Scenarios.allFine (Scenarios.oneQueued 0)) = [] ∧
  dedupKey "42" Scenarios.isoNow
  ∈ existingKeysOf
      (fileEntries (fs (processQueue Scenarios.allFine (Scenarios.oneQueued 0)))).
Proof.
  destruct (completed_run_delivers Scenarios.allFine (Scenarios.oneQueued 0))
    as (Hq & _ & Hkeys).
  - split; reflexivity.
  - vm_compute. reflexivity.
  - split; [exact Hq|]. apply (Hkeys (Scenarios.queued42 0)). by left.
Defined.

Lemma manual_flush_scenario :
  let failed := processQueue Scenarios.writeRejected (Scenarios.oneQueued 0) in
  length (timers failed) = 1 ∧
  timers (retryPendingCompletions failed) = [] ∧
  suspension (retryPendingCompletions failed) = AwaitingRead.
Proof.
  intros failed.
  destruct (manual_flush failed) as (Ht & _ & _ & _ & Hstart & _).
  - split_and!.
    + split; [reflexivity|]. vm_compute. lia.
    + reflexivity.
    + vm_compute. repeat constructor.
  - split_and!; [reflexivity|exact Ht|].
    destruct Hstart as [Hs _]; [split; reflexivity|discriminate|exact Hs].
Defined.

Lemma append_scenario :
  fileEntries (fs (processQueue Scenarios.allFine Scenarios.withOlderEntry)) =
  [Scenarios.olderCompletion; Scenarios.completion42].
Proof.
  destruct (completed_run_appends Scenarios.allFine Scenarios.withOlderEntry
              [Scenarios.olderCompletion])
    as (Hfile & _).
  - split; reflexivity.
  - reflexivity.
  - reflexivity.
  - split_and!; reflexivity.
  - vm_compute. reflexivity.
  - rewrite Hfile. vm_compute. reflexivity.
Defined.

End CompletionSyncMore.

(* ===================================================================== *)
(** * More on the external task importer *)
(* ===================================================================== *)

Module UseSubeteTasksMore.
Import UseSubeteTasks UseSubeteTasksTheory.

(** ** Polls that fail *)

(** X18.  A poll whose read fails keeps what the user sees and what is
    cached: the task list, the cache, the remembered task count are
    unchanged; the error message is recorded, the error counter grows by
    one, the status is [error] or [offline] (so [isOffline] is true), and at
    most one toast is added. *)
Theorem failed_poll_keeps_tasks (e : PollEnv) (h : Hook) (message : string) :
  (readSharedTasks (attempts e) MAX_RETRIES).1 = inr message →
  let h' := refresh e h in
  tasks h' = tasks h ∧ cache h' = cache h ∧
  previousTaskCountRef h' = previousTaskCountRef h ∧
  hasInitialLoadRef h' = hasInitialLoadRef h ∧
  errorMsg h' = Some message ∧ loading h' = false ∧
  consecutiveErrorsRef h' = S (consecutiveErrorsRef h) ∧
  (syncStatus h' = error ∨ syncStatus h' = offline) ∧
  isOffline h' = true ∧
  (toasts h' = toasts h ∨ ∃ t, toasts h' = toasts h ++ [t]).
Proof.
  intros Hread h'. unfold h', refresh. rewrite Hread.
  destruct (hasInitialLoadRef h && _ && _).
  - destruct (includes "locked" message || _ || _);
      [|destruct (includes "ENOENT" message || _);
        [|destruct (includes "parse" message || _)]];
      simpl; split_and!; try done; eauto.
  - simpl. split_and!; try done; eauto.
Qed.

(** X19.  Errors are muted: before the first successful poll, or when the
    message is the one already reported, or when three polls in a row have
    failed already, a failing poll adds no toast, leaves the remembered
    message alone and reports [error], whatever the message says. *)
Theorem repeated_error_is_muted (e : PollEnv) (h : Hook) (message : string) :
  (readSharedTasks (attempts e) MAX_RETRIES).1 = inr message →
  hasInitialLoadRef h = false ∨ lastErrorRef h = Some message ∨
  3 ≤ consecutiveErrorsRef h →
  let h' := refresh e h in
  toasts h' = toasts h ∧ syncStatus h' = error ∧
  lastErrorRef h' = lastErrorRef h ∧ tasks h' = tasks h.
Proof.
  intros Hread Hmuted h'. unfold h', refresh. rewrite Hread.
  assert (hasInitialLoadRef h &&
          negb (bool_decide (lastErrorRef h = Some message)) &&
          (S (consecutiveErrorsRef h) <=? 3)%nat = false) as ->; [|done].
  destruct Hmuted as [->|[Hsame|Hmany]]; [done| |].
  - rewrite bool_decide_eq_true_2 by done. by rewrite andb_false_r.
  - assert ((S (consecutiveErrorsRef h) <=? 3)%nat = false) as ->
      by (apply Nat.leb_gt; lia).
    by rewrite andb_false_r.
Qed.

(** ** Retries inside one poll *)

Lemma format_error_not_retryable :
  isRetryable "Invalid tasks format: expected array" = false.
Proof. vm_compute. reflexivity. Qed.

Lemma backoff_from (outcome : nat → AttemptOutcome)
    (remaining attempt : nat) (lastError : option string) :
  let r := readSharedTasks_from outcome remaining attempt lastError in
  r.2 = retryDelay <$> seq attempt (length r.2) ∧
  length r.2 ≤ remaining - 1 ∧
  ∀ k, attempt ≤ k < attempt + length r.2 →
       ∃ message, outcome k = Rejected message ∧ isRetryable message = true.
Proof.
  revert attempt lastError.
  induction remaining as [|remaining IH]; intros attempt lastError.
  - simpl. split_and!; [done|lia|]. intros k Hk. lia.
  - cbn [readSharedTasks_from].
    destruct (outcome attempt) as [|message|[ts|]] eqn:Hout.
    + simpl. split_and!; [done|lia|]. intros k Hk. lia.
    + destruct (isRetryable message) eqn:Hretry; simpl.
      * destruct (0 <? remaining)%nat eqn:Hleft.
        -- apply Nat.ltb_lt in Hleft.
           specialize (IH (S attempt) (Some message)).
           destruct (readSharedTasks_from outcome remaining (S attempt)
                       (Some message)) as [r slept].
           simpl in *. destruct IH as (Hshape & Hlen & Hwhy).
           split_and!.
           ++ f_equal. exact Hshape.
           ++ lia.
           ++ intros k Hk. destruct (decide (k = attempt)) as [->|Hne].
              ** by exists message.
              ** apply Hwhy. lia.
        -- simpl. split_and!; [done|lia|]. intros k Hk. lia.
      * split_and!; [done|lia|]. intros k Hk. lia.
    + simpl. split_and!; [done|lia|]. intros k Hk. lia.
    + rewrite format_error_not_retryable. simpl.
      split_and!; [done|lia|]. intros k Hk. lia.
Qed.

(** X20.  Inside one poll the read is retried only after errors whose
    message names a lock or a busy file, at most [retries - 1] times, and
    the sleeps before the retries are 500 ms, 1000 ms, 2000 ms, ... in that
    order.  With the three attempts a poll makes, it sleeps not at all, or
    500 ms, or 500 ms and then 1000 ms: less than the polling interval in
    total. *)
Theorem readSharedTasks_backoff (outcome : nat → AttemptOutcome) (retries : nat) :
  let slept := (readSharedTasks outcome retries).2 in
  slept = retryDelay <$> seq 0 (length slept) ∧
  length slept ≤ retries - 1 ∧
  (∀ k, k < length slept →
        ∃ message, outcome k = Rejected message ∧ isRetryable message = true) ∧
  (retries = MAX_RETRIES →
   (slept = [] ∨ slept = [500%Z] ∨ slept = [500%Z; 1000%Z]) ∧
   (foldr Z.add 0 slept < POLL_INTERVAL_MS)%Z).
Proof.
  intros slept. unfold slept, readSharedTasks.
  destruct (backoff_from outcome retries 0 None) as (Hshape & Hlen & Hwhy).
  split_and!; [done|done| |].
  - intros k Hk. apply Hwhy. lia.
  - intros ->. unfold MAX_RETRIES in *.
    set (s := (readSharedTasks_from outcome 3 0 None).2) in *.
    destruct s as [|a [|b [|c s']]]; simpl in Hlen; try lia.
    + split; [by left|done].
    + injection Hshape as ->. split; [right; by left|done].
    + injection Hshape as -> ->. split; [right; by right|done].
Qed.

(** ** Polls that succeed *)



(** ** A file that does not hold an array *)

Lemma format_error_class :
  includes "locked" formatErrorMessage || includes "EBUSY" formatErrorMessage ||
  includes "busy" formatErrorMessage = false ∧
  includes "ENOENT" formatErrorMessage ||
  includes "not found" formatErrorMessage = false ∧
  includes "parse" formatErrorMessage || includes "JSON" formatErrorMessage = false.
Proof. vm_compute. by split_and!. Qed.

(** X22.  A tasks file that parses to something other than an array fails
    the poll at once, without retry or sleep, with the format message.  The
    task list stays, the status is [error], and the toast shown when the
    error is new is the generic "temporarily unavailable" one: the format
    message matches none of the words the hook looks for. *)
Theorem non_array_file (e : PollEnv) (h : Hook) :
  attempts e 0 = Parsed NotArray →
  let h' := refresh e h in
  readSharedTasks (attempts e) MAX_RETRIES = (inr formatErrorMessage, []) ∧
  tasks h' = tasks h ∧ cache h' = cache h ∧ syncStatus h' = error ∧
  errorMsg h' = Some formatErrorMessage ∧
  (hasInitialLoadRef h = true →
   lastErrorRef h ≠ Some formatErrorMessage →
   consecutiveErrorsRef h < 3 →
   toasts h' = toasts h ++ [TemporarilyUnavailable]) ∧
  (hasInitialLoadRef h = false → toasts h' = toasts h).
Proof.
  intros Hout h'.
  assert (readSharedTasks (attempts e) MAX_RETRIES = (inr formatErrorMessage, []))
    as Hread.
  { unfold readSharedTasks, MAX_RETRIES. cbn [readSharedTasks_from].
    rewrite Hout, format_error_not_retryable. done. }
  split; [done|]. unfold h', refresh. rewrite Hread. cbn [fst].
  destruct format_error_class as (Hlocked & Hmissing & Hparse).
  destruct (hasInitialLoadRef h) eqn:Hinit.
  - destruct (negb (bool_decide (lastErrorRef h = Some formatErrorMessage)))
      eqn:Hnew; cbn [andb].
    + destruct (S (consecutiveErrorsRef h) <=? 3)%nat eqn:Hfew.
      * rewrite Hlocked, Hmissing, Hparse. by split_and!.
      * split_and!; try done. intros _ _ Hlt.
        apply Nat.leb_gt in Hfew. lia.
    + split_and!; try done. intros _ Hne.
      apply negb_false_iff, bool_decide_eq_true_1 in Hnew. done.
  - by split_and!.
Qed.

(** ** Filtering and sorting, as the task picker does *)

(** A task that may stand before every element is inserted in front. *)
Lemma sortInsert_front (x : SubeteTask) (l : list SubeteTask) :
  comparable x → Forall comparable l →
  (∀ z, z ∈ l → priorityGe x z) → sortInsert comparator x l = x :: l.
Proof.
  destruct l as [|y l]; [done|]. intros Hx [Hy _]%Forall_cons Hall. simpl.
  assert (isPositive (comparator x y) = false) as ->; [|done].
  apply comparator_not_positive; [done..|]. apply Hall. by left.
Qed.

Lemma filter_elem {A} (p : A → bool) (l : list A) (z : A) :
  z ∈ List.filter p l → z ∈ l ∧ p z = true.
Proof.
  rewrite !list_elem_of_In. apply filter_In.
Qed.

Lemma filter_Forall {A} (P : A → Prop) (p : A → bool) (l : list A) :
  Forall P l → Forall P (List.filter p l).
Proof.
  rewrite !Forall_forall. intros Hall z [Hz _]%filter_elem. by apply Hall.
Qed.

Lemma sortInsert_filter (p : SubeteTask → bool) (x : SubeteTask)
    (l : list SubeteTask) :
  comparable x → Forall comparable l →
  StronglySorted priorityGe l →
  List.filter p (sortInsert comparator x l) =
  if p x then sortInsert comparator x (List.filter p l) else List.filter p l.
Proof.
  intros Hx Hl. induction 1 as [|y l Hsorted IH Hall].
  - simpl. by destruct (p x).
  - pose proof Hl as [Hy Hl']%Forall_cons.
    cbn [sortInsert].
    destruct (isPositive (comparator x y)) eqn:Hpos.
    + cbn [List.filter]. rewrite IH by done.
      destruct (p y), (p x); try done.
      cbn [sortInsert]. by rewrite Hpos.
    + apply comparator_not_positive in Hpos; [|done..].
      change (List.filter p (x :: y :: l))
        with (if p x then x :: List.filter p (y :: l) else List.filter p (y :: l)).
      destruct (p x); [|done].
      rewrite sortInsert_front; [done|done|by apply filter_Forall|].
      intros z [Hz _]%filter_elem.
      apply elem_of_cons in Hz as [->|Hz]; [done|].
      eapply priorityGe_trans; [exact Hpos|].
      rewrite Forall_forall in Hall. by apply Hall.
Qed.

Lemma arraySort_filter (p : SubeteTask → bool) (l : list SubeteTask) :
  Forall comparable l →
  List.filter p (arraySort comparator l) =
  arraySort comparator (List.filter p l).
Proof.
  induction 1 as [|x l Hx Hl IH]; [done|].
  change (arraySort comparator (x :: l))
    with (sortInsert comparator x (arraySort comparator l)).
  rewrite sortInsert_filter;
    [|done|by rewrite arraySort_perm|by apply arraySort_sorted].
  rewrite IH. cbn [List.filter]. by destruct (p x).
Qed.

(** X23.  The list the task picker builds, the tasks of the wanted statuses
    sorted by priority, does not depend on the order of the two steps when
    the ratio of every task is a number: filtering then sorting gives the
    list that sorting then filtering gives.  It holds exactly the tasks of
    a wanted status, in descending order of the ratio the code computes. *)
Theorem filter_and_sort_commute (ts : list SubeteTask) (statuses : list string) :
  Forall comparable ts →
  let picked := sortTasksByPriority (filterTasksByStatus ts statuses) in
  picked = filterTasksByStatus (sortTasksByPriority ts) statuses ∧
  StronglySorted priorityGe picked ∧
  ∀ task, task ∈ picked ↔ task ∈ ts ∧ status task ∈ statuses.
Proof.
  intros Hts picked. unfold picked, sortTasksByPriority, filterTasksByStatus.
  split_and!.
  - symmetry. by apply arraySort_filter.
  - by apply arraySort_sorted, filter_Forall.
  - intros task. rewrite arraySort_perm.
    rewrite !list_elem_of_In, filter_In, bool_decide_eq_true.
    by rewrite !list_elem_of_In.
Qed.

(** ** The scenarios *)

Lemma denied_poll_scenario :
  tasks (refresh Scenarios.deniedPoll Scenarios.loadedHook) =
    [Scenarios.slowTask; Scenarios.urgentTask] ∧
  syncStatus (refresh Scenarios.deniedPoll Scenarios.loadedHook) = error.
Proof.
  destruct (failed_poll_keeps_tasks Scenarios.deniedPoll Scenarios.loadedHook
              "permission denied")
    as (Htasks & _).
  - reflexivity.
  - split; [exact Htasks|]. reflexivity.
Defined.

(** The same refusal at the next poll: no second toast. *)
Lemma muted_poll_scenario :
  let once := refresh Scenarios.deniedPoll Scenarios.loadedHook in
  length (toasts once) = 1 ∧
  toasts (refresh Scenarios.deniedPoll once) = toasts once.
Proof.
  intros once.
  destruct (repeated_error_is_muted Scenarios.deniedPoll once
              "permission denied")
    as (Htoasts & _).
  - reflexivity.
  - right. left. reflexivity.
  - split; [reflexivity|exact Htoasts].
Defined.


Lemma object_poll_scenario :
  toasts (refresh Scenarios.objectPoll Scenarios.loadedHook) =
    toasts Scenarios.loadedHook ++ [TemporarilyUnavailable] ∧
  tasks (refresh Scenarios.objectPoll Scenarios.loadedHook) =
    [Scenarios.slowTask; Scenarios.urgentTask].
Proof.
  destruct (non_array_file Scenarios.objectPoll Scenarios.loadedHook)
    as (_ & Htasks & _ & _ & _ & Htoast & _).
  - reflexivity.
  - split; [|exact Htasks].
    apply Htoast; [reflexivity|discriminate|vm_compute; lia].
Defined.

(** What the picker shows of four tasks, one of them not wanted. *)
Lemma picker_scenario :
  let imported := [Scenarios.slowTask; Scenarios.somedayTask;
                   Scenarios.urgentTask; Scenarios.timelessTask] in
  sortTasksByPriority (filterTasksByStatus imported ["today"; "in_progress"]) =
    [Scenarios.timelessTask; Scenarios.urgentTask; Scenarios.slowTask] ∧
  filterTasksByStatus (sortTasksByPriority imported) ["today"; "in_progress"] =
    [Scenarios.timelessTask; Scenarios.urgentTask; Scenarios.slowTask].
Proof.
  intros imported.
  destruct (filter_and_sort_commute imported ["today"; "in_progress"])
    as (Hsame & _).
  - repeat constructor; reflexivity.
  - split; [reflexivity|]. rewrite <- Hsame. reflexivity.
Defined.

End UseSubeteTasksMore.

(* ===================================================================== *)
(** * More on the remote reconciler *)
(* ===================================================================== *)

Module FirebaseSyncMore.
Import Models FirebaseSync FirebaseSyncTheory.

(** ** The client id *)

(** The id returned depends on the two places it is kept in only. *)
Lemma cid_depends_on_storage (p : Platform) (s st : Sync) :
  clientId s = clientId st → storedClientId s = storedClientId st →
  (getClientId p s).1 = (getClientId p st).1.
Proof.
  intros Hc Hs. unfold getClientId. rewrite Hc, Hs.
  by destruct (falsy (clientId st)), (falsy (storedClientId st)).
Qed.

(** X24.  The client id is generated once and persisted: the first call in
    a session returns a non-empty id and leaves it in local storage; every
    later call of the session returns it and changes nothing; and a new
    session that starts from that storage gets the same id again. *)
Theorem clientId_survives_restart (p p' : Platform) (st : Sync) :
  clientId st = None →
  let r := getClientId p st in
  r.1 ≠ "" ∧ storedClientId r.2 = Some r.1 ∧
  getClientId p' r.2 = (r.1, r.2) ∧
  ∀ restarted, clientId restarted = None →
               storedClientId restarted = storedClientId r.2 →
               (getClientId p' restarted).1 = r.1.
Proof.
  intros Hnone r.
  assert (r.1 ≠ "" ∧ storedClientId r.2 = Some r.1) as [Hne Hstored].
  { unfold r, getClientId. rewrite Hnone. simpl.
    destruct (storedClientId st) as [v|] eqn:Hv; simpl; [|done].
    destruct (String.eqb v "") eqn:Hempty; simpl; [done|].
    by apply String.eqb_neq in Hempty. }
  split_and!; [done|done|apply getClientId_again|].
  intros restarted Hfresh Hsame. unfold getClientId.
  rewrite Hfresh, Hsame, Hstored. simpl.
  by apply String.eqb_neq in Hne as ->.
Qed.

(** ** Set-up *)

Lemma setupSync_attaches (p : Platform) (st : Sync) :
  let st' := settled (setupSync p st) in
  unsubscribe st' = Some (getSyncDocId (currentUser p)) ∧
  updateListeners st' = updateListeners st ++ [getSyncDocId (currentUser p)].
Proof.
  unfold setupSync. set (ref := getSyncDocId (currentUser p)).
  destruct (getDocOutcome p) as [|[data|]].
  - done.
  - destruct (truthy (rec_fullState data)); [|done]. simpl.
    match goal with
    | |- context [applyRemote p ?f ?s] =>
        destruct (applyRemote_frame p f s) as (_ & -> & -> & _)
    end.
    done.
  - match goal with
    | |- context [getClientId p ?s] =>
        pose proof (getClientId_fields p s) as (_ & _ & _ & Hu & Hl & _);
        destruct (getClientId p s) as [cid st2]
    end.
    simpl in *. by destruct (setDocRejects p ref).
Qed.

(** X25.  Bootstrap against an empty partition: the reconciler subscribes,
    registers its push handler and publishes the full local state once, as
    both [update] and [fullState], under this replica's id.  The state is
    [synced] when that write resolves and [error] when it is rejected; in
    both cases the subscription and the handler are in place and the
    document is untouched. *)
Theorem bootstrap_publishes_full_state (p : Platform) (st : Sync) :
  configured p = true → dbAvailable p = true →
  getDocOutcome p = GetDocSnapshot None →
  let ref := getSyncDocId (currentUser p) in
  let st' := initFirebaseSync p st in
  let full := Some (encodeUpdate (fullStateNow p)) in
  syncState st' = (if setDocRejects p ref then error else synced) ∧
  unsubscribe st' = Some ref ∧
  updateListeners st' = updateListeners st ++ [ref] ∧
  setDocCalls st' =
    setDocCalls st ++
    [(ref, mkRemoteRecord full full (getClientId p st).1 (nowMs p))] ∧
  applied st' = applied st.
Proof.
  intros Hconf Hdb Hdoc ref st' full.
  unfold st', initFirebaseSync, setupSync. rewrite Hconf, Hdb, Hdoc. simpl.
  fold ref.
  match goal with
  | |- context [getClientId p ?s] =>
      pose proof (getClientId_fields p s) as (_ & _ & _ & Hu & Hl & Ha & Hs);
      pose proof (cid_depends_on_storage p s st eq_refl eq_refl) as Hcid;
      destruct (getClientId p s) as [cid st2]
  end.
  simpl in *. subst cid.
  destruct (setDocRejects p ref); simpl; rewrite Hu, Hl, Ha, Hs; done.
Qed.

(** X26.  Bootstrap against a partition that has a record: nothing is
    written to the remote record; the [fullState] of the record, when it
    is there, decodes and applies, enters the document tagged as remote.
    The state ends [synced] also when the remote state could not be
    decoded or applied. *)
Theorem bootstrap_applies_remote_state
    (p : Platform) (st : Sync) (data : RemoteRecord) :
  configured p = true → dbAvailable p = true →
  getDocOutcome p = GetDocSnapshot (Some data) →
  let ref := getSyncDocId (currentUser p) in
  let st' := initFirebaseSync p st in
  syncState st' = synced ∧
  unsubscribe st' = Some ref ∧
  updateListeners st' = updateListeners st ++ [ref] ∧
  setDocCalls st' = setDocCalls st ∧
  applied st' = applied st ++ pulled p (rec_fullState data).
Proof.
  intros Hconf Hdb Hdoc ref st'.
  unfold st', initFirebaseSync, setupSync. rewrite Hconf, Hdb, Hdoc. simpl.
  fold ref. unfold pulled, truthy, applyRemote.
  destruct (rec_fullState data) as [[[|b bytes]|]|]; simpl;
    rewrite ?app_nil_r; try done.
  destruct (applyThrows p); simpl; rewrite ?app_nil_r; [done|].
  rewrite emitUpdate_remote. done.
Qed.

(** X27.  A set-up that fails because the first read of the remote record
    is rejected ends in [error], but the subscription and the push handler
    were installed before the read and stay: the next local change is
    pushed to the partition, and when that push resolves the state is
    [synced]. *)
Theorem failed_setup_stays_attached (p : Platform) (st : Sync) :
  configured p = true → dbAvailable p = true →
  getDocOutcome p = GetDocRejects →
  updateListeners st = [] →
  let ref := getSyncDocId (currentUser p) in
  let st' := initFirebaseSync p st in
  syncState st' = error ∧ attached ref st' ∧
  setDocCalls st' = setDocCalls st ∧
  ∀ p' update,
    setDocRejects p' ref = false →
    let next := localMutation p' update st' in
    syncState next = synced ∧
    setDocCalls next =
      setDocCalls st ++ [(ref, pushRecord p' update (getClientId p' st).1)].
Proof.
  intros Hconf Hdb Hdoc Hnone ref st'.
  assert (st' = mkSync error (Some ref) [ref] (clientId st)
                       (storedClientId st) (applied st) (setDocCalls st))
    as Hst'.
  { unfold st', initFirebaseSync, setupSync.
    rewrite Hconf, Hdb, Hdoc. simpl. by rewrite Hnone. }
  rewrite Hst'. split; [done|]. split.
  { split; [done|]. simpl. by left. }
  split; [done|].
  intros p' update Hok next. unfold next, localMutation, emitUpdate.
  cbn [updateListeners foldl].
  match goal with
  | |- context [pushHandler p' ref update None ?s] =>
      destruct (pushHandler_local p' ref update None s)
        as (Hcalls & Hstate & _); [done|];
      pose proof (cid_depends_on_storage p' s st eq_refl eq_refl) as Hcid
  end.
  rewrite Hstate, Hcalls, Hcid, Hok. done.
Qed.

(** ** Tear-down and identity change *)

(** X28.  [destroyFirebaseSync] drops the snapshot subscription and reports
    [offline], but the push handlers stay registered with the document:
    a local change made after the tear-down is still written to the remote
    record of every handler, and when those writes resolve the state is
    [synced] again. *)
Theorem destroy_keeps_push_handlers (st : Sync) :
  let st' := destroyFirebaseSync st in
  unsubscribe st' = None ∧ syncState st' = offline ∧
  updateListeners st' = updateListeners st ∧
  ∀ p update,
    let next := localMutation p update st' in
    setDocCalls next =
      setDocCalls st ++
      ((λ ref, (ref, pushRecord p update (getClientId p st).1))
         <$> updateListeners st) ∧
    unsubscribe next = None ∧
    (updateListeners st ≠ [] →
     (∀ ref, ref ∈ updateListeners st → setDocRejects p ref = false) →
     syncState next = synced).
Proof.
  intros st'. split; [done|]. split; [done|]. split; [done|].
  intros p update next. unfold next, localMutation, emitUpdate.
  fold (recorded update None st').
  destruct (handlers_on_local_delta p update None (updateListeners st')
              (recorded update None st')) as (Hcalls & Hu & _); [done|].
  split_and!.
  - rewrite Hcalls, cid_recorded.
    by rewrite (cid_depends_on_storage p st' st eq_refl eq_refl).
  - by rewrite Hu.
  - intros Hne Hok.
    by rewrite (handlers_final_state p update None _ _ false).
Qed.

(** X29.  When the signed-in user changes after a set-up, the reconciler
    subscribes to the new partition and registers a second push handler;
    the handler of the old partition is still there.  From then on a local
    change is written twice, with the same record: to the old partition
    and to the new one. *)
Theorem identity_change_pushes_to_both
    (p : Platform) (st : Sync) (old : string) :
  updateListeners st = [old] →
  configured p = true → dbAvailable p = true →
  let new := getSyncDocId (currentUser p) in
  let st' := onAuthStateChanged p st in
  unsubscribe st' = Some new ∧
  updateListeners st' = [old; new] ∧
  ∀ p' update,
    setDocCalls (localMutation p' update st') =
    setDocCalls st' ++
    [(old, pushRecord p' update (getClientId p' st').1);
     (new, pushRecord p' update (getClientId p' st').1)].
Proof.
  intros Hold Hconf Hdb new st'.
  assert (unsubscribe st' = Some new ∧ updateListeners st' = [old; new])
    as [Hu Hl].
  { unfold st', onAuthStateChanged, initFirebaseSync. rewrite Hconf, Hdb. simpl.
    match goal with
    | |- context [setupSync p ?s] =>
        pose proof (setupSync_attaches p s) as [Hu Hl];
        destruct (setupSync p s) as [s'|s']
    end; simpl in *; by rewrite Hu, Hl, Hold. }
  split; [done|]. split; [done|].
  intros p' update. unfold localMutation, emitUpdate.
  fold (recorded update None st'). rewrite Hl.
  destruct (handlers_on_local_delta p' update None [old; new]
              (recorded update None st')) as (-> & _); [done|].
  by rewrite cid_recorded.
Qed.

(** ** Pulling a record of another replica *)

(** X30.  A snapshot that carries a record of another replica never causes
    a write to the remote record and always ends in [synced].  Its update
    enters the document once, tagged as remote, when the field is there,
    is not empty, decodes and applies; otherwise the document is left as
    it is and the failure is not reported. *)
Theorem foreign_record_is_pulled
    (p : Platform) (data : RemoteRecord) (st : Sync) :
  rec_origin data ≠ (getClientId p st).1 →
  let st' := onSnapshotNext p (Some data) st in
  applied st' = applied st ++ pulled p (rec_update data) ∧
  setDocCalls st' = setDocCalls st ∧
  syncState st' = synced ∧
  unsubscribe st' = unsubscribe st.
Proof.
  intros Hforeign st'.
  destruct (onSnapshotNext_frame p (Some data) st) as (Hcalls & Hu & _ & Hs).
  fold st' in Hcalls, Hu, Hs. split_and!; try done.
  unfold st', onSnapshotNext, pulled, truthy.
  destruct (rec_update data) as [[[|b bytes]|]|] eqn:Hfield; simpl;
    rewrite ?app_nil_r; try done.
  - pose proof (getClientId_fields p st) as (_ & _ & _ & _ & _ & Ha & _).
    destruct (getClientId p st) as [cid st1]. simpl in *.
    apply String.eqb_neq in Hforeign as ->. simpl.
    unfold applyRemote. simpl.
    destruct (applyThrows p); simpl; rewrite ?app_nil_r; [done|].
    rewrite emitUpdate_remote. simpl. by rewrite Ha.
  - pose proof (getClientId_fields p st) as (_ & _ & _ & _ & _ & Ha & _).
    destruct (getClientId p st) as [cid st1]. simpl in *.
    apply String.eqb_neq in Hforeign as ->. simpl.
    unfold applyRemote. simpl. done.
Qed.

(** ** The scenarios *)

Lemma clientId_scenario :
  (getClientId Scenarios.signedIn
     (initialSync
        (storedClientId
           (getClientId Scenarios.online (initialSync None)).2))).1 =
  "client-1767225600000-abc".
Proof.
  destruct (clientId_survives_restart Scenarios.online Scenarios.signedIn
              (initialSync None)) as (_ & _ & _ & Hrestart).
  - reflexivity.
  - rewrite Hrestart; reflexivity.
Defined.

Lemma bootstrap_scenario :
  syncState Scenarios.afterSetup = synced ∧
  length (setDocCalls Scenarios.afterSetup) = 1 ∧
  updateListeners Scenarios.afterSetup = [ANONYMOUS_DOC_ID].
Proof.
  destruct (bootstrap_publishes_full_state Scenarios.online (initialSync None))
    as (Hstate & _ & Hl & Hcalls & _).
  - reflexivity.
  - reflexivity.
  - reflexivity.
  - split_and!; [exact Hstate| |exact Hl].
    unfold Scenarios.afterSetup. rewrite Hcalls. reflexivity.
Defined.

Lemma remote_present_scenario :
  let st' := initFirebaseSync Scenarios.remotePresent (initialSync None) in
  applied st' = [([x03; x04], firebaseOrigin)] ∧ setDocCalls st' = [].
Proof.
  destruct (bootstrap_applies_remote_state Scenarios.remotePresent
              (initialSync None) Scenarios.foreignRecord)
    as (_ & _ & _ & Hcalls & Happlied).
  - reflexivity.
  - reflexivity.
  - reflexivity.
  - split; [exact Happlied|exact Hcalls].
Defined.

Lemma failed_setup_scenario :
  let st' := initFirebaseSync Scenarios.unreadableRemote (initialSync None) in
  syncState st' = error ∧
  syncState (localMutation Scenarios.online Scenarios.delta st') = synced ∧
  length (setDocCalls (localMutation Scenarios.online Scenarios.delta st')) = 1.
Proof.
  destruct (failed_setup_stays_attached Scenarios.unreadableRemote
              (initialSync None))
    as (Hstate & _ & _ & Hnext).
  - reflexivity.
  - reflexivity.
  - reflexivity.
  - reflexivity.
  - destruct (Hnext Scenarios.online Scenarios.delta) as [Hsynced Hcalls];
      [reflexivity|].
    split_and!; [exact Hstate|exact Hsynced|].
    rewrite Hcalls. reflexivity.
Defined.

Lemma identity_change_scenario :
  let st' := onAuthStateChanged Scenarios.signedIn Scenarios.afterSetup in
  updateListeners st' = [ANONYMOUS_DOC_ID; "uid-ada"] ∧
  fst <$> drop 2 (setDocCalls (localMutation Scenarios.signedIn Scenarios.delta st')) =
    [ANONYMOUS_DOC_ID; "uid-ada"].
Proof.
  destruct (identity_change_pushes_to_both Scenarios.signedIn
              Scenarios.afterSetup ANONYMOUS_DOC_ID)
    as (_ & Hl & Hcalls).
  - reflexivity.
  - reflexivity.
  - reflexivity.
  - split; [exact Hl|]. rewrite Hcalls. reflexivity.
Defined.

Lemma foreign_record_scenario :
  applied (onSnapshotNext Scenarios.online (Some Scenarios.foreignRecord)
                          Scenarios.afterSetup) =
  [([x03; x04], firebaseOrigin)].
Proof.
  destruct (foreign_record_is_pulled Scenarios.online Scenarios.foreignRecord
              Scenarios.afterSetup) as (Happlied & _).
  - vm_compute. discriminate.
  - exact Happlied.
Defined.

End FirebaseSyncMore.
